(** * Fiber face image analysis: center/radius estimation and modal noise

    A shallow embedding of [ImageAnalysis.py] (class [ImageAnalysis]), of the
    two [ModalNoise.py] files (class [ModalNoise] and the module of
    [FiberProperties]) and of the array branch of
    [fiber_properties/base_image.py].

    Numbers.  Two readings of Python floats are used.  Where a theorem is
    about the values that are computed and stored, floats are read as real
    numbers: arithmetic is exact, there is no rounding, and NaN and the
    infinities appear only where a definition names them explicitly (module
    [Tophat]).  Where a theorem is about how long the two golden-section
    loops run and which positions they probe, floats are binary64 numbers
    ([PrimFloat], module [Binary64]): there the brackets stop shrinking once
    their ends are neighbouring floats.  Python ints that hold pixel indices
    are [Z] or [nat] and enter float arithmetic through [IZR] / [INR].

    Loops and recursion.  A [while] loop is a [Fixpoint] on a fuel argument that
    returns [OutOfFuel] when the fuel is used up.  In exact arithmetic enough
    fuel always exists for a positive tolerance; in binary64 it need not.

    What is not in the source.  [NumpyArrayHandler] (removeCircle, getArraySum,
    getGaussianFit, ...) and numpy's FFT are taken as Section variables.
    Plotting ([show_image]) has no effect on the values computed and is left
    out; the [show_image] arguments are kept in the signatures. *)

From Stdlib Require Import String Ascii.
From Stdlib Require Import Reals Lra Lia Psatz List ZArith Bool.
From Stdlib Require PrimFloat.
Import ListNotations.
Local Open Scope R_scope.

(** ** Outcomes of a call *)

Inductive result (A : Type) : Type :=
| Ok (a : A)
| Raise (e : string)
| OutOfFuel.
Arguments Ok {A} a.
Arguments Raise {A} e.
Arguments OutOfFuel {A}.

(** ** Comparisons on floats, as booleans *)

Definition Rgtb (a b : R) : bool := if Rgt_dec a b then true else false.
Definition Rltb (a b : R) : bool := if Rlt_dec a b then true else false.
Definition Rleb (a b : R) : bool := if Rle_dec a b then true else false.

Lemma Rgtb_true (a b : R) : Rgtb a b = true <-> a > b.
Proof. unfold Rgtb; destruct (Rgt_dec a b); split; intros; auto; discriminate. Qed.

Lemma Rgtb_false (a b : R) : Rgtb a b = false <-> a <= b.
Proof.
  unfold Rgtb; destruct (Rgt_dec a b); split; intros; auto; try discriminate; lra.
Qed.

Lemma Rltb_true (a b : R) : Rltb a b = true <-> a < b.
Proof. unfold Rltb; destruct (Rlt_dec a b); split; intros; auto; discriminate. Qed.

Lemma Rltb_false (a b : R) : Rltb a b = false <-> b <= a.
Proof.
  unfold Rltb; destruct (Rlt_dec a b); split; intros; auto; try discriminate; lra.
Qed.

Lemma Rleb_true (a b : R) : Rleb a b = true <-> a <= b.
Proof. unfold Rleb; destruct (Rle_dec a b); split; intros; auto; discriminate. Qed.

Lemma Rleb_false (a b : R) : Rleb a b = false <-> b < a.
Proof.
  unfold Rleb; destruct (Rle_dec a b); split; intros; auto; try discriminate; lra.
Qed.

(** Decide the float comparisons that occur in a goal about concrete numbers. *)
Ltac Rdecide_one a b d :=
  first [ destruct d; [ | exfalso; lra ] | destruct d; [ exfalso; lra | ] ].

Ltac Rdecide :=
  repeat match goal with
  | |- context [Rgt_dec ?a ?b] => Rdecide_one a b (Rgt_dec a b)
  | |- context [Rlt_dec ?a ?b] => Rdecide_one a b (Rlt_dec a b)
  | |- context [Rle_dec ?a ?b] => Rdecide_one a b (Rle_dec a b)
  end.

(** ** numpy reductions on a flattened array *)

Definition image : Type := list (list R).

Definition np_sum (l : list R) : R := fold_right Rplus 0 l.

(** [ndarray.max()] / [ndarray.min()] of an array that is not empty; numpy
    raises [ValueError] on an empty one, where these definitions give 0. *)
Definition np_max (l : list R) : R :=
  match l with [] => 0 | x :: t => fold_left Rmax t x end.
Definition np_min (l : list R) : R :=
  match l with [] => 0 | x :: t => fold_left Rmin t x end.

(** [np.argmin]: the index of the first minimum. *)
Fixpoint argmin (l : list R) : nat :=
  match l with
  | [] => 0%nat
  | x :: t =>
      match t with
      | [] => 0%nat
      | _ => let k := argmin t in
             if Rle_dec x (nth k t 0) then 0%nat else S k
      end
  end.

(** [ravel] of a 2-D array: rows one after the other. *)
Definition ravel (a : image) : list R := concat a.

(** ** The golden-section bracket *)

Module Golden.

(** [self._phi = (5 ** 0.5 - 1) / 2] *)
Definition _phi : R := (sqrt 5 - 1) / 2.

(** [np.zeros(4).astype(float)], read and written by index. *)
Record array4 : Type := Array4 { at0 : R; at1 : R; at2 : R; at3 : R }.

Definition zeros4 : array4 := Array4 0 0 0 0.

Definition get4 (a : array4) (i : nat) : R :=
  match i with
  | 0%nat => at0 a
  | 1%nat => at1 a
  | 2%nat => at2 a
  | _ => at3 a
  end.

Definition set4 (a : array4) (i : nat) (v : R) : array4 :=
  match i with
  | 0%nat => Array4 v (at1 a) (at2 a) (at3 a)
  | 1%nat => Array4 (at0 a) v (at2 a) (at3 a)
  | 2%nat => Array4 (at0 a) (at1 a) v (at3 a)
  | _ => Array4 (at0 a) (at1 a) (at2 a) v
  end.

(** The two interior probe points of a bracket whose ends are set:
    [r[1] = r[0] + (1 - phi) * (r[3] - r[0])],
    [r[2] = r[0] + phi * (r[3] - r[0])]. *)
Definition interior (r : array4) : array4 :=
  let r := set4 r 1 (get4 r 0 + (1 - _phi) * (get4 r 3 - get4 r 0)) in
  set4 r 2 (get4 r 0 + _phi * (get4 r 3 - get4 r 0)).

(** The branch [min_index == 0]: drop the upper end. *)
Definition shrink_upper (r : array4) : array4 :=
  let r := set4 r 3 (get4 r 2) in
  let r := set4 r 2 (get4 r 1) in
  set4 r 1 (get4 r 0 + (1 - _phi) * (get4 r 3 - get4 r 0)).

(** The [else] branch: drop the lower end. *)
Definition shrink_lower (r : array4) : array4 :=
  let r := set4 r 0 (get4 r 1) in
  let r := set4 r 1 (get4 r 2) in
  set4 r 2 (get4 r 0 + _phi * (get4 r 3 - get4 r 0)).

Definition shrink (min_index : nat) (r : array4) : array4 :=
  match min_index with
  | 0%nat => shrink_upper r
  | _ => shrink_lower r
  end.

(** [r[3] - r[0]], whose absolute value the loops compare with [tol]. *)
Definition width (r : array4) : R := get4 r 3 - get4 r 0.

(** The interior points sit at the golden fractions of the bracket. *)
Definition golden (r : array4) : Prop :=
  at1 r = at0 r + (1 - _phi) * (at3 r - at0 r) /\
  at2 r = at0 r + _phi * (at3 r - at0 r).

Lemma phi_sq : _phi * _phi = 1 - _phi.
Proof.
  unfold _phi. pose proof (sqrt_sqrt 5 ltac:(lra)) as H. nra.
Qed.

Lemma phi_bounds : 0.618 < _phi < 0.6181.
Proof.
  unfold _phi. pose proof (sqrt_sqrt 5 ltac:(lra)) as H.
  pose proof (sqrt_pos 5) as H0. nra.
Qed.

Lemma phi_pos : 0 < _phi.
Proof. pose proof phi_bounds; lra. Qed.

Lemma phi_lt_1 : _phi < 1.
Proof. pose proof phi_bounds; lra. Qed.

Lemma phi_sq_mul (w : R) : _phi * _phi * w = w - _phi * w.
Proof. rewrite phi_sq. ring. Qed.

Lemma interior_golden (r : array4) : golden (interior r).
Proof. destruct r; unfold golden, interior; simpl; split; reflexivity. Qed.

Lemma interior_ends (r : array4) :
  at0 (interior r) = at0 r /\ at3 (interior r) = at3 r.
Proof. destruct r; split; reflexivity. Qed.

Lemma shrink_upper_eq (r : array4) :
  golden r ->
  shrink_upper r =
  Array4 (at0 r) (at0 r + (2 * _phi - 1) * width r)
         (at0 r + (1 - _phi) * width r) (at0 r + _phi * width r).
Proof.
  destruct r as [x0 x1 x2 x3]; unfold golden, shrink_upper, width; simpl.
  intros [H1 H2]; subst x1 x2. f_equal.
  pose proof (phi_sq_mul (x3 - x0)). lra.
Qed.

Lemma shrink_lower_eq (r : array4) :
  golden r ->
  shrink_lower r =
  Array4 (at0 r + (1 - _phi) * width r) (at0 r + _phi * width r)
         (at0 r + (2 - 2 * _phi) * width r) (at3 r).
Proof.
  destruct r as [x0 x1 x2 x3]; unfold golden, shrink_lower, width; simpl.
  intros [H1 H2]; subst x1 x2. f_equal.
  pose proof (phi_sq_mul (x3 - x0)). lra.
Qed.

Lemma shrink_golden (m : nat) (r : array4) : golden r -> golden (shrink m r).
Proof.
  intros G. destruct m as [|m]; simpl.
  - rewrite (shrink_upper_eq r G). unfold golden, width; simpl.
    pose proof (phi_sq_mul (at3 r - at0 r)); split; lra.
  - rewrite (shrink_lower_eq r G). unfold golden, width; simpl.
    pose proof (phi_sq_mul (at3 r - at0 r)); split; lra.
Qed.

(** One shrink multiplies the (signed) width by [phi]. *)
Lemma shrink_width (m : nat) (r : array4) :
  golden r -> width (shrink m r) = _phi * width r.
Proof.
  intros G. destruct m as [|m]; simpl.
  - rewrite (shrink_upper_eq r G). unfold width; simpl. ring.
  - rewrite (shrink_lower_eq r G). unfold width; simpl. ring.
Qed.


(** Powers of [phi] fall below every positive bound. *)
Lemma phi_pow_small (w tol : R) :
  0 < tol -> exists k : nat, _phi ^ k * w <= tol.
Proof.
  intros Htol.
  destruct (Rle_dec w tol) as [Hle | Hgt].
  - exists 0%nat. simpl. lra.
  - assert (Hw : 0 < w) by lra.
    destruct (pow_lt_1_zero _phi) with (y := tol / w) as [N HN].
    { rewrite Rabs_pos_eq; pose proof phi_bounds; lra. }
    { apply Rdiv_lt_0_compat; lra. }
    exists N. specialize (HN N (Nat.le_refl N)).
    rewrite Rabs_pos_eq in HN by (apply pow_le; pose proof phi_pos; lra).
    apply Rlt_le.
    replace tol with (tol / w * w) by (field; lra).
    apply Rmult_lt_compat_r; assumption.
Qed.


(** *** Probe points never come back

    [seen r v]: [v] is one of the two interior points of [r] or lies outside
    the open bracket.  Every coordinate probed so far satisfies it, and the
    point a shrink introduces does not. *)

Definition between (r : array4) (v : R) : Prop :=
  at0 r < v < at3 r \/ at3 r < v < at0 r.

Definition seen (r : array4) (v : R) : Prop :=
  v = at1 r \/ v = at2 r \/ ~ between r v.

Lemma phi_mul_bounds (w : R) :
  (0 < w -> 0.618 * w < _phi * w < 0.6181 * w) /\
  (w < 0 -> 0.6181 * w < _phi * w < 0.618 * w).
Proof.
  pose proof phi_bounds as [Hl Hu]. split; intros Hw; split; nra.
Qed.

(** The point kept from the old bracket: [r[2] = r[1]] resp. [r[1] = r[2]]. *)
Lemma shrink_kept (m : nat) (r : array4) :
  (m < 2)%nat -> get4 (shrink m r) ((1 - m) + 1) = get4 r (m + 1).
Proof.
  intros Hm. destruct m as [|[|m]]; [ | | exfalso; lia ]; destruct r; reflexivity.
Qed.

Lemma shrink_fresh (m : nat) (r : array4) (v : R) :
  (m < 2)%nat -> golden r -> width r <> 0 -> seen r v ->
  v <> get4 (shrink m r) (m + 1).
Proof.
  intros Hm G Hw Hv.
  pose proof (phi_mul_bounds (at3 r - at0 r)) as [Bp Bn].
  destruct m as [|[|m]]; [ | | exfalso; lia ]; simpl shrink.
  - rewrite (shrink_upper_eq r G).
    destruct G as [G1 G2]. unfold seen, between in Hv. unfold width in *.
    cbn [get4 at0 at1 at2 at3 Nat.add] in *.
    destruct (Rtotal_order (at3 r - at0 r) 0) as [Hn | [Hz | Hp]];
      [ specialize (Bn Hn) | contradiction | specialize (Bp Hp) ];
      intros ->; destruct Hv as [Hv | [Hv | Hv]]; try lra; apply Hv; lra.
  - rewrite (shrink_lower_eq r G).
    destruct G as [G1 G2]. unfold seen, between in Hv. unfold width in *.
    cbn [get4 at0 at1 at2 at3 Nat.add] in *.
    destruct (Rtotal_order (at3 r - at0 r) 0) as [Hn | [Hz | Hp]];
      [ specialize (Bn Hn) | contradiction | specialize (Bp Hp) ];
      intros ->; destruct Hv as [Hv | [Hv | Hv]]; try lra; apply Hv; lra.
Qed.

Lemma phi_mul_sign (w : R) :
  (0 < w /\ 0.618 * w < _phi * w < 0.6181 * w) \/
  (w = 0 /\ _phi * w = 0) \/
  (w < 0 /\ 0.6181 * w < _phi * w < 0.618 * w).
Proof.
  pose proof (phi_mul_bounds w) as [Bp Bn].
  destruct (Rtotal_order w 0) as [Hn | [Hz | Hp]].
  - right; right. auto.
  - right; left. split; [assumption | rewrite Hz; ring].
  - left. auto.
Qed.

Lemma shrink_seen (m : nat) (r : array4) (v : R) :
  golden r -> seen r v -> seen (shrink m r) v.
Proof.
  intros G Hv.
  pose proof (phi_mul_sign (at3 r - at0 r)) as Hs.
  destruct m as [|m]; simpl shrink.
  - rewrite (shrink_upper_eq r G).
    destruct G as [G1 G2]. unfold seen, between in *. unfold width.
    cbn [get4 at0 at1 at2 at3] in *.
    destruct Hv as [Hv | [Hv | Hv]].
    + right; left. lra.
    + right; right. intros [B | B]; lra.
    + right; right. intros [B | B]; apply Hv;
        destruct Hs as [[Hw Hb] | [[Hw Hb] | [Hw Hb]]]; lra.
  - rewrite (shrink_lower_eq r G).
    destruct G as [G1 G2]. unfold seen, between in *. unfold width.
    cbn [get4 at0 at1 at2 at3] in *.
    destruct Hv as [Hv | [Hv | Hv]].
    + right; right. intros [B | B]; lra.
    + left. lra.
    + right; right. intros [B | B]; apply Hv;
        destruct Hs as [[Hw Hb] | [[Hw Hb] | [Hw Hb]]]; lra.
Qed.

Lemma seen_interior (r : array4) (i : nat) :
  (i < 2)%nat -> seen r (get4 r (i + 1)).
Proof.
  intros Hi. destruct i as [|[|i]]; [ | | exfalso; lia ]; unfold seen; simpl; auto.
Qed.

Lemma shrink_new_ne_kept (m : nat) (r : array4) :
  (m < 2)%nat -> golden r -> width r <> 0 ->
  get4 (shrink m r) ((1 - m) + 1) <> get4 (shrink m r) (m + 1).
Proof.
  intros Hm G Hw. rewrite (shrink_kept m r Hm).
  apply shrink_fresh; auto. apply seen_interior; assumption.
Qed.

End Golden.

(** ** The fixed-radius circle search (the loop of [setFiberCenterCircleMethod]) *)

Module CircleSearch.
Import Golden.

(** [np.zeros((2, 2))], indexed [array_sum[j, i]]. *)
Record array22 : Type := Array22 { s00 : R; s01 : R; s10 : R; s11 : R }.

Definition zeros22 : array22 := Array22 0 0 0 0.

Definition get22 (a : array22) (j i : nat) : R :=
  match j, i with
  | 0%nat, 0%nat => s00 a
  | 0%nat, _ => s01 a
  | _, 0%nat => s10 a
  | _, _ => s11 a
  end.

Definition set22 (a : array22) (j i : nat) (v : R) : array22 :=
  match j, i with
  | 0%nat, 0%nat => Array22 v (s01 a) (s10 a) (s11 a)
  | 0%nat, _ => Array22 (s00 a) v (s10 a) (s11 a)
  | _, 0%nat => Array22 (s00 a) (s01 a) v (s11 a)
  | _, _ => Array22 (s00 a) (s01 a) (s10 a) v
  end.

Definition flat22 (a : array22) : list R := [s00 a; s01 a; s10 a; s11 a].

(** [np.amin(array_sum)] *)
Definition amin22 (a : array22) : R := np_min (flat22 a).

(** [np.unravel_index(k, (2, 2))] *)
Definition unravel22 (k : nat) : nat * nat := ((k / 2)%nat, (k mod 2)%nat).

(** [np.unravel_index(np.argmin(array_sum), (2, 2))] *)
Definition argmin22 (a : array22) : nat * nat := unravel22 (argmin (flat22 a)).

(** The pairs [(i, j)] in the order of
    [for i in xrange(2): for j in xrange(2)]. *)
Definition corners : list (nat * nat) :=
  [(0, 0); (0, 1); (1, 0); (1, 1)]%nat.

(** The local variables of the method, and [evals]: the positions [(x, y)] at
    which [removeCircle] / [getArraySum] have been called so far, the most
    recent first. *)
Record search : Type := Search {
  x : array4;
  y : array4;
  array_sum : array22;
  min_index : nat * nat;
  evals : list (R * R)
}.

Section Search.

(** [objective x y] is
    [getArraySum(removeCircle(self._filtered_image, x, y, radius, res))]. *)
Variable objective : R -> R -> R.
Variable tol : R.

(** [array_sum[j, i] = objective(x[i+1], y[j+1])] *)
Definition score (st : search) (i j : nat) : search :=
  let px := get4 (x st) (i + 1) in
  let py := get4 (y st) (j + 1) in
  Search (x st) (y st)
         (set22 (array_sum st) j i (objective px py))
         (min_index st)
         ((px, py) :: evals st).

Definition set_min_index (st : search) (m : nat * nat) : search :=
  Search (x st) (y st) (array_sum st) m (evals st).

(** From the brackets with their ends set to the first [min_index]. *)
Definition init (xr yr : array4) : search :=
  let st := Search (interior xr) (interior yr) zeros22 (0, 0)%nat [] in
  let st := fold_left (fun st '(i, j) => score st i j) corners st in
  set_min_index st (argmin22 (array_sum st)).

(** [abs(x[3] - x[0]) > tol and abs(y[3] - y[0]) > tol] *)
Definition continue (st : search) : bool :=
  Rgtb (Rabs (get4 (x st) 3 - get4 (x st) 0)) tol &&
  Rgtb (Rabs (get4 (y st) 3 - get4 (y st) 0)) tol.

(** [if i != min_index[1] or j != min_index[0]: array_sum[j, i] = ...] *)
Definition rescore (m : nat * nat) (st : search) (c : nat * nat) : search :=
  let '(i, j) := c in
  if negb (i =? snd m)%nat || negb (j =? fst m)%nat then score st i j else st.

(** The body of the [while] loop. *)
Definition step (st : search) : search :=
  let '(m0, m1) := min_index st in
  let y' := shrink m0 (y st) in
  let x' := shrink m1 (x st) in
  let sums := set22 (array_sum st) (1 - m0) (1 - m1) (get22 (array_sum st) m0 m1) in
  let m := ((1 - m0)%nat, (1 - m1)%nat) in
  let st := Search x' y' sums m (evals st) in
  let st := fold_left (rescore m) corners st in
  set_min_index st (argmin22 (array_sum st)).

(** The [while] loop, here on real numbers; [Binary64.Circle.loop] is the
    same loop on binary64 numbers. *)
Fixpoint loop (fuel : nat) (st : search) : result search :=
  if continue st then
    match fuel with
    | O => OutOfFuel
    | S fuel' => loop fuel' (step st)
    end
  else Ok st.

(** [k] runs of the loop body. *)
Fixpoint steps (k : nat) (st : search) : search :=
  match k with
  | O => st
  | S k' => steps k' (step st)
  end.

(** *** Shape of [min_index] *)

Lemma argmin22_cases (a : array22) :
  argmin22 a = (0, 0)%nat \/ argmin22 a = (0, 1)%nat \/
  argmin22 a = (1, 0)%nat \/ argmin22 a = (1, 1)%nat.
Proof.
  unfold argmin22, flat22; simpl.
  repeat match goal with
         | |- context [Rle_dec ?a ?b] => destruct (Rle_dec a b)
         end; cbn; auto.
Qed.

Definition index_ok (m : nat * nat) : Prop :=
  m = (0, 0)%nat \/ m = (0, 1)%nat \/ m = (1, 0)%nat \/ m = (1, 1)%nat.

Lemma step_index_ok (st : search) : index_ok (min_index (step st)).
Proof.
  unfold step. destruct (min_index st) as [m0 m1]. cbn [min_index set_min_index].
  apply argmin22_cases.
Qed.

Lemma init_index_ok (xr yr : array4) : index_ok (min_index (init xr yr)).
Proof. unfold init. cbn [min_index set_min_index]. apply argmin22_cases. Qed.

(** *** What one iteration does to the brackets *)

Lemma rescore_xy (m c : nat * nat) (st : search) :
  x (rescore m st c) = x st /\ y (rescore m st c) = y st.
Proof.
  unfold rescore. destruct c as [i j].
  destruct (negb (i =? snd m)%nat || negb (j =? fst m)%nat); split; reflexivity.
Qed.

Lemma fold_rescore_xy (m : nat * nat) (l : list (nat * nat)) (st : search) :
  x (fold_left (rescore m) l st) = x st /\ y (fold_left (rescore m) l st) = y st.
Proof.
  revert st. induction l as [|c l IH]; intros st; simpl; [split; reflexivity|].
  destruct (IH (rescore m st c)) as [Hx Hy].
  destruct (rescore_xy m c st) as [Hx' Hy'].
  split; congruence.
Qed.

Lemma step_x (st : search) : x (step st) = shrink (snd (min_index st)) (x st).
Proof.
  unfold step. destruct (min_index st) as [m0 m1]. cbn [x set_min_index].
  apply (fold_rescore_xy _ corners).
Qed.

Lemma step_y (st : search) : y (step st) = shrink (fst (min_index st)) (y st).
Proof.
  unfold step. destruct (min_index st) as [m0 m1]. cbn [y set_min_index].
  apply (fold_rescore_xy _ corners).
Qed.

Lemma init_x (xr yr : array4) : x (init xr yr) = interior xr.
Proof. reflexivity. Qed.

Lemma init_y (xr yr : array4) : y (init xr yr) = interior yr.
Proof. reflexivity. Qed.

Definition golden2 (st : search) : Prop := golden (x st) /\ golden (y st).

Lemma init_golden2 (xr yr : array4) : golden2 (init xr yr).
Proof. split; [rewrite init_x | rewrite init_y]; apply interior_golden. Qed.

Lemma step_golden2 (st : search) : golden2 st -> golden2 (step st).
Proof.
  intros [Gx Gy]. split; [rewrite step_x | rewrite step_y];
    apply shrink_golden; assumption.
Qed.

Lemma steps_golden2 (k : nat) (st : search) : golden2 st -> golden2 (steps k st).
Proof.
  revert st. induction k as [|k IH]; intros st G; simpl; auto using step_golden2.
Qed.

Lemma steps_width (k : nat) (st : search) :
  golden2 st ->
  width (x (steps k st)) = _phi ^ k * width (x st) /\
  width (y (steps k st)) = _phi ^ k * width (y st).
Proof.
  revert st. induction k as [|k IH]; intros st G; simpl.
  - split; ring.
  - destruct (IH (step st) (step_golden2 st G)) as [Hx Hy].
    rewrite Hx, Hy, step_x, step_y.
    destruct G as [Gx Gy].
    rewrite (shrink_width _ _ Gx), (shrink_width _ _ Gy). split; ring.
Qed.

Lemma continue_true (st : search) :
  continue st = true <->
  Rabs (width (x st)) > tol /\ Rabs (width (y st)) > tol.
Proof.
  unfold continue, width. rewrite andb_true_iff, !Rgtb_true. tauto.
Qed.

Lemma continue_false (st : search) :
  continue st = false <->
  Rabs (width (x st)) <= tol \/ Rabs (width (y st)) <= tol.
Proof.
  unfold continue, width. rewrite andb_false_iff, !Rgtb_false. tauto.
Qed.

(** *** The loop as a number of iterations *)

Lemma loop_steps (fuel : nat) (st st' : search) :
  loop fuel st = Ok st' ->
  exists k : nat,
    (k <= fuel)%nat /\ st' = steps k st /\ continue st' = false /\
    forall i : nat, (i < k)%nat -> continue (steps i st) = true.
Proof.
  revert st. induction fuel as [|fuel IH]; intros st; simpl.
  - destruct (continue st) eqn:C; [discriminate|].
    intros H; injection H as <-. exists 0%nat. repeat split; auto. lia.
  - destruct (continue st) eqn:C.
    + intros H. destruct (IH _ H) as (k & Hk & -> & Hc & Hall).
      exists (S k). repeat split; auto; [lia|].
      intros [|i] Hi; simpl; [assumption | apply Hall; lia].
    + intros H; injection H as <-. exists 0%nat. repeat split; auto; lia.
Qed.

Lemma steps_loop (k : nat) (st : search) :
  continue (steps k st) = false ->
  (forall i : nat, (i < k)%nat -> continue (steps i st) = true) ->
  forall fuel : nat, (k <= fuel)%nat -> loop fuel st = Ok (steps k st).
Proof.
  revert st. induction k as [|k IH]; intros st Hc Hall fuel Hf.
  - simpl in *. destruct fuel; simpl; rewrite Hc; reflexivity.
  - destruct fuel as [|fuel]; [lia|]. simpl.
    pose proof (Hall 0%nat ltac:(lia)) as C0. simpl in C0. rewrite C0.
    apply IH; [assumption | | lia].
    intros i Hi. apply (Hall (S i)). lia.
Qed.

(** *** Termination of the loop in exact arithmetic *)

Lemma first_exit (k : nat) (st : search) :
  continue (steps k st) = false ->
  exists k' : nat,
    (k' <= k)%nat /\ continue (steps k' st) = false /\
    forall i : nat, (i < k')%nat -> continue (steps i st) = true.
Proof.
  revert st. induction k as [|k IH]; intros st Hc.
  - exists 0%nat. repeat split; auto. intros i Hi; lia.
  - destruct (continue st) eqn:C.
    + destruct (IH (step st) Hc) as (k' & Hk & Hc' & Hall).
      exists (S k'). repeat split; auto; [lia|].
      intros [|i] Hi; simpl; [assumption | apply Hall; lia].
    + exists 0%nat. repeat split; auto; [lia|]. intros i Hi; lia.
Qed.

Lemma loop_terminates (st : search) :
  0 < tol -> golden2 st ->
  exists k : nat,
    (forall i : nat, (i < k)%nat -> continue (steps i st) = true) /\
    continue (steps k st) = false /\
    forall fuel : nat, (k <= fuel)%nat -> loop fuel st = Ok (steps k st).
Proof.
  intros Htol G.
  destruct (phi_pow_small (Rabs (width (x st))) tol Htol) as [k Hk].
  assert (Hc : continue (steps k st) = false).
  { apply continue_false. left.
    destruct (steps_width k st G) as [Hx _]. rewrite Hx, Rabs_mult.
    rewrite (Rabs_pos_eq (_phi ^ k)); [assumption|].
    apply pow_le. pose proof phi_pos; lra. }
  destruct (first_exit k st Hc) as (k' & _ & Hc' & Hall).
  exists k'. repeat split; auto.
  intros fuel Hf. apply steps_loop; assumption.
Qed.

(** *** The corner sums are those of the current corners *)

Definition scored (st : search) : Prop :=
  forall i j : nat, (i < 2)%nat -> (j < 2)%nat ->
    get22 (array_sum st) j i = objective (get4 (x st) (i + 1)) (get4 (y st) (j + 1)).

Ltac two_cases i Hi :=
  destruct i as [|[|i]]; [ | | exfalso; lia ].

Lemma init_scored (xr yr : array4) : scored (init xr yr).
Proof.
  intros i j Hi Hj. two_cases i Hi; two_cases j Hj; reflexivity.
Qed.

Lemma step_scored (st : search) :
  index_ok (min_index st) -> scored st -> scored (step st).
Proof.
  intros Hm Hs i j Hi Hj.
  pose proof (Hs 0%nat 0%nat ltac:(lia) ltac:(lia)) as H00.
  pose proof (Hs 0%nat 1%nat ltac:(lia) ltac:(lia)) as H01.
  pose proof (Hs 1%nat 0%nat ltac:(lia) ltac:(lia)) as H10.
  pose proof (Hs 1%nat 1%nat ltac:(lia) ltac:(lia)) as H11.
  unfold step.
  destruct Hm as [Hm | [Hm | [Hm | Hm]]]; rewrite Hm;
    two_cases i Hi; two_cases j Hj; cbn in *; congruence.
Qed.


(** *** In exact arithmetic every evaluation inside the loop is at a new
    position *)

Definition logged (st : search) : Prop :=
  forall p : R * R, In p (evals st) -> seen (x st) (fst p) /\ seen (y st) (snd p).

Lemma init_logged (xr yr : array4) : logged (init xr yr).
Proof.
  intros p Hp. unfold init in Hp. cbn in Hp.
  unfold seen; cbn.
  repeat destruct Hp as [<- | Hp]; try contradiction; cbn; auto.
Qed.

Lemma step_evals (st : search) :
  0 < tol -> index_ok (min_index st) -> golden2 st -> continue st = true ->
  logged st ->
  exists p1 p2 p3 : R * R,
    evals (step st) = [p3; p2; p1] ++ evals st /\
    NoDup [p3; p2; p1] /\
    (forall p : R * R, In p [p3; p2; p1] -> ~ In p (evals st)) /\
    logged (step st).
Proof.
  intros Htol Hm [Gx Gy] Hc HL.
  apply continue_true in Hc. destruct Hc as [Hwx Hwy].
  assert (Wx : width (x st) <> 0).
  { intros E. rewrite E, Rabs_R0 in Hwx. lra. }
  assert (Wy : width (y st) <> 0).
  { intros E. rewrite E, Rabs_R0 in Hwy. lra. }
  assert (M : (fst (min_index st) < 2)%nat /\ (snd (min_index st) < 2)%nat).
  { destruct Hm as [E | [E | [E | E]]]; rewrite E; simpl; lia. }
  destruct M as [M0 M1].
  pose proof (fun v => shrink_fresh _ (x st) v M1 Gx Wx) as Fx.
  pose proof (fun v => shrink_fresh _ (y st) v M0 Gy Wy) as Fy.
  pose proof (shrink_new_ne_kept _ (x st) M1 Gx Wx) as Kx.
  pose proof (shrink_new_ne_kept _ (y st) M0 Gy Wy) as Ky.
  pose proof (fun v => shrink_seen (snd (min_index st)) (x st) v Gx) as Sx.
  pose proof (fun v => shrink_seen (fst (min_index st)) (y st) v Gy) as Sy.
  pose proof (seen_interior (shrink (snd (min_index st)) (x st))) as Ix.
  pose proof (seen_interior (shrink (fst (min_index st)) (y st))) as Iy.
  pose proof (Ix 0%nat ltac:(lia)) as Ix0. pose proof (Ix 1%nat ltac:(lia)) as Ix1.
  pose proof (Iy 0%nat ltac:(lia)) as Iy0. pose proof (Iy 1%nat ltac:(lia)) as Iy1.
  clear Ix Iy.
  unfold logged in *. unfold step.
  destruct Hm as [E | [E | [E | E]]]; rewrite E in *;
    cbn -[shrink get4] in *;
    do 3 eexists; (split; [reflexivity|]);
    (split; [ repeat constructor; cbn [In]; intros H;
              repeat (destruct H as [H | H]; [exfalso; congruence | ]);
              try contradiction; auto
            | split;
              [ intros p Hp; repeat (destruct Hp as [<- | Hp]; [ intros HI; destruct (HL _ HI) as [HX HY]; cbn [fst snd] in *; first [ exact (Fx _ HX eq_refl) | exact (Fy _ HY eq_refl) ] | ]); contradiction
              | intros p Hp; repeat (destruct Hp as [<- | Hp]; [ cbn [fst snd]; split; assumption | ]);
                destruct (HL _ Hp); split; auto ] ]).
Qed.


(** *** The invariant of the loop *)

Definition inv (st : search) : Prop :=
  index_ok (min_index st) /\ golden2 st /\ logged st /\ scored st.

Lemma init_inv (xr yr : array4) : inv (init xr yr).
Proof.
  split; [apply init_index_ok|].
  split; [apply init_golden2|].
  split; [apply init_logged | apply init_scored].
Qed.

Lemma step_inv (st : search) :
  0 < tol -> inv st -> continue st = true -> inv (step st).
Proof.
  intros Htol (Hm & G & HL & Hs) Hc.
  destruct (step_evals st Htol Hm G Hc HL) as (p1 & p2 & p3 & _ & _ & _ & HL').
  split; [apply step_index_ok|].
  split; [apply step_golden2; assumption|].
  split; [assumption | apply step_scored; assumption].
Qed.

Lemma steps_S (k : nat) (st : search) : steps (S k) st = step (steps k st).
Proof.
  revert st. induction k as [|k IH]; intros st; [reflexivity|].
  change (steps (S (S k)) st) with (steps (S k) (step st)).
  rewrite IH. reflexivity.
Qed.

Lemma steps_inv (k : nat) (st : search) :
  0 < tol -> inv st ->
  (forall i : nat, (i < k)%nat -> continue (steps i st) = true) ->
  inv (steps k st).
Proof.
  intros Htol I. induction k as [|k IH]; intros Hall; [exact I|].
  rewrite steps_S. apply step_inv; auto.
Qed.


Lemma loop_exit (fuel : nat) (st : search) :
  continue st = false -> loop fuel st = Ok st.
Proof. intros C. destruct fuel; simpl; rewrite C; reflexivity. Qed.

End Search.

End CircleSearch.

(** ** The class [ImageAnalysis] *)

Module Estimator.
Import Golden.

(** The instance attributes.  [None] is [None]. *)
Record ImageAnalysis : Type := mkImageAnalysis {
  pixel_size : R;
  magnification : R;
  threshold : R;
  _image_array : image;
  _filtered_image : image;
  _image_height : nat;
  _image_width : nat;
  _left_edge : option Z;
  _right_edge : option Z;
  _top_edge : option Z;
  _bottom_edge : option Z;
  _fiber_diameter_edge : option Z;
  _center_y_edge : option R;
  _center_x_edge : option R;
  _fiber_diameter_circle : option R;
  _center_y_circle : option R;
  _center_x_circle : option R;
  _array_sum_circle : option R;
  _fiber_diameter_radius : option R;
  _center_y_radius : option R;
  _center_x_radius : option R;
  _array_sum_radius : option R;
  _fiber_diameter_gaussian : option R;
  _center_y_gaussian : option R;
  _center_x_gaussian : option R;
  _gaussian_fit : option image
}.

(** Assignments to groups of attributes. *)
Definition set_edges (s : ImageAnalysis) (l r t b d : Z) : ImageAnalysis :=
  mkImageAnalysis (pixel_size s) (magnification s) (threshold s)
    (_image_array s) (_filtered_image s) (_image_height s) (_image_width s)
    (Some l) (Some r) (Some t) (Some b) (Some d)
    (_center_y_edge s) (_center_x_edge s)
    (_fiber_diameter_circle s) (_center_y_circle s) (_center_x_circle s)
    (_array_sum_circle s)
    (_fiber_diameter_radius s) (_center_y_radius s) (_center_x_radius s)
    (_array_sum_radius s)
    (_fiber_diameter_gaussian s) (_center_y_gaussian s) (_center_x_gaussian s)
    (_gaussian_fit s).

Definition set_center_edge (s : ImageAnalysis) (cy cx : option R) : ImageAnalysis :=
  mkImageAnalysis (pixel_size s) (magnification s) (threshold s)
    (_image_array s) (_filtered_image s) (_image_height s) (_image_width s)
    (_left_edge s) (_right_edge s) (_top_edge s) (_bottom_edge s)
    (_fiber_diameter_edge s)
    cy cx
    (_fiber_diameter_circle s) (_center_y_circle s) (_center_x_circle s)
    (_array_sum_circle s)
    (_fiber_diameter_radius s) (_center_y_radius s) (_center_x_radius s)
    (_array_sum_radius s)
    (_fiber_diameter_gaussian s) (_center_y_gaussian s) (_center_x_gaussian s)
    (_gaussian_fit s).

Definition set_circle (s : ImageAnalysis) (cx cy d a : option R) : ImageAnalysis :=
  mkImageAnalysis (pixel_size s) (magnification s) (threshold s)
    (_image_array s) (_filtered_image s) (_image_height s) (_image_width s)
    (_left_edge s) (_right_edge s) (_top_edge s) (_bottom_edge s)
    (_fiber_diameter_edge s) (_center_y_edge s) (_center_x_edge s)
    d cy cx a
    (_fiber_diameter_radius s) (_center_y_radius s) (_center_x_radius s)
    (_array_sum_radius s)
    (_fiber_diameter_gaussian s) (_center_y_gaussian s) (_center_x_gaussian s)
    (_gaussian_fit s).

Definition set_radius (s : ImageAnalysis) (d cy cx a : option R) : ImageAnalysis :=
  mkImageAnalysis (pixel_size s) (magnification s) (threshold s)
    (_image_array s) (_filtered_image s) (_image_height s) (_image_width s)
    (_left_edge s) (_right_edge s) (_top_edge s) (_bottom_edge s)
    (_fiber_diameter_edge s) (_center_y_edge s) (_center_x_edge s)
    (_fiber_diameter_circle s) (_center_y_circle s) (_center_x_circle s)
    (_array_sum_circle s)
    d cy cx a
    (_fiber_diameter_gaussian s) (_center_y_gaussian s) (_center_x_gaussian s)
    (_gaussian_fit s).

Definition set_gaussian (s : ImageAnalysis) (fit : option image)
    (cx cy d : option R) : ImageAnalysis :=
  mkImageAnalysis (pixel_size s) (magnification s) (threshold s)
    (_image_array s) (_filtered_image s) (_image_height s) (_image_width s)
    (_left_edge s) (_right_edge s) (_top_edge s) (_bottom_edge s)
    (_fiber_diameter_edge s) (_center_y_edge s) (_center_x_edge s)
    (_fiber_diameter_circle s) (_center_y_circle s) (_center_x_circle s)
    (_array_sum_circle s)
    (_fiber_diameter_radius s) (_center_y_radius s) (_center_x_radius s)
    (_array_sum_radius s)
    d cy cx fit.

(** *** Methods are state transformers that may raise *)

Definition M (A : Type) : Type := ImageAnalysis -> result (A * ImageAnalysis).

Definition ret {A : Type} (a : A) : M A := fun s => Ok (a, s).

Definition bind {A B : Type} (c : M A) (k : A -> M B) : M B :=
  fun s =>
    match c s with
    | Ok (a, s') => k a s'
    | Raise e => Raise e
    | OutOfFuel => OutOfFuel
    end.

Definition raise {A : Type} (e : string) : M A := fun _ => Raise e.

Definition get : M ImageAnalysis := fun s => Ok (s, s).

Definition put (s : ImageAnalysis) : M unit := fun _ => Ok (tt, s).

Notation "x <- c ;; k" := (bind c (fun x => k))
  (at level 61, c at next level, right associativity).
Notation "' p <- c ;; k" := (bind c (fun p => k))
  (at level 61, p pattern, c at next level, right associativity).
Notation "c ;;; k" := (bind c (fun _ => k))
  (at level 61, right associativity).

(** Arithmetic on [None] raises [TypeError]. *)
Definition need {A : Type} (v : option A) : M A :=
  match v with
  | Some a => ret a
  | None => raise "TypeError"
  end.

Definition is_some {A : Type} (v : option A) : bool :=
  match v with Some _ => true | None => false end.

(** [needle in hay] on strings. *)
Fixpoint contains (needle hay : string) : bool :=
  prefix needle hay ||
  match hay with
  | EmptyString => false
  | String _ hay' => contains needle hay'
  end.

(** [int(v)]: truncation towards zero. *)
Definition py_int (v : R) : Z :=
  if Rle_dec 0 v then Int_part v else (- Int_part (- v))%Z.

(** *** The edge method *)

(** [image[:, index]] and [image[index, :]] *)
Definition column (img : image) (index : nat) : list R :=
  map (fun row => nth index row 0) img.
Definition row (img : image) (index : nat) : list R := nth index img [].

(** One [for index in xrange(n)] scan with its two results, [lit index]
    standing for [line.max() > self.threshold]. *)
Definition scan_step (lit : nat -> bool) (acc : Z * Z) (index : nat) : Z * Z :=
  let '(first, last) := acc in
  if (first <? 0)%Z then
    if lit index then (Z.of_nat index, last) else (first, last)
  else
    if lit index then (first, Z.of_nat index) else (first, last).

Definition scan (lit : nat -> bool) (n : nat) : Z * Z :=
  fold_left (scan_step lit) (seq 0 n) ((-1)%Z, (-1)%Z).

Definition column_lit (s : ImageAnalysis) (index : nat) : bool :=
  Rgtb (np_max (column (_filtered_image s) index)) (threshold s).
Definition row_lit (s : ImageAnalysis) (index : nat) : bool :=
  Rgtb (np_max (row (_filtered_image s) index)) (threshold s).

Definition setFiberEdges : M unit :=
  s <- get;;
  let '(left_, right_) := scan (column_lit s) (_image_width s) in
  let '(top, bottom) := scan (row_lit s) (_image_height s) in
  put (set_edges s left_ right_ top bottom
                 (Z.max (right_ - left_) (bottom - top))).

Definition setFiberCenterEdgeMethod : M unit :=
  setFiberEdges;;;
  s <- get;;
  top <- need (_top_edge s);;
  bottom <- need (_bottom_edge s);;
  left_ <- need (_left_edge s);;
  right_ <- need (_right_edge s);;
  put (set_center_edge s (Some ((IZR top + IZR bottom) / 2))
                         (Some ((IZR left_ + IZR right_) / 2))).

Definition getFiberCenterEdgeMethod (show_image : bool) : M (option R * option R) :=
  s <- get;;
  (if is_some (_center_y_edge s) then ret tt else setFiberCenterEdgeMethod);;;
  s <- get;;
  ret (_center_y_edge s, _center_x_edge s).




(** *** A fresh object

    The attributes as [__init__] leaves them before it calls
    [setFiberCenterEdgeMethod]: the image, its filtered copy, the calibration
    values, and every cached result [None]. *)
Definition blank (image_array filtered : image) (pixel_size magnification threshold : R)
  : ImageAnalysis :=
  mkImageAnalysis pixel_size magnification threshold image_array filtered
    (List.length image_array) (List.length (hd [] image_array))
    None None None None None None None
    None None None None
    None None None None
    None None None None.

(** [ImageAnalysis(...)]: the constructor ends with the edge method. *)
Definition new_ImageAnalysis (image_array filtered : image)
    (pixel_size magnification threshold : R) : result ImageAnalysis :=
  match setFiberCenterEdgeMethod
          (blank image_array filtered pixel_size magnification threshold) with
  | Ok (_, s) => Ok s
  | Raise e => Raise e
  | OutOfFuel => OutOfFuel
  end.

(** *** Facts about the monad and the edge method *)

Lemma bind_Ok {A B : Type} (c : M A) (k : A -> M B) (s s'' : ImageAnalysis) (b : B) :
  bind c k s = Ok (b, s'') ->
  exists (a : A) (s' : ImageAnalysis), c s = Ok (a, s') /\ k a s' = Ok (b, s'').
Proof.
  unfold bind. destruct (c s) as [[a s'] | e | ]; try discriminate.
  intros H. exists a, s'. auto.
Qed.

Lemma bind_run {A B : Type} (c : M A) (k : A -> M B) (s s' : ImageAnalysis) (a : A) :
  c s = Ok (a, s') -> bind c k s = k a s'.
Proof. unfold bind. intros ->. reflexivity. Qed.

Lemma bind_raise {A B : Type} (c : M A) (k : A -> M B) (s : ImageAnalysis) (e : string) :
  c s = Raise e -> bind c k s = Raise e.
Proof. unfold bind. intros ->. reflexivity. Qed.

(** The attributes after [setFiberCenterEdgeMethod]. *)
Definition edge_result (s : ImageAnalysis) : ImageAnalysis :=
  let cols := scan (column_lit s) (_image_width s) in
  let rows := scan (row_lit s) (_image_height s) in
  let s1 := set_edges s (fst cols) (snd cols) (fst rows) (snd rows)
              (Z.max (snd cols - fst cols) (snd rows - fst rows)) in
  set_center_edge s1 (Some ((IZR (fst rows) + IZR (snd rows)) / 2))
                     (Some ((IZR (fst cols) + IZR (snd cols)) / 2)).

Lemma setFiberCenterEdgeMethod_run (s : ImageAnalysis) :
  setFiberCenterEdgeMethod s = Ok (tt, edge_result s).
Proof.
  unfold setFiberCenterEdgeMethod, setFiberEdges, edge_result, bind, get, put.
  destruct (scan (column_lit s) (_image_width s)) as [l r'].
  destruct (scan (row_lit s) (_image_height s)) as [t b].
  reflexivity.
Qed.


(** A scan that meets no lit line leaves both results at [-1]. *)
Lemma scan_from_dark (lit : nat -> bool) (n a : nat) (acc : Z * Z) :
  (forall i : nat, (a <= i < a + n)%nat -> lit i = false) ->
  fold_left (scan_step lit) (seq a n) acc = acc.
Proof.
  revert a acc. induction n as [|n IH]; intros a acc Hd; [reflexivity|].
  simpl. assert (E : scan_step lit acc a = acc).
  { unfold scan_step. destruct acc as [f l].
    rewrite (Hd a ltac:(lia)). destruct (f <? 0)%Z; reflexivity. }
  rewrite E. apply IH. intros i Hi. apply Hd. lia.
Qed.

Lemma scan_dark (lit : nat -> bool) (n : nat) :
  (forall i : nat, (i < n)%nat -> lit i = false) ->
  scan lit n = ((-1)%Z, (-1)%Z).
Proof.
  intros Hd. unfold scan. apply scan_from_dark. intros i Hi. apply Hd. lia.
Qed.

(** The state and the pair [getFiberCenterEdgeMethod] leaves and returns. *)
Definition edge_state (s : ImageAnalysis) : ImageAnalysis :=
  if is_some (_center_y_edge s) then s else edge_result s.

Definition edge_center (s : ImageAnalysis) : option R * option R :=
  (_center_y_edge (edge_state s), _center_x_edge (edge_state s)).

Lemma getFiberCenterEdgeMethod_run (show_image : bool) (s : ImageAnalysis) :
  getFiberCenterEdgeMethod show_image s = Ok (edge_center s, edge_state s).
Proof.
  unfold getFiberCenterEdgeMethod, edge_center, edge_state, bind, get.
  destruct (is_some (_center_y_edge s)); [reflexivity|].
  rewrite setFiberCenterEdgeMethod_run. reflexivity.
Qed.

Lemma edge_state_idem (s : ImageAnalysis) : edge_state (edge_state s) = edge_state s.
Proof.
  unfold edge_state.
  destruct (is_some (_center_y_edge s)) eqn:E; [rewrite E; reflexivity|].
  reflexivity.
Qed.

(** What the circle and radius methods read from the object: two states with
    the same [frame] give the same searches. *)
Definition frame (s : ImageAnalysis) : image * nat * nat * R * (option R * option R) :=
  (_filtered_image s, _image_width s, _image_height s, threshold s, edge_center s).

Lemma edge_state_static (s : ImageAnalysis) :
  _filtered_image (edge_state s) = _filtered_image s /\
  _image_width (edge_state s) = _image_width s /\
  _image_height (edge_state s) = _image_height s /\
  threshold (edge_state s) = threshold s.
Proof.
  unfold edge_state. destruct (is_some (_center_y_edge s)); repeat split; reflexivity.
Qed.

Lemma frame_edge_state (s : ImageAnalysis) : frame (edge_state s) = frame s.
Proof.
  unfold frame, edge_center. rewrite edge_state_idem.
  destruct (edge_state_static s) as (-> & -> & -> & ->). reflexivity.
Qed.

Lemma frame_set_circle (s : ImageAnalysis) (cx cy d a : option R) :
  frame (set_circle s cx cy d a) = frame s.
Proof.
  unfold frame, edge_center, edge_state; cbn.
  destruct (is_some (_center_y_edge s)); reflexivity.
Qed.

Lemma frame_set_radius (s : ImageAnalysis) (d cy cx a : option R) :
  frame (set_radius s d cy cx a) = frame s.
Proof.
  unfold frame, edge_center, edge_state; cbn.
  destruct (is_some (_center_y_edge s)); reflexivity.
Qed.

(** *** The methods that need [NumpyArrayHandler] *)

Section Handler.

(** [self.removeCircle(image, x0, y0, radius, res)], [self.getArraySum(image)]
    and the inherited [getGaussianFit(image, initial_guess, full_output=True)],
    which returns the fitted surface and the optimal parameters. *)
Variable removeCircle : image -> R -> R -> R -> Z -> image.
Variable getArraySum : image -> R.
Variable super_getGaussianFit : image -> R * R * R * R * R -> image * list R.

(** Iterations granted to each [while] loop. *)
Variable fuel : nat.

(** [x = np.zeros(4); x[0] = lo; x[3] = hi] *)
Definition ends (lo hi : R) : array4 := set4 (set4 zeros4 0 lo) 3 hi.

(** [self.getFiberCenter(method='edge', show_image=False)]: with this method
    string and the default units the dispatch of [getFiberCenter] reaches
    [getFiberCenterEdgeMethod] and returns its pair unchanged (lemma
    [getFiberCenter_edge] below). *)
Definition getFiberCenter_method_edge : M (option R * option R) :=
  getFiberCenterEdgeMethod false.

(** The bracket of [setFiberCenterCircleMethod] along one axis when
    [test_range] is given: [test_range] is already halved. *)
Definition clipped_bracket (approx test_range radius size : R) : array4 :=
  let x := set4 zeros4 0 (approx - test_range) in
  let x := if Rltb (get4 x 0) radius then set4 x 0 radius else x in
  let x := set4 x 3 (approx + test_range) in
  if Rgtb (get4 x 3) (size - radius) then set4 x 3 (size - radius) else x.

Definition circle_objective (s : ImageAnalysis) (radius : R) (res : Z) (px py : R) : R :=
  getArraySum (removeCircle (_filtered_image s) px py radius res).

(** Lines 531-554: the ends of the two brackets. *)
Definition circle_brackets (radius : R) (test_range : option R)
  : M (array4 * array4) :=
  s <- get;;
  match test_range with
  | Some test_range =>
      approx_center <- getFiberCenter_method_edge;;
      let test_range := test_range / 2 in
      cx <- need (snd approx_center);;
      cy <- need (fst approx_center);;
      ret (clipped_bracket cx test_range radius (INR (_image_width s)),
           clipped_bracket cy test_range radius (INR (_image_height s)))
  | None =>
      ret (ends radius (INR (_image_width s) - radius),
           ends radius (INR (_image_height s) - radius))
  end.

Definition setFiberCenterCircleMethod (radius tol : R) (test_range : option R) : M unit :=
  if Req_dec_T tol 0 then raise "ZeroDivisionError" else
  let res := py_int (1 / tol) in
  ' (xr, yr) <- circle_brackets radius test_range;;
  s <- get;;
  let objective := circle_objective s radius res in
  match CircleSearch.loop objective tol fuel (CircleSearch.init objective xr yr) with
  | Ok st =>
      let m := CircleSearch.min_index st in
      put (set_circle s
             (Some (get4 (CircleSearch.x st) (snd m + 1)))
             (Some (get4 (CircleSearch.y st) (fst m + 1)))
             (Some (radius * 2))
             (Some (CircleSearch.amin22 (CircleSearch.array_sum st))))
  | Raise e => raise e
  | OutOfFuel => fun _ => OutOfFuel
  end.

(** *** The radius method: the search once the bracket is set *)

(** [np.zeros(2)] *)
Record array2 : Type := Array2 { u0 : R; u1 : R }.

Definition get2 (a : array2) (i : nat) : R :=
  match i with 0%nat => u0 a | _ => u1 a end.

Definition set2 (a : array2) (i : nat) (v : R) : array2 :=
  match i with 0%nat => Array2 v (u1 a) | _ => Array2 (u0 a) v end.

Definition flat2 (a : array2) : list R := [u0 a; u1 a].

Record rsearch : Type := RSearch {
  r : array4;
  array_sum : array2;
  min_index : nat
}.

(** [self.setFiberCenterCircleMethod(rad, tol, test_range)] followed by
    [self._array_sum_circle + self.threshold * np.pi * rad**2]. *)
Definition radius_score (tol : R) (test_range : option R) (rad : R) : M R :=
  setFiberCenterCircleMethod rad tol test_range;;;
  s <- get;;
  c <- need (_array_sum_circle s);;
  ret (c + threshold s * PI * rad ^ 2).

(** Lines 480-485. *)
Definition radius_init (tol : R) (test_range : option R) (r : array4) : M rsearch :=
  let array_sum := Array2 0 0 in
  v <- radius_score tol test_range (get4 r (0 + 1));;
  let array_sum := set2 array_sum 0 v in
  v <- radius_score tol test_range (get4 r (1 + 1));;
  let array_sum := set2 array_sum 1 v in
  ret (RSearch r array_sum (argmin (flat2 array_sum))).

(** [abs(r[3] - r[0]) > tol] *)
Definition radius_continue (tol : R) (st : rsearch) : bool :=
  Rgtb (Rabs (get4 (r st) 3 - get4 (r st) 0)) tol.

(** The body of the [while] loop, lines 488-503. *)
Definition radius_step (tol : R) (test_range : option R) (st : rsearch) : M rsearch :=
  let min_index := min_index st in
  let r := shrink min_index (r st) in
  let array_sum :=
    set2 (array_sum st) (1 - min_index) (get2 (array_sum st) min_index) in
  v <- radius_score tol test_range (get4 r (min_index + 1));;
  let array_sum := set2 array_sum min_index v in
  ret (RSearch r array_sum (argmin (flat2 array_sum))).

(** The [while] loop, here on real numbers; [Binary64.Radius.radius_loop] is
    the same loop on binary64 numbers. *)
Fixpoint radius_loop (n : nat) (tol : R) (test_range : option R) (st : rsearch)
  : M rsearch :=
  if radius_continue tol st then
    match n with
    | O => fun _ => OutOfFuel
    | S n' => st' <- radius_step tol test_range st;; radius_loop n' tol test_range st'
    end
  else ret st.

(** Lines 477-508: from the bracket ends to the attributes. *)
Definition radius_search (tol : R) (test_range : option R) (r_ends : array4)
  : M unit :=
  st <- radius_init tol test_range (interior r_ends);;
  st <- radius_loop fuel tol test_range st;;
  s <- get;;
  put (set_radius s
         (Some (get4 (r st) (min_index st + 1) * 2))
         (_center_y_circle s)
         (_center_x_circle s)
         (Some (np_min (flat2 (array_sum st))))).



(** *** The circle method as a function of the frame *)

Definition frame_t : Type := image * nat * nat * R * (option R * option R).

Definition frame_image (f : frame_t) : image := fst (fst (fst (fst f))).
Definition frame_width (f : frame_t) : nat := snd (fst (fst (fst f))).
Definition frame_height (f : frame_t) : nat := snd (fst (fst f)).
Definition frame_threshold (f : frame_t) : R := snd (fst f).
Definition frame_center (f : frame_t) : option R * option R := snd f.

Definition brackets_of (f : frame_t) (radius : R) (test_range : option R)
  : result (array4 * array4) :=
  match test_range with
  | Some test_range =>
      match snd (frame_center f), fst (frame_center f) with
      | Some cx, Some cy =>
          Ok (clipped_bracket cx (test_range / 2) radius (INR (frame_width f)),
              clipped_bracket cy (test_range / 2) radius (INR (frame_height f)))
      | _, _ => Raise "TypeError"
      end
  | None =>
      Ok (ends radius (INR (frame_width f) - radius),
          ends radius (INR (frame_height f) - radius))
  end.

Definition frame_objective (f : frame_t) (radius tol : R) (px py : R) : R :=
  getArraySum (removeCircle (frame_image f) px py radius (py_int (1 / tol))).

(** The final local variables of [setFiberCenterCircleMethod]. *)
Definition circle_outcome (f : frame_t) (radius tol : R) (test_range : option R)
  : result CircleSearch.search :=
  if Req_dec_T tol 0 then Raise "ZeroDivisionError" else
  match brackets_of f radius test_range with
  | Ok (xr, yr) =>
      let objective := frame_objective f radius tol in
      CircleSearch.loop objective tol fuel (CircleSearch.init objective xr yr)
  | Raise e => Raise e
  | OutOfFuel => OutOfFuel
  end.

Definition state_after_brackets (s : ImageAnalysis) (test_range : option R)
  : ImageAnalysis :=
  match test_range with
  | Some _ => edge_state s
  | None => s
  end.

Definition store_circle (s : ImageAnalysis) (radius : R) (st : CircleSearch.search)
  : ImageAnalysis :=
  let m := CircleSearch.min_index st in
  set_circle s
    (Some (get4 (CircleSearch.x st) (snd m + 1)))
    (Some (get4 (CircleSearch.y st) (fst m + 1)))
    (Some (radius * 2))
    (Some (CircleSearch.amin22 (CircleSearch.array_sum st))).

Lemma circle_brackets_run (radius : R) (test_range : option R) (s : ImageAnalysis) :
  circle_brackets radius test_range s =
  match brackets_of (frame s) radius test_range with
  | Ok b => Ok (b, state_after_brackets s test_range)
  | Raise e => Raise e
  | OutOfFuel => OutOfFuel
  end.
Proof.
  unfold circle_brackets, brackets_of, state_after_brackets, bind, get.
  destruct test_range as [t|]; [|reflexivity].
  unfold getFiberCenter_method_edge. rewrite getFiberCenterEdgeMethod_run.
  unfold frame, frame_center, frame_width, frame_height; cbn [fst snd].
  destruct (edge_center s) as [[cy|] [cx|]]; reflexivity.
Qed.

Lemma frame_state_after_brackets (s : ImageAnalysis) (test_range : option R) :
  frame (state_after_brackets s test_range) = frame s.
Proof. destruct test_range; [apply frame_edge_state | reflexivity]. Qed.

Lemma setFiberCenterCircleMethod_run (radius tol : R) (test_range : option R)
    (s : ImageAnalysis) :
  setFiberCenterCircleMethod radius tol test_range s =
  match circle_outcome (frame s) radius tol test_range with
  | Ok st => Ok (tt, store_circle (state_after_brackets s test_range) radius st)
  | Raise e => Raise e
  | OutOfFuel => OutOfFuel
  end.
Proof.
  unfold setFiberCenterCircleMethod, circle_outcome.
  destruct (Req_dec_T tol 0); [reflexivity|].
  unfold bind at 1. rewrite circle_brackets_run.
  destruct (brackets_of (frame s) radius test_range) as [[xr yr] | e | ]; try reflexivity.
  unfold bind, get.
  assert (E : circle_objective (state_after_brackets s test_range) radius (py_int (1 / tol))
              = frame_objective (frame s) radius tol).
  { unfold circle_objective, frame_objective, frame_image.
    rewrite <- (frame_state_after_brackets s test_range). reflexivity. }
  rewrite E.
  destruct (CircleSearch.loop _ tol fuel _); reflexivity.
Qed.

Lemma frame_store_circle (s : ImageAnalysis) (radius : R) (st : CircleSearch.search) :
  frame (store_circle s radius st) = frame s.
Proof. apply frame_set_circle. Qed.

(** The score of a radius, from the frame alone. *)
Definition frame_score (f : frame_t) (tol : R) (test_range : option R) (rad : R)
  : result R :=
  match circle_outcome f rad tol test_range with
  | Ok st =>
      Ok (CircleSearch.amin22 (CircleSearch.array_sum st)
          + frame_threshold f * PI * rad ^ 2)
  | Raise e => Raise e
  | OutOfFuel => OutOfFuel
  end.

Lemma radius_score_run (tol : R) (test_range : option R) (rad : R) (s : ImageAnalysis) :
  radius_score tol test_range rad s =
  match circle_outcome (frame s) rad tol test_range with
  | Ok st =>
      Ok (CircleSearch.amin22 (CircleSearch.array_sum st) + threshold s * PI * rad ^ 2,
          store_circle (state_after_brackets s test_range) rad st)
  | Raise e => Raise e
  | OutOfFuel => OutOfFuel
  end.
Proof.
  unfold radius_score, bind at 1. rewrite setFiberCenterCircleMethod_run.
  destruct (circle_outcome (frame s) rad tol test_range) as [st | e | ]; try reflexivity.
  unfold bind, get, need, ret, store_circle.
  cbn [_array_sum_circle set_circle threshold].
  replace (threshold (state_after_brackets s test_range)) with (threshold s);
    [reflexivity|].
  destruct test_range; [|reflexivity].
  symmetry. apply (edge_state_static s).
Qed.

Lemma radius_score_Ok (tol : R) (test_range : option R) (rad v : R)
    (s s' : ImageAnalysis) :
  radius_score tol test_range rad s = Ok (v, s') ->
  frame_score (frame s) tol test_range rad = Ok v /\ frame s' = frame s.
Proof.
  rewrite radius_score_run. unfold frame_score.
  destruct (circle_outcome (frame s) rad tol test_range) as [st | e | ]; try discriminate.
  intros H; injection H as <- <-. split; [reflexivity|].
  rewrite frame_store_circle. apply frame_state_after_brackets.
Qed.


(** *** The scores of the radius search *)

(** [k] runs of the loop body. *)
Fixpoint radius_steps (k : nat) (tol : R) (test_range : option R) (st : rsearch)
  : M rsearch :=
  match k with
  | O => ret st
  | S k' => st' <- radius_step tol test_range st;; radius_steps k' tol test_range st'
  end.

(** [v] is the value of the objective at [rad] for the object in state [s]:
    what [setFiberCenterCircleMethod(rad, tol, test_range)] leaves in
    [_array_sum_circle], plus [threshold * pi * rad**2]. *)
Definition radius_objective (tol : R) (test_range : option R) (s : ImageAnalysis)
    (rad v : R) : Prop :=
  exists (s' : ImageAnalysis) (c : R),
    setFiberCenterCircleMethod rad tol test_range s = Ok (tt, s') /\
    _array_sum_circle s' = Some c /\
    v = c + threshold s * PI * rad ^ 2.

Lemma radius_objective_frame (tol : R) (test_range : option R) (s : ImageAnalysis)
    (rad v : R) :
  radius_objective tol test_range s rad v <->
  frame_score (frame s) tol test_range rad = Ok v.
Proof.
  unfold radius_objective, frame_score. rewrite setFiberCenterCircleMethod_run.
  destruct (circle_outcome (frame s) rad tol test_range) as [st | e | ]; split.
  - intros (s' & c & H & Hc & ->). injection H as <-.
    unfold store_circle in Hc. cbn [_array_sum_circle set_circle] in Hc.
    injection Hc as <-. reflexivity.
  - intros H. injection H as <-. do 2 eexists. split; [reflexivity|].
    split; reflexivity.
  - intros (s' & c & H & _); discriminate.
  - discriminate.
  - intros (s' & c & H & _); discriminate.
  - discriminate.
Qed.

Definition frame_scored (f : frame_t) (tol : R) (test_range : option R)
    (st : rsearch) : Prop :=
  forall i : nat, (i < 2)%nat ->
    frame_score f tol test_range (get4 (r st) (i + 1)) = Ok (get2 (array_sum st) i).

Lemma argmin_flat2 (a : array2) :
  (argmin (flat2 a) < 2)%nat /\
  get2 a (argmin (flat2 a)) <= get2 a (1 - argmin (flat2 a)).
Proof.
  unfold flat2; simpl. destruct (Rle_dec (u0 a) (u1 a)); simpl; split; try lia; lra.
Qed.

Lemma radius_init_scored (tol : R) (test_range : option R) (r0 : array4)
    (s0 s : ImageAnalysis) (st : rsearch) :
  radius_init tol test_range r0 s0 = Ok (st, s) ->
  r st = r0 /\ frame s = frame s0 /\
  frame_scored (frame s0) tol test_range st /\
  min_index st = argmin (flat2 (array_sum st)).
Proof.
  unfold radius_init. intros H.
  apply bind_Ok in H. destruct H as (v1 & s1 & H1 & H).
  apply bind_Ok in H. destruct H as (v2 & s2 & H2 & H).
  injection H as <- <-.
  apply radius_score_Ok in H1. destruct H1 as [H1 F1].
  apply radius_score_Ok in H2. destruct H2 as [H2 F2].
  rewrite F1 in *. repeat split; auto.
  intros i Hi. destruct i as [|[|i]]; [ | | exfalso; lia ]; simpl; assumption.
Qed.

Lemma radius_step_scored (tol : R) (test_range : option R)
    (s s' : ImageAnalysis) (st st' : rsearch) :
  (min_index st < 2)%nat ->
  frame_scored (frame s) tol test_range st ->
  radius_step tol test_range st s = Ok (st', s') ->
  r st' = shrink (min_index st) (r st) /\ frame s' = frame s /\
  frame_scored (frame s) tol test_range st' /\
  min_index st' = argmin (flat2 (array_sum st')).
Proof.
  unfold radius_step. intros Hm Hs H.
  apply bind_Ok in H. destruct H as (v & s1 & H1 & H).
  injection H as <- <-.
  apply radius_score_Ok in H1. destruct H1 as [H1 F1].
  repeat split; auto.
  intros i Hi. cbn [r array_sum].
  pose proof (Hs 0%nat ltac:(lia)) as S0. pose proof (Hs 1%nat ltac:(lia)) as S1.
  destruct (min_index st) as [|[|m]]; [ | | exfalso; lia ];
    destruct i as [|[|i]]; try (exfalso; lia);
    destruct (r st) as [a b c d]; cbn in *; assumption.
Qed.

Lemma radius_steps_scored (k : nat) (tol : R) (test_range : option R)
    (s s' : ImageAnalysis) (st st' : rsearch) :
  min_index st = argmin (flat2 (array_sum st)) ->
  frame_scored (frame s) tol test_range st ->
  radius_steps k tol test_range st s = Ok (st', s') ->
  frame s' = frame s /\
  min_index st' = argmin (flat2 (array_sum st')) /\
  frame_scored (frame s) tol test_range st'.
Proof.
  revert s st. induction k as [|k IH]; intros s st Hm Hs H; simpl in H.
  - injection H as <- <-. auto.
  - apply bind_Ok in H. destruct H as (st1 & s1 & H1 & H).
    assert (Hlt : (min_index st < 2)%nat) by (rewrite Hm; apply argmin_flat2).
    destruct (radius_step_scored _ _ _ _ _ _ Hlt Hs H1) as (_ & F1 & Hs1 & Hm1).
    rewrite <- F1 in Hs1.
    destruct (IH s1 st1) as (F & Hm' & Hs'); auto.
    rewrite F1 in *. auto.
Qed.

(** The loop is some number of runs of its body, after which the test fails. *)
Lemma radius_loop_steps (n : nat) (tol : R) (test_range : option R)
    (s s' : ImageAnalysis) (st st' : rsearch) :
  radius_loop n tol test_range st s = Ok (st', s') ->
  exists k : nat,
    radius_steps k tol test_range st s = Ok (st', s') /\
    radius_continue tol st' = false.
Proof.
  revert s st. induction n as [|n IH]; intros s st; simpl;
    destruct (radius_continue tol st) eqn:C.
  - discriminate.
  - intros H; injection H as <- <-. exists 0%nat. auto.
  - intros H. apply bind_Ok in H. destruct H as (st1 & s1 & H1 & H).
    destruct (IH _ _ H) as (k & Hk & Hc).
    exists (S k). split; [|assumption].
    simpl. rewrite (bind_run _ _ _ _ _ H1). assumption.
  - intros H; injection H as <- <-. exists 0%nat. auto.
Qed.

Lemma np_min_flat2 (a : array2) :
  np_min (flat2 a) = get2 a (argmin (flat2 a)).
Proof.
  unfold flat2; simpl. unfold Rmin.
  destruct (Rle_dec (u0 a) (u1 a)); reflexivity.
Qed.

(** What [radius_search] stores. *)
Lemma radius_search_Ok (tol : R) (test_range : option R) (r_ends : array4)
    (s0 s' : ImageAnalysis) :
  radius_search tol test_range r_ends s0 = Ok (tt, s') ->
  exists (k : nat) (st : rsearch) (s : ImageAnalysis),
    bind (radius_init tol test_range (interior r_ends))
         (radius_steps k tol test_range) s0 = Ok (st, s) /\
    radius_continue tol st = false /\
    s' = set_radius s (Some (get4 (r st) (min_index st + 1) * 2))
           (_center_y_circle s) (_center_x_circle s)
           (Some (np_min (flat2 (array_sum st)))).
Proof.
  unfold radius_search. intros H.
  apply bind_Ok in H. destruct H as (st0 & s1 & H0 & H).
  apply bind_Ok in H. destruct H as (st & s & HL & H).
  unfold bind, get, put in H. injection H as <-.
  destruct (radius_loop_steps _ _ _ _ _ _ _ HL) as (k & Hk & Hc).
  exists k, st, s. repeat split; auto.
  rewrite (bind_run _ _ _ _ _ H0). assumption.
Qed.

Lemma radius_step_r (tol : R) (test_range : option R)
    (s s' : ImageAnalysis) (st st' : rsearch) :
  radius_step tol test_range st s = Ok (st', s') ->
  r st' = shrink (min_index st) (r st).
Proof.
  unfold radius_step. intros H.
  apply bind_Ok in H. destruct H as (v & s1 & _ & H).
  injection H as <- <-. reflexivity.
Qed.



(** *** Searches that stop at once

    When [tol] is at least the width of a bracket the loop body never runs. *)

Lemma circle_outcome_wide (f : frame_t) (rad tol : R) :
  tol <> 0 ->
  Rabs (INR (frame_width f) - rad - rad) <= tol ->
  exists st : CircleSearch.search,
    circle_outcome f rad tol None = Ok st.
Proof.
  intros Htol Hw. unfold circle_outcome.
  destruct (Req_dec_T tol 0) as [E | _]; [contradiction|].
  cbn [brackets_of]. eexists. apply CircleSearch.loop_exit.
  apply (CircleSearch.continue_false (frame_objective f rad tol)). left.
  rewrite CircleSearch.init_x. unfold width, ends; cbn. exact Hw.
Qed.

Lemma radius_score_wide (tol rad : R) (s : ImageAnalysis) :
  tol <> 0 ->
  Rabs (INR (_image_width s) - rad - rad) <= tol ->
  exists (v : R) (s' : ImageAnalysis),
    radius_score tol None rad s = Ok (v, s') /\ frame s' = frame s.
Proof.
  intros Htol Hw.
  destruct (circle_outcome_wide (frame s) rad tol Htol Hw) as [st Hst].
  rewrite radius_score_run, Hst. do 2 eexists. split; [reflexivity|].
  rewrite frame_store_circle. reflexivity.
Qed.

Lemma radius_search_wide (tol : R) (r_ends : array4) (s : ImageAnalysis) :
  tol <> 0 ->
  Rabs (at3 r_ends - at0 r_ends) <= tol ->
  Rabs (INR (_image_width s) - at1 (interior r_ends) - at1 (interior r_ends)) <= tol ->
  Rabs (INR (_image_width s) - at2 (interior r_ends) - at2 (interior r_ends)) <= tol ->
  exists s' : ImageAnalysis, radius_search tol None r_ends s = Ok (tt, s').
Proof.
  intros Htol Hr H1 H2.
  destruct (radius_score_wide tol (at1 (interior r_ends)) s Htol H1)
    as (v1 & s1 & E1 & F1).
  assert (W1 : _image_width s1 = _image_width s).
  { change (frame_width (frame s1) = frame_width (frame s)). rewrite F1. reflexivity. }
  rewrite <- W1 in H2.
  destruct (radius_score_wide tol (at2 (interior r_ends)) s1 Htol H2)
    as (v2 & s2 & E2 & F2).
  unfold radius_search, radius_init.
  change (get4 (interior r_ends) (0 + 1)) with (at1 (interior r_ends)).
  change (get4 (interior r_ends) (1 + 1)) with (at2 (interior r_ends)).
  unfold bind at 1. unfold bind at 1. rewrite E1.
  unfold bind at 1. rewrite E2. unfold ret.
  assert (C : forall a m, radius_continue tol (RSearch (interior r_ends) a m) = false).
  { intros a m. unfold radius_continue. apply Rgtb_false.
    destruct r_ends; cbn in *. exact Hr. }
  unfold bind at 1.
  destruct fuel; simpl radius_loop; rewrite C; unfold ret, bind, get, put;
    eexists; reflexivity.
Qed.


Lemma radius_scores_after (k : nat) (tol : R) (test_range : option R)
    (r0 : array4) (s0 s : ImageAnalysis) (st : rsearch) :
  bind (radius_init tol test_range r0) (radius_steps k tol test_range) s0
  = Ok (st, s) ->
  (forall i : nat, (i < 2)%nat ->
     radius_objective tol test_range s (get4 (r st) (i + 1)) (get2 (array_sum st) i)) /\
  min_index st = argmin (flat2 (array_sum st)).
Proof.
  intros H. apply bind_Ok in H. destruct H as (st0 & s1 & H0 & Hk).
  destruct (radius_init_scored _ _ _ _ _ _ H0) as (_ & F0 & Hs0 & Hm0).
  rewrite <- F0 in Hs0.
  destruct (radius_steps_scored _ _ _ _ _ _ _ Hm0 Hs0 Hk) as (F & Hm & Hs).
  split; [|assumption].
  intros i Hi. apply radius_objective_frame. rewrite F. apply Hs. assumption.
Qed.

(** *** The getters

    The getters call each other through [self.getFiberCenter].  Each
    definition of this section takes that method as [self_getFiberCenter];
    the knot is tied below by recursion on a depth. *)

Section Self.

Variable self_getFiberCenter :
  option string -> bool -> R -> option R -> string -> M (option R * option R).

(** [getFiberDiameter], lines 170-176: the method when none is given. *)
Definition default_diameter_method (s : ImageAnalysis) : string :=
  if is_some (_fiber_diameter_radius s) then "radius"
  else if is_some (_fiber_diameter_gaussian s) then "gaussian"
  else "edge".

(** [getFiberCenter], lines 214-222. *)
Definition default_center_method (s : ImageAnalysis) : string :=
  if is_some (_center_x_radius s) then "radius"
  else if is_some (_center_x_gaussian s) then "gaussian"
  else if is_some (_center_x_circle s) then "circle"
  else "edge".

Definition getFiberDiameter_with (method : option string) (show_image : bool)
    (tol : R) (test_range : option R) (units : string) : M (option R) :=
  s <- get;;
  let method :=
    match method with
    | None => default_diameter_method s
    | Some m => m
    end in
  self_getFiberCenter (Some method) show_image tol test_range units;;;
  s <- get;;
  diameter <-
    (if contains "radius" method then ret (_fiber_diameter_radius s)
     else if contains "gaussian" method then ret (_fiber_diameter_gaussian s)
     else if contains "edge" method then ret (option_map IZR (_fiber_diameter_edge s))
     else raise "RuntimeError: Incorrect string for method type");;
  if (units =? "pixels")%string then ret diameter
  else if (units =? "microns")%string then
    d <- need diameter;;
    ret (Some (d * pixel_size s / magnification s))
  else raise "RuntimeError: Incorrect string for units".

(** [return self.getFiberDiameter(method, show_image, tol, test_range, units) / 2.0] *)
Definition getFiberRadius_with (method : option string) (show_image : bool)
    (tol : R) (test_range : option R) (units : string) : M R :=
  diameter <- getFiberDiameter_with method show_image tol test_range units;;
  d <- need diameter;;
  ret (d / 2).

Definition setFiberCenterRadiusMethod_with (tol : R) (test_range : option R) : M unit :=
  ' (r, test_range) <-
    match test_range with
    | Some test_range =>
        approx_radius <- getFiberRadius_with None false 1 None "pixels";;
        let test_range := test_range / 2 in
        let r := set4 zeros4 0 (approx_radius - test_range) in
        let r := if Rltb (get4 r 0) 0 then set4 r 0 0 else r in
        let r := set4 r 3 (approx_radius + test_range) in
        ret (r, Some test_range)
    | None =>
        s <- get;;
        ret (ends 0 (INR (Nat.min (_image_height s) (_image_width s)) / 2), None)
    end;;
  radius_search tol test_range r.

Definition getFiberCenterRadiusMethod_with (tol : R) (test_range : option R)
    (show_image : bool) : M (option R * option R) :=
  s <- get;;
  (if is_some (_center_x_radius s) then ret tt
   else setFiberCenterRadiusMethod_with tol test_range);;;
  s <- get;;
  ret (_center_y_radius s, _center_x_radius s).

Definition getFiberCenterCircleMethod_with (radius : option R) (tol : R)
    (test_range : option R) (show_image : bool) : M (option R * option R) :=
  radius <-
    match radius with
    | None => getFiberRadius_with None false 1 None "pixels"
    | Some radius => ret radius
    end;;
  setFiberCenterCircleMethod radius tol test_range;;;
  s <- get;;
  ret (_center_y_circle s, _center_x_circle s).

Definition setFiberCenterGaussianMethod_with : M unit :=
  ' (y0, x0) <- self_getFiberCenter None false 1 None "pixels";;
  radius <- getFiberRadius_with None false 1 None "pixels";;
  x0 <- need x0;;
  y0 <- need y0;;
  s <- get;;
  let initial_guess :=
    (x0, y0, radius, np_max (ravel (_image_array s)), np_min (ravel (_image_array s))) in
  let '(fit, opt_parameters) := super_getGaussianFit (_image_array s) initial_guess in
  put (set_gaussian s (Some fit)
         (Some (nth 0 opt_parameters 0))
         (Some (nth 1 opt_parameters 0))
         (Some (nth 2 opt_parameters 0 * 2))).

Definition getFiberCenterGaussianMethod_with (show_image : bool)
  : M (option R * option R) :=
  s <- get;;
  (if is_some (_center_x_gaussian s) then ret tt
   else setFiberCenterGaussianMethod_with);;;
  s <- get;;
  ret (_center_y_gaussian s, _center_x_gaussian s).

Definition getFiberCenter_with (method : option string) (show_image : bool)
    (tol : R) (test_range : option R) (units : string) : M (option R * option R) :=
  s <- get;;
  let method :=
    match method with
    | None => default_center_method s
    | Some m => m
    end in
  center <-
    (if contains "radius" method then
       getFiberCenterRadiusMethod_with tol test_range show_image
     else if contains "gaussian" method then
       getFiberCenterGaussianMethod_with show_image
     else if contains "circle" method then
       getFiberCenterCircleMethod_with None tol test_range show_image
     else if contains "edge" method then
       getFiberCenterEdgeMethod show_image
     else raise "RuntimeError: Incorrect string for method type");;
  if (units =? "pixels")%string then ret center
  else if (units =? "microns")%string then
    s <- get;;
    cy <- need (fst center);;
    cx <- need (snd center);;
    ret (Some (cy * pixel_size s / magnification s),
         Some (cx * pixel_size s / magnification s))
  else raise "RuntimeError: Incorrect string for units".

End Self.

(** [self.getFiberCenter] with at most [depth] nested calls of itself. *)
Fixpoint getFiberCenter_depth (depth : nat) (method : option string)
    (show_image : bool) (tol : R) (test_range : option R) (units : string)
  : M (option R * option R) :=
  match depth with
  | O => fun _ => OutOfFuel
  | S depth' =>
      getFiberCenter_with (getFiberCenter_depth depth')
        method show_image tol test_range units
  end.

Definition getFiberCenter := getFiberCenter_depth (S fuel).

Definition getFiberDiameter := getFiberDiameter_with (getFiberCenter_depth fuel).

Definition getFiberRadius := getFiberRadius_with (getFiberCenter_depth fuel).

Definition setFiberCenterRadiusMethod :=
  setFiberCenterRadiusMethod_with (getFiberCenter_depth fuel).

End Handler.


(** *** Termination of the searches in exact arithmetic

    With enough fuel a search returns or raises, and more fuel does not change
    the outcome. *)

Section Termination.

Variable removeCircle : image -> R -> R -> R -> Z -> image.
Variable getArraySum : image -> R.







End Termination.


(** *** The call [self.getFiberCenter(method='edge', show_image=False)] *)

Section EdgeDispatch.

Variable removeCircle : image -> R -> R -> R -> Z -> image.
Variable getArraySum : image -> R.
Variable super_getGaussianFit : image -> R * R * R * R * R -> image * list R.

Lemma getFiberCenter_depth_edge (fuel depth : nat) (show_image : bool) (tol : R)
    (test_range : option R) (s : ImageAnalysis) :
  getFiberCenter_depth removeCircle getArraySum super_getGaussianFit fuel (S depth)
    (Some "edge"%string) show_image tol test_range "pixels" s
  = Ok (edge_center s, edge_state s).
Proof.
  cbn [getFiberCenter_depth]. unfold getFiberCenter_with. unfold bind at 1. unfold get.
  change (contains "radius" "edge") with false.
  change (contains "gaussian" "edge") with false.
  change (contains "circle" "edge") with false.
  change (contains "edge" "edge") with true.
  cbv iota. unfold bind. rewrite getFiberCenterEdgeMethod_run. reflexivity.
Qed.

Lemma getFiberCenter_edge (fuel : nat) (tol : R) (test_range : option R)
    (s : ImageAnalysis) :
  getFiberCenter removeCircle getArraySum super_getGaussianFit fuel
    (Some "edge"%string) false tol test_range "pixels" s
  = getFiberCenter_method_edge s.
Proof.
  unfold getFiberCenter, getFiberCenter_method_edge.
  rewrite getFiberCenter_depth_edge, getFiberCenterEdgeMethod_run. reflexivity.
Qed.

End EdgeDispatch.

End Estimator.

(** ** The two golden-section loops in binary64

    The modules above read Python floats as real numbers, which settles what
    the searches compute but not whether their loops end: the brackets of a
    binary64 search stop shrinking once their ends are neighbouring floats.
    This module repeats the two loops with [PrimFloat] arithmetic (IEEE 754
    binary64, round to nearest even, as CPython and numpy compute), line by
    line as in [Golden], [CircleSearch] and [Estimator]; the objective of each
    search is a parameter, a function of the probed radius or position. *)

Module Binary64.
Import PrimFloat.
Local Open Scope float_scope.

(** [self._phi = (5 ** 0.5 - 1) / 2]; [5 ** 0.5] is the correctly rounded
    square root 2.23606797749979. *)
Definition _phi : float := (PrimFloat.sqrt 5 - 1) / 2.

(** [np.zeros(4).astype(float)], read and written by index. *)
Record array4 : Type := Array4 { at0 : float; at1 : float; at2 : float; at3 : float }.

Definition get4 (a : array4) (i : nat) : float :=
  match i with
  | 0%nat => at0 a
  | 1%nat => at1 a
  | 2%nat => at2 a
  | _ => at3 a
  end.

Definition set4 (a : array4) (i : nat) (v : float) : array4 :=
  match i with
  | 0%nat => Array4 v (at1 a) (at2 a) (at3 a)
  | 1%nat => Array4 (at0 a) v (at2 a) (at3 a)
  | 2%nat => Array4 (at0 a) (at1 a) v (at3 a)
  | _ => Array4 (at0 a) (at1 a) (at2 a) v
  end.

(** [x = np.zeros(4); x[0] = lo; x[3] = hi] *)
Definition ends (lo hi : float) : array4 := set4 (set4 (Array4 0 0 0 0) 0 lo) 3 hi.

(** [r[1] = r[0] + (1 - phi) * (r[3] - r[0])],
    [r[2] = r[0] + phi * (r[3] - r[0])]. *)
Definition interior (r : array4) : array4 :=
  let r := set4 r 1 (get4 r 0 + (1 - _phi) * (get4 r 3 - get4 r 0)) in
  set4 r 2 (get4 r 0 + _phi * (get4 r 3 - get4 r 0)).

(** The branch [min_index == 0]. *)
Definition shrink_upper (r : array4) : array4 :=
  let r := set4 r 3 (get4 r 2) in
  let r := set4 r 2 (get4 r 1) in
  set4 r 1 (get4 r 0 + (1 - _phi) * (get4 r 3 - get4 r 0)).

(** The [else] branch. *)
Definition shrink_lower (r : array4) : array4 :=
  let r := set4 r 0 (get4 r 1) in
  let r := set4 r 1 (get4 r 2) in
  set4 r 2 (get4 r 0 + _phi * (get4 r 3 - get4 r 0)).

Definition shrink (min_index : nat) (r : array4) : array4 :=
  match min_index with
  | 0%nat => shrink_upper r
  | _ => shrink_lower r
  end.

(** [abs(r[3] - r[0]) > tol] *)
Definition wider (r : array4) (tol : float) : bool :=
  tol <? abs (get4 r 3 - get4 r 0).


(** [np.argmin] on floats: the first entry that no earlier entry is below; a
    NaN counts as smaller than every number. *)
Fixpoint argmin_from (best : float) (best_index i : nat) (l : list float) : nat :=
  match l with
  | [] => best_index
  | v :: l' =>
      if is_nan best then best_index
      else if negb (best <=? v) then argmin_from v i (S i) l'
      else argmin_from best best_index (S i) l'
  end.

Definition argmin (l : list float) : nat :=
  match l with
  | [] => 0%nat
  | v :: l' => argmin_from v 0%nat 1%nat l'
  end.

(** An image side [n] as a float, and the literals of the examples;
    each quotient is the float that the decimal literal denotes. *)
Fixpoint of_nat (n : nat) : float :=
  match n with
  | O => 0
  | S n' => of_nat n' + 1
  end.





(** *** The loop of [setFiberCenterRadiusMethod], lines 477-503 *)

Module Radius.

Definition get2 (a : float * float) (i : nat) : float :=
  match i with 0%nat => fst a | _ => snd a end.

Definition set2 (a : float * float) (i : nat) (v : float) : float * float :=
  match i with 0%nat => (v, snd a) | _ => (fst a, v) end.

Record rsearch : Type := RSearch {
  r : array4;
  array_sum : float * float;
  min_index : nat
}.

Section Loop.

(** [score rad] is [self._array_sum_circle + self.threshold * np.pi * rad**2]
    after [self.setFiberCenterCircleMethod(rad, tol, test_range)]. *)
Variable score : float -> float.
Variable tol : float.

(** Lines 477-485. *)
Definition radius_init (r_ends : array4) : rsearch :=
  let r := interior r_ends in
  let array_sum := set2 (0, 0) 0 (score (get4 r (0 + 1))) in
  let array_sum := set2 array_sum 1 (score (get4 r (1 + 1))) in
  RSearch r array_sum (argmin [fst array_sum; snd array_sum]).

(** [abs(r[3] - r[0]) > tol] *)
Definition radius_continue (st : rsearch) : bool := wider (r st) tol.

(** Lines 488-503. *)
Definition radius_step (st : rsearch) : rsearch :=
  let min_index := min_index st in
  let r := shrink min_index (r st) in
  let array_sum :=
    set2 (array_sum st) (1 - min_index) (get2 (array_sum st) min_index) in
  let array_sum := set2 array_sum min_index (score (get4 r (min_index + 1))) in
  RSearch r array_sum (argmin [fst array_sum; snd array_sum]).

Fixpoint radius_loop (fuel : nat) (st : rsearch) : result rsearch :=
  if radius_continue st then
    match fuel with
    | O => OutOfFuel
    | S fuel' => radius_loop fuel' (radius_step st)
    end
  else Ok st.

(** [k] runs of the loop body. *)
Fixpoint radius_steps (k : nat) (st : rsearch) : rsearch :=
  match k with
  | O => st
  | S k' => radius_steps k' (radius_step st)
  end.


Lemma radius_steps_add (a b : nat) (st : rsearch) :
  radius_steps (a + b) st = radius_steps b (radius_steps a st).
Proof.
  revert st. induction a as [|a IH]; intros st; [reflexivity|].
  simpl. apply IH.
Qed.

Lemma radius_steps_succ (k : nat) (st : rsearch) :
  radius_steps (S k) st = radius_step (radius_steps k st).
Proof.
  replace (S k) with (k + 1)%nat by lia. apply radius_steps_add.
Qed.







End Loop.



End Radius.

(** *** The loop of [setFiberCenterCircleMethod], lines 556-606 *)

Module Circle.

(** [np.zeros((2, 2))], indexed [array_sum[j, i]]. *)
Record array22 : Type := Array22 { s00 : float; s01 : float; s10 : float; s11 : float }.

Definition zeros22 : array22 := Array22 0 0 0 0.

Definition get22 (a : array22) (j i : nat) : float :=
  match j, i with
  | 0%nat, 0%nat => s00 a
  | 0%nat, _ => s01 a
  | _, 0%nat => s10 a
  | _, _ => s11 a
  end.

Definition set22 (a : array22) (j i : nat) (v : float) : array22 :=
  match j, i with
  | 0%nat, 0%nat => Array22 v (s01 a) (s10 a) (s11 a)
  | 0%nat, _ => Array22 (s00 a) v (s10 a) (s11 a)
  | _, 0%nat => Array22 (s00 a) (s01 a) v (s11 a)
  | _, _ => Array22 (s00 a) (s01 a) (s10 a) v
  end.

Definition flat22 (a : array22) : list float := [s00 a; s01 a; s10 a; s11 a].

(** [np.unravel_index(np.argmin(array_sum), (2, 2))] *)
Definition unravel22 (k : nat) : nat * nat := ((k / 2)%nat, (k mod 2)%nat).

Definition argmin22 (a : array22) : nat * nat := unravel22 (argmin (flat22 a)).

(** The pairs [(i, j)] in the order of
    [for i in xrange(2): for j in xrange(2)]. *)
Definition corners : list (nat * nat) :=
  [(0, 0); (0, 1); (1, 0); (1, 1)]%nat.

(** The local variables of the method, and [evals]: the positions at which
    [removeCircle] / [getArraySum] have been called so far, the most recent
    first. *)
Record search : Type := Search {
  x : array4;
  y : array4;
  array_sum : array22;
  min_index : nat * nat;
  evals : list (float * float)
}.




(** The positions [(x[i+1], y[j+1])] of the corners other than
    [(i, j) = (m[1], m[0])], the last one first. *)
Definition other_corners (m : nat * nat) (x y : array4) : list (float * float) :=
  rev (map (fun c : nat * nat => (get4 x (fst c + 1), get4 y (snd c + 1)))
           (filter (fun c : nat * nat =>
                      negb (fst c =? snd m)%nat || negb (snd c =? fst m)%nat)
                   corners)).

Section Loop.

(** [objective x y] is
    [getArraySum(removeCircle(self._filtered_image, x, y, radius, res))]. *)
Variable objective : float -> float -> float.
Variable tol : float.

(** [array_sum[j, i] = objective(x[i+1], y[j+1])] *)
Definition score (st : search) (i j : nat) : search :=
  let px := get4 (x st) (i + 1) in
  let py := get4 (y st) (j + 1) in
  Search (x st) (y st)
         (set22 (array_sum st) j i (objective px py))
         (min_index st)
         ((px, py) :: evals st).

Definition set_min_index (st : search) (m : nat * nat) : search :=
  Search (x st) (y st) (array_sum st) m (evals st).

(** Lines 556-572. *)
Definition init (xr yr : array4) : search :=
  let st := Search (interior xr) (interior yr) zeros22 (0, 0)%nat [] in
  let st := fold_left (fun st '(i, j) => score st i j) corners st in
  set_min_index st (argmin22 (array_sum st)).

(** [abs(x[3] - x[0]) > tol and abs(y[3] - y[0]) > tol] *)
Definition continue (st : search) : bool :=
  wider (x st) tol && wider (y st) tol.

(** [if i != min_index[1] or j != min_index[0]: array_sum[j, i] = ...] *)
Definition rescore (m : nat * nat) (st : search) (c : nat * nat) : search :=
  let '(i, j) := c in
  if negb (i =? snd m)%nat || negb (j =? fst m)%nat then score st i j else st.

(** Lines 575-606. *)
Definition step (st : search) : search :=
  let '(m0, m1) := min_index st in
  let y' := shrink m0 (y st) in
  let x' := shrink m1 (x st) in
  let sums := set22 (array_sum st) (1 - m0) (1 - m1) (get22 (array_sum st) m0 m1) in
  let m := ((1 - m0)%nat, (1 - m1)%nat) in
  let st := Search x' y' sums m (evals st) in
  let st := fold_left (rescore m) corners st in
  set_min_index st (argmin22 (array_sum st)).

Fixpoint loop (fuel : nat) (st : search) : result search :=
  if continue st then
    match fuel with
    | O => OutOfFuel
    | S fuel' => loop fuel' (step st)
    end
  else Ok st.

(** [k] runs of the loop body. *)
Fixpoint steps (k : nat) (st : search) : search :=
  match k with
  | O => st
  | S k' => steps k' (step st)
  end.

Definition index_ok (m : nat * nat) : Prop :=
  m = (0, 0)%nat \/ m = (0, 1)%nat \/ m = (1, 0)%nat \/ m = (1, 1)%nat.

Lemma argmin22_index_ok (a : array22) : index_ok (argmin22 a).
Proof.
  unfold index_ok, argmin22, argmin, flat22. cbn [argmin_from].
  repeat match goal with
         | |- context [if ?c then _ else _] => destruct c
         end; cbn; auto.
Qed.

Lemma step_min_index_ok (st : search) : index_ok (min_index (step st)).
Proof.
  unfold step. destruct (min_index st) as [m0 m1]. cbn [min_index set_min_index].
  apply argmin22_index_ok.
Qed.

Lemma init_min_index_ok (xr yr : array4) : index_ok (min_index (init xr yr)).
Proof. unfold init. cbn [min_index set_min_index]. apply argmin22_index_ok. Qed.

Lemma steps_add (a b : nat) (st : search) :
  steps (a + b) st = steps b (steps a st).
Proof.
  revert st. induction a as [|a IH]; intros st; [reflexivity|].
  simpl. apply IH.
Qed.

Lemma steps_succ (k : nat) (st : search) : steps (S k) st = step (steps k st).
Proof. replace (S k) with (k + 1)%nat by lia. apply steps_add. Qed.

Lemma steps_min_index_ok (k : nat) (xr yr : array4) :
  index_ok (min_index (steps k (init xr yr))).
Proof.
  destruct k as [|k]; [apply init_min_index_ok|].
  rewrite steps_succ. apply step_min_index_ok.
Qed.

Lemma loop_run (fuel : nat) (st st' : search) :
  loop fuel st = Ok st' ->
  exists k : nat,
    (k <= fuel)%nat /\ st' = steps k st /\ continue st' = false /\
    forall j : nat, (j < k)%nat -> continue (steps j st) = true.
Proof.
  revert st. induction fuel as [|fuel IH]; intros st; simpl.
  - destruct (continue st) eqn:C; [discriminate|].
    intros H; injection H as <-. exists 0%nat. repeat split; auto. lia.
  - destruct (continue st) eqn:C.
    + intros H. destruct (IH _ H) as (k & Hk & -> & Hc & Hall).
      exists (S k). repeat split; auto; [lia|].
      intros [|j] Hj; simpl; [assumption | apply Hall; lia].
    + intros H; injection H as <-. exists 0%nat. repeat split; auto; lia.
Qed.


(** The loop test holds before each of the first [n] iterations. *)
Fixpoint runs (n : nat) (st : search) : bool :=
  match n with
  | O => true
  | S n' => continue st && runs n' (step st)
  end.

Lemma runs_spec (n : nat) (st : search) :
  runs n st = true ->
  forall j : nat, (j < n)%nat -> continue (steps j st) = true.
Proof.
  revert st. induction n as [|n IH]; intros st H j Hj; [lia|].
  simpl in H. apply andb_true_iff in H. destruct H as [H0 H].
  destruct j as [|j]; [exact H0|]. simpl. apply IH; [exact H | lia].
Qed.

(** *** What one iteration does *)

Definition scored (st : search) : Prop :=
  forall i j : nat, (i < 2)%nat -> (j < 2)%nat ->
    get22 (array_sum st) j i = objective (get4 (x st) (i + 1)) (get4 (y st) (j + 1)).


(** The brackets, the log and the carried sum after an iteration. *)
Lemma step_spec (st : search) :
  index_ok (min_index st) ->
  x (step st) = shrink (snd (min_index st)) (x st) /\
  y (step st) = shrink (fst (min_index st)) (y st) /\
  evals (step st)
  = other_corners ((1 - fst (min_index st))%nat, (1 - snd (min_index st))%nat)
      (x (step st)) (y (step st)) ++ evals st /\
  get4 (x (step st)) ((1 - snd (min_index st)) + 1) = get4 (x st) (snd (min_index st) + 1) /\
  get4 (y (step st)) ((1 - fst (min_index st)) + 1) = get4 (y st) (fst (min_index st) + 1) /\
  get22 (array_sum (step st)) (1 - fst (min_index st)) (1 - snd (min_index st))
  = get22 (array_sum st) (fst (min_index st)) (snd (min_index st)).
Proof.
  intros Hm. unfold step.
  destruct Hm as [E | [E | [E | E]]]; rewrite E; repeat split; reflexivity.
Qed.



Lemma other_corners_length (m : nat * nat) (xs ys : array4) :
  index_ok m -> List.length (other_corners m xs ys) = 3%nat.
Proof.
  intros [E | [E | [E | E]]]; rewrite E; reflexivity.
Qed.

Lemma steps_evals_length (k : nat) (xr yr : array4) :
  List.length (evals (steps k (init xr yr))) = (4 + 3 * k)%nat.
Proof.
  induction k as [|k IH]; [reflexivity|].
  rewrite steps_succ.
  destruct (step_spec _ (steps_min_index_ok k xr yr)) as (_ & _ & E & _).
  rewrite E, length_app, IH, other_corners_length; [lia|].
  pose proof (steps_min_index_ok k xr yr) as Hm.
  destruct Hm as [F | [F | [F | F]]]; rewrite F; cbn; unfold index_ok; auto.
Qed.

End Loop.

(** *** Positions that are evaluated once only *)

(** The interior points of the brackets are among the coordinates [sx] and
    [sy], and so are the coordinates of every position evaluated so far. *)
Definition logged (st : search) (sx sy : list float) : Prop :=
  (forall i : nat, (i < 2)%nat -> In (get4 (x st) (i + 1)) sx) /\
  (forall j : nat, (j < 2)%nat -> In (get4 (y st) (j + 1)) sy) /\
  forall p : float * float, In p (evals st) -> In (fst p) sx /\ In (snd p) sy.





Section Fresh.

Variable objective : float -> float -> float.





End Fresh.

End Circle.

End Binary64.

(** ** Properties of the two loops in binary64 *)

Module LoopClaims.
Import PrimFloat Binary64.
Local Open Scope float_scope.









(** The brackets of a 100 x 200 image and a circle of radius 10, without
    [test_range]. *)
Definition xr_100 : array4 := ends 10 (100 - 10).
Definition yr_200 : array4 := ends 10 (200 - 10).

(** An objective with its minimum at the position (50.3, 98.7). *)
Definition bowl (px py : float) : float :=
  (px - 503 / 10) * (px - 503 / 10) + (py - 987 / 10) * (py - 987 / 10).






(** When the loop of [setFiberCenterCircleMethod] has returned, it has run
    some number [k] of iterations, the objective has been evaluated
    [4 + 3 k] times, and the loop test
    [abs(x[3] - x[0]) > tol and abs(y[3] - y[0]) > tol] failed after the
    [k]-th iteration for the first time. *)
Theorem loop_evaluations (objective : float -> float -> float) (tol : float)
    (xr yr : array4) (fuel : nat) (st : Circle.search) :
  Circle.loop objective tol fuel (Circle.init objective xr yr) = Ok st ->
  exists k : nat,
    (k <= fuel)%nat /\
    st = Circle.steps objective k (Circle.init objective xr yr) /\
    List.length (Circle.evals st) = (4 + 3 * k)%nat /\
    (tol <? abs (at3 (Circle.x st) - at0 (Circle.x st))) &&
    (tol <? abs (at3 (Circle.y st) - at0 (Circle.y st))) = false /\
    forall j : nat, (j < k)%nat ->
      (tol <? abs (at3 (Circle.x (Circle.steps objective j (Circle.init objective xr yr)))
                   - at0 (Circle.x (Circle.steps objective j (Circle.init objective xr yr))))) &&
      (tol <? abs (at3 (Circle.y (Circle.steps objective j (Circle.init objective xr yr)))
                   - at0 (Circle.y (Circle.steps objective j (Circle.init objective xr yr)))))
      = true.
Proof.
  intros H. destruct (Circle.loop_run objective tol fuel _ _ H) as (k & Hk & -> & Hc & Hall).
  exists k. split; [exact Hk|]. split; [reflexivity|].
  split; [apply Circle.steps_evals_length|]. split; [exact Hc | exact Hall].
Qed.

Lemma loop_evaluations_witness :
  exists k : nat,
    (0 < k <= 10)%nat /\
    Circle.loop bowl 1 10 (Circle.init bowl xr_100 yr_200)
    = Ok (Circle.steps bowl k (Circle.init bowl xr_100 yr_200)) /\
    List.length (Circle.evals (Circle.steps bowl k (Circle.init bowl xr_100 yr_200)))
    = (4 + 3 * k)%nat.
Proof.
  assert (H : Circle.loop bowl 1 10 (Circle.init bowl xr_100 yr_200)
              = Ok (Circle.steps bowl 10 (Circle.init bowl xr_100 yr_200)))
    by (vm_compute; reflexivity).
  destruct (loop_evaluations bowl 1 xr_100 yr_200 10 _ H) as (k & Hk & E & Hlen & Hc & _).
  exists k. rewrite <- E. split; [|split; [exact H | exact Hlen]].
  split; [|exact Hk].
  destruct k as [|k]; [|lia].
  rewrite E in Hc. vm_compute in Hc. discriminate Hc.
Defined.

End LoopClaims.

(** ** Properties of the fixed-radius circle search *)

Module CircleClaims.
Import Golden CircleSearch.

(** The brackets of a 100 x 200 image and a circle of radius 10, without
    [test_range]: [x[0] = radius], [x[3] = width - radius]. *)
Definition xr_100 : array4 := Estimator.ends 10 (100 - 10).
Definition yr_200 : array4 := Estimator.ends 10 (200 - 10).
Definition flat_objective : R -> R -> R := fun _ _ => 0.

(** C4, as stated, fails: on a 100 x 200 image with radius 10 and tol = 1 the
    loop of [setFiberCenterCircleMethod] stops as soon as the x bracket is
    narrow enough, and the y bracket is then still wider than [tol]. *)
Lemma circle_exit_both_axes_counterexample :
  exists (fuel : nat) (st' : search),
    loop flat_objective 1 fuel (init flat_objective xr_100 yr_200) = Ok st' /\
    ~ (Rabs (get4 (x st') 3 - get4 (x st') 0) <= 1 /\
       Rabs (get4 (y st') 3 - get4 (y st') 0) <= 1).
Proof.
  set (st0 := init flat_objective xr_100 yr_200).
  assert (G : golden2 st0) by apply init_golden2.
  destruct (loop_terminates flat_objective 1 st0 ltac:(lra) G)
    as (k & Hall & Hc & Hk).
  exists k, (steps flat_objective k st0). split; [apply Hk; lia|].
  destruct (steps_width flat_objective k st0 G) as [Hx Hy].
  change (get4 (x (steps flat_objective k st0)) 3 - get4 (x (steps flat_objective k st0)) 0)
    with (width (x (steps flat_objective k st0))).
  change (get4 (y (steps flat_objective k st0)) 3 - get4 (y (steps flat_objective k st0)) 0)
    with (width (y (steps flat_objective k st0))).
  rewrite Hy.
  assert (Wx : width (x st0) = 80) by (unfold width; cbn; lra).
  assert (Wy : width (y st0) = 180) by (unfold width; cbn; lra).
  rewrite Wy. intros [_ Hle].
  assert (Hpos : 0 < _phi ^ k) by (apply pow_lt, phi_pos).
  rewrite Rabs_pos_eq in Hle by nra.
  destruct k as [|j].
  - simpl in Hle. lra.
  - pose proof (Hall j ltac:(lia)) as Cj.
    apply (continue_true flat_objective) in Cj. destruct Cj as [Cx _].
    destruct (steps_width flat_objective j st0 G) as [Hxj _].
    rewrite Hxj, Wx in Cx.
    assert (Hposj : 0 < _phi ^ j) by (apply pow_lt, phi_pos).
    rewrite Rabs_pos_eq in Cx by nra.
    simpl in Hle. pose proof phi_bounds. nra.
Qed.

(** C4 (amended): when the loop of [setFiberCenterCircleMethod] ends, the
    bracket is at most [tol] wide in at least one of the two axes. *)
Theorem circle_exit_one_axis (objective : R -> R -> R) (tol : R)
    (xr yr : array4) (fuel : nat) (st' : search) :
  loop objective tol fuel (init objective xr yr) = Ok st' ->
  Rabs (get4 (x st') 3 - get4 (x st') 0) <= tol \/
  Rabs (get4 (y st') 3 - get4 (y st') 0) <= tol.
Proof.
  intros H. destruct (loop_steps objective tol fuel _ _ H) as (k & _ & _ & Hc & _).
  apply (continue_false objective) in Hc. exact Hc.
Qed.

Lemma circle_exit_one_axis_witness :
  loop flat_objective 100 0 (init flat_objective xr_100 yr_200)
  = Ok (init flat_objective xr_100 yr_200) /\
  (Rabs (get4 (x (init flat_objective xr_100 yr_200)) 3
         - get4 (x (init flat_objective xr_100 yr_200)) 0) <= 100 \/
   Rabs (get4 (y (init flat_objective xr_100 yr_200)) 3
         - get4 (y (init flat_objective xr_100 yr_200)) 0) <= 100).
Proof.
  assert (H : loop flat_objective 100 0 (init flat_objective xr_100 yr_200)
              = Ok (init flat_objective xr_100 yr_200)).
  { apply loop_exit. apply (continue_false flat_objective). left.
    unfold width; cbn. apply Rabs_le. lra. }
  split; [exact H|].
  exact (circle_exit_one_axis flat_objective 100 xr_100 yr_200 0 _ H).
Defined.

End CircleClaims.

(** ** A small image for the examples *)

Module RadiusClaims.
Import Golden Estimator.

(** A 2 x 2 image with one lit pixel, and a handler whose [removeCircle]
    leaves the image alone. *)
Definition img22 : image := [[0; 0]; [0; 5]].
Definition obj22 : ImageAnalysis := blank img22 img22 1 10 1.
Definition keep_image : image -> R -> R -> R -> Z -> image := fun img _ _ _ _ => img.
Definition sum_image : image -> R := fun img => np_sum (ravel img).

End RadiusClaims.

(** ** Properties of the edge method and of the getters *)

Module ApiClaims.
Import Golden Estimator.

(** Some column or some row of the filtered image has no pixel above the
    threshold. *)
Definition some_line_dark (s : ImageAnalysis) : Prop :=
  (exists i : nat, (i < _image_width s)%nat /\ column_lit s i = false) \/
  (exists j : nat, (j < _image_height s)%nat /\ row_lit s j = false).

Lemma lit_img22 :
  column_lit RadiusClaims.obj22 0 = false /\ column_lit RadiusClaims.obj22 1 = true /\
  row_lit RadiusClaims.obj22 0 = false /\ row_lit RadiusClaims.obj22 1 = true.
Proof.
  unfold column_lit, row_lit, Rgtb, np_max; cbn. unfold Rmax.
  repeat split; Rdecide; reflexivity.
Qed.

(** What the edge method stores for the 2 x 2 image. *)
Lemma edge_result_img22 :
  _left_edge (edge_result RadiusClaims.obj22) = Some 1%Z /\
  _right_edge (edge_result RadiusClaims.obj22) = Some (-1)%Z /\
  _top_edge (edge_result RadiusClaims.obj22) = Some 1%Z /\
  _bottom_edge (edge_result RadiusClaims.obj22) = Some (-1)%Z /\
  _center_y_edge (edge_result RadiusClaims.obj22) = Some 0 /\
  _center_x_edge (edge_result RadiusClaims.obj22) = Some 0 /\
  _fiber_diameter_edge (edge_result RadiusClaims.obj22) = Some (-2)%Z.
Proof.
  destruct lit_img22 as (C0 & C1 & R0 & R1).
  unfold edge_result, scan. cbn [_image_width _image_height RadiusClaims.obj22 blank
    RadiusClaims.img22 List.length hd seq fold_left].
  unfold scan_step. rewrite C0, C1, R0, R1. cbn.
  repeat split; f_equal; lra.
Qed.

(** C7, as stated, fails: in the 2 x 2 image [[0, 0], [0, 5]] with threshold 1
    the first row and the first column have no pixel above the threshold, and
    the edge method returns without an error; the right and bottom edges stay
    at -1 and enter the center (0, 0) and the diameter -2. *)
Lemma edge_method_reports_no_error_counterexample :
  some_line_dark RadiusClaims.obj22 /\
  exists s' : ImageAnalysis,
    setFiberCenterEdgeMethod RadiusClaims.obj22 = Ok (tt, s') /\
    _left_edge s' = Some 1%Z /\ _right_edge s' = Some (-1)%Z /\
    _top_edge s' = Some 1%Z /\ _bottom_edge s' = Some (-1)%Z /\
    _center_y_edge s' = Some 0 /\ _center_x_edge s' = Some 0 /\
    _fiber_diameter_edge s' = Some (-2)%Z.
Proof.
  split.
  - left. exists 0%nat. split; [cbn; lia | apply lit_img22].
  - exists (edge_result RadiusClaims.obj22).
    split; [apply setFiberCenterEdgeMethod_run | exact edge_result_img22].
Qed.

(** The selection rule in the words of the specification: the first method of
    a priority list whose result is already computed, else the fallback. *)
Fixpoint first_computed (order : list (string * bool)) (fallback : string) : string :=
  match order with
  | [] => fallback
  | (method, computed) :: rest =>
      if computed then method else first_computed rest fallback
  end.

(** C10: on the same arguments and the same object, [getFiberRadius] returns
    half of what [getFiberDiameter] returns, for every method, tolerance, test
    range and units; it raises when [getFiberDiameter] raises (or returns
    [None]) and leaves the object in the same state. *)
Theorem getFiberRadius_is_half_diameter
    (removeCircle : image -> R -> R -> R -> Z -> image)
    (getArraySum : image -> R)
    (super_getGaussianFit : image -> R * R * R * R * R -> image * list R)
    (fuel : nat) (method : option string) (show_image : bool) (tol : R)
    (test_range : option R) (units : string) (s : ImageAnalysis) :
  getFiberRadius removeCircle getArraySum super_getGaussianFit fuel
    method show_image tol test_range units s
  = match getFiberDiameter removeCircle getArraySum super_getGaussianFit fuel
            method show_image tol test_range units s with
    | Ok (Some diameter, s') => Ok (diameter / 2, s')
    | Ok (None, s') => Raise "TypeError"
    | Raise e => Raise e
    | OutOfFuel => OutOfFuel
    end.
Proof.
  unfold getFiberRadius, getFiberRadius_with, getFiberDiameter. unfold bind at 1.
  destruct (getFiberDiameter_with _ method show_image tol test_range units s)
    as [[[d|] s'] | e | ]; reflexivity.
Qed.


Definition no_fit : image -> R * R * R * R * R -> image * list R :=
  fun img _ => (img, []).

(** On the 2 x 2 object after its construction the edge diameter is -2 pixels
    and the edge radius is -1 pixel. *)
Lemma getFiberRadius_edge_example :
  getFiberDiameter RadiusClaims.keep_image RadiusClaims.sum_image no_fit 1
    (Some "edge"%string) false 1 None "pixels" (edge_result RadiusClaims.obj22)
  = Ok (Some (IZR (-2)), edge_result RadiusClaims.obj22) /\
  getFiberRadius RadiusClaims.keep_image RadiusClaims.sum_image no_fit 1
    (Some "edge"%string) false 1 None "pixels" (edge_result RadiusClaims.obj22)
  = Ok (IZR (-2) / 2, edge_result RadiusClaims.obj22).
Proof.
  destruct edge_result_img22 as (_ & _ & _ & _ & Hcy & _ & Hdiam).
  assert (E : getFiberDiameter RadiusClaims.keep_image RadiusClaims.sum_image no_fit 1
                (Some "edge"%string) false 1 None "pixels" (edge_result RadiusClaims.obj22)
              = Ok (Some (IZR (-2)), edge_result RadiusClaims.obj22)).
  { unfold getFiberDiameter, getFiberDiameter_with. unfold bind at 1. unfold get.
    unfold bind at 1. rewrite getFiberCenter_depth_edge.
    assert (Es : edge_state (edge_result RadiusClaims.obj22) = edge_result RadiusClaims.obj22).
    { unfold edge_state. rewrite Hcy. reflexivity. }
    rewrite Es. unfold bind at 1.
    change (contains "radius" "edge") with false.
    change (contains "gaussian" "edge") with false.
    change (contains "edge" "edge") with true.
    cbv iota. unfold bind, ret. rewrite Hdiam. reflexivity. }
  split; [exact E|].
  unfold getFiberRadius, getFiberRadius_with. unfold bind at 1.
  unfold getFiberDiameter in E. rewrite E. reflexivity.
Qed.


(** With a method string that names the circle method only,
    [getFiberDiameter] raises once the center is found, and so does
    [getFiberRadius]: no diameter is kept for that method. *)
Lemma getFiberDiameter_circle_raises
    (self_getFiberCenter :
       option string -> bool -> R -> option R -> string -> M (option R * option R))
    (show_image : bool) (tol : R) (test_range : option R) (units : string)
    (s : ImageAnalysis) :
  getFiberDiameter_with self_getFiberCenter (Some "circle"%string)
    show_image tol test_range units s
  = match self_getFiberCenter (Some "circle"%string) show_image tol test_range units s with
    | Ok _ => Raise "RuntimeError: Incorrect string for method type"
    | Raise e => Raise e
    | OutOfFuel => OutOfFuel
    end.
Proof.
  unfold getFiberDiameter_with. unfold bind at 1. unfold get. unfold bind at 1.
  destruct (self_getFiberCenter (Some "circle"%string) show_image tol test_range units s)
    as [[c s'] | e | ]; reflexivity.
Qed.

End ApiClaims.

(** ** The radius method as a golden-section search *)

Module RadiusSearch.
Import Golden Estimator.

Section Search.

Variable removeCircle : image -> R -> R -> R -> Z -> image.
Variable getArraySum : image -> R.
Variable fuel : nat.


(** A golden-section search for a minimum of [objective], in the words of the
    specification.  The bracket [lo, hi] is probed at its two golden
    sections; the probe with the smaller value (the first one on a tie)
    decides which end is dropped, and the surviving probe and its value are
    kept for the next bracket, in which one new point is probed. *)
Definition golden_section_start (objective : R -> R) (lo hi : R) : rsearch :=
  let r1 := lo + (1 - _phi) * (hi - lo) in
  let r2 := lo + _phi * (hi - lo) in
  RSearch (Array4 lo r1 r2 hi) (Array2 (objective r1) (objective r2))
          (if Rle_dec (objective r1) (objective r2) then 0 else 1)%nat.




(** *** The objective depends on the frame only *)



(** *** The code follows the search of the specification *)





Lemma golden_section_start_index (objective : R -> R) (lo hi : R) :
  (min_index (golden_section_start objective lo hi) < 2)%nat.
Proof.
  unfold golden_section_start. cbn [min_index].
  match goal with |- context [Rle_dec ?a ?b] => destruct (Rle_dec a b) end; lia.
Qed.


(** The better of the two scores never gets worse from one bracket to the
    next. *)
Definition best (st : rsearch) : R := get2 (array_sum st) (min_index st).







(** *** The search returns *)





End Search.


Section Method.

Variable removeCircle : image -> R -> R -> R -> Z -> image.
Variable getArraySum : image -> R.
Variable super_getGaussianFit : image -> R * R * R * R * R -> image * list R.
Variable fuel : nat.


End Method.


End RadiusSearch.

(** ** The method chosen when none is given *)

Module MethodChoice.
Import Estimator.

Section Choice.

Variable removeCircle : image -> R -> R -> R -> Z -> image.
Variable getArraySum : image -> R.
Variable super_getGaussianFit : image -> R * R * R * R * R -> image * list R.
Variable fuel : nat.

Local Abbreviation getFiberCenter :=
  (getFiberCenter removeCircle getArraySum super_getGaussianFit fuel).
Local Abbreviation getFiberDiameter :=
  (getFiberDiameter removeCircle getArraySum super_getGaussianFit fuel).
Local Abbreviation self_getFiberCenter :=
  (getFiberCenter_depth removeCircle getArraySum super_getGaussianFit fuel fuel).

(** C2: without a method [getFiberCenter] returns the cached center of the
    radius method when there is one, else the cached center of the gaussian
    method when there is one, else it runs the circle method when a circle
    center is cached, and else it returns what the edge method gives; for
    every [units] it behaves as with the method string chosen in the order
    radius, gaussian, circle, with 'edge' as the fallback.  Without a method
    [getFiberDiameter] calls [getFiberCenter] with 'radius' and returns
    [_fiber_diameter_radius] when that diameter is cached, else it does so
    with 'gaussian' and [_fiber_diameter_gaussian] when that one is cached,
    and else with 'edge' and [_fiber_diameter_edge]; the circle method is not
    in this order. *)
Theorem default_method_priority (show_image : bool) (tol : R)
    (test_range : option R) (s : ImageAnalysis) :
  getFiberCenter None show_image tol test_range "pixels" s
  = (if is_some (_center_x_radius s) then
       Ok ((_center_y_radius s, _center_x_radius s), s)
     else if is_some (_center_x_gaussian s) then
       Ok ((_center_y_gaussian s, _center_x_gaussian s), s)
     else if is_some (_center_x_circle s) then
       getFiberCenterCircleMethod_with removeCircle getArraySum fuel
         self_getFiberCenter None tol test_range show_image s
     else getFiberCenterEdgeMethod show_image s) /\
  (forall units : string,
     getFiberCenter None show_image tol test_range units s
     = getFiberCenter
         (Some (ApiClaims.first_computed
                  [("radius"%string, is_some (_center_x_radius s));
                   ("gaussian"%string, is_some (_center_x_gaussian s));
                   ("circle"%string, is_some (_center_x_circle s))]
                  "edge"))
         show_image tol test_range units s) /\
  getFiberDiameter None show_image tol test_range "pixels" s
  = (if is_some (_fiber_diameter_radius s) then
       (self_getFiberCenter (Some "radius"%string) show_image tol test_range "pixels";;;
        s' <- get;; ret (_fiber_diameter_radius s')) s
     else if is_some (_fiber_diameter_gaussian s) then
       (self_getFiberCenter (Some "gaussian"%string) show_image tol test_range "pixels";;;
        s' <- get;; ret (_fiber_diameter_gaussian s')) s
     else
       (self_getFiberCenter (Some "edge"%string) show_image tol test_range "pixels";;;
        s' <- get;; ret (option_map IZR (_fiber_diameter_edge s'))) s) /\
  (forall units : string,
     getFiberDiameter None show_image tol test_range units s
     = getFiberDiameter
         (Some (ApiClaims.first_computed
                  [("radius"%string, is_some (_fiber_diameter_radius s));
                   ("gaussian"%string, is_some (_fiber_diameter_gaussian s))]
                  "edge"))
         show_image tol test_range units s).
Proof.
  split; [|split; [|split]].
  - unfold Estimator.getFiberCenter. cbn [getFiberCenter_depth].
    unfold getFiberCenter_with. unfold bind at 1. unfold get at 1.
    unfold default_center_method.
    change ("pixels" =? "pixels")%string with true. cbv iota.
    destruct (is_some (_center_x_radius s)) eqn:Er;
      [|destruct (is_some (_center_x_gaussian s)) eqn:Eg;
        [|destruct (is_some (_center_x_circle s)) eqn:Ec]].
    + change (contains "radius" "radius") with true. cbv iota.
      unfold getFiberCenterRadiusMethod_with, bind, get, ret. rewrite Er. reflexivity.
    + change (contains "radius" "gaussian") with false.
      change (contains "gaussian" "gaussian") with true. cbv iota.
      unfold getFiberCenterGaussianMethod_with, bind, get, ret. rewrite Eg. reflexivity.
    + change (contains "radius" "circle") with false.
      change (contains "gaussian" "circle") with false.
      change (contains "circle" "circle") with true. cbv iota.
      unfold bind at 1.
      destruct (getFiberCenterCircleMethod_with _ _ _ _ _ _ _ _ s) as [[c s1] | e | ];
        reflexivity.
    + change (contains "radius" "edge") with false.
      change (contains "gaussian" "edge") with false.
      change (contains "circle" "edge") with false.
      change (contains "edge" "edge") with true. cbv iota.
      unfold bind at 1.
      destruct (getFiberCenterEdgeMethod show_image s) as [[c s1] | e | ]; reflexivity.
  - intros units. reflexivity.
  - unfold Estimator.getFiberDiameter, getFiberDiameter_with.
    unfold bind at 1. unfold get at 1. unfold default_diameter_method.
    change ("pixels" =? "pixels")%string with true. cbv iota.
    destruct (is_some (_fiber_diameter_radius s)) eqn:Er;
      [|destruct (is_some (_fiber_diameter_gaussian s)) eqn:Eg].
    + change (contains "radius" "radius") with true. cbv iota.
      unfold bind, get, ret.
      destruct (getFiberCenter_depth _ _ _ _ _ _ _ _ _ _ s) as [[c s1] | e | ];
        reflexivity.
    + change (contains "radius" "gaussian") with false.
      change (contains "gaussian" "gaussian") with true. cbv iota.
      unfold bind, get, ret.
      destruct (getFiberCenter_depth _ _ _ _ _ _ _ _ _ _ s) as [[c s1] | e | ];
        reflexivity.
    + change (contains "radius" "edge") with false.
      change (contains "gaussian" "edge") with false.
      change (contains "edge" "edge") with true. cbv iota.
      unfold bind, get, ret.
      destruct (getFiberCenter_depth _ _ _ _ _ _ _ _ _ _ s) as [[c s1] | e | ];
        reflexivity.
  - intros units. reflexivity.
Qed.

End Choice.

(** An object on which the gaussian and the circle method have run and the
    radius method has not. *)
Definition gaussian_and_circle : ImageAnalysis :=
  set_gaussian
    (set_circle RadiusClaims.obj22 (Some 1) (Some 1) (Some 2) (Some 0))
    (Some RadiusClaims.img22) (Some 3) (Some 4) (Some 5).

Lemma default_method_priority_witness :
  getFiberCenter RadiusClaims.keep_image RadiusClaims.sum_image ApiClaims.no_fit 0
    None false 1 None "pixels" gaussian_and_circle
  = Ok ((Some 4, Some 3), gaussian_and_circle) /\
  getFiberDiameter RadiusClaims.keep_image RadiusClaims.sum_image ApiClaims.no_fit 1
    None false 1 None "pixels" gaussian_and_circle
  = Ok (Some 5, gaussian_and_circle).
Proof.
  split.
  - rewrite (proj1 (default_method_priority RadiusClaims.keep_image
                      RadiusClaims.sum_image ApiClaims.no_fit 0 false 1 None
                      gaussian_and_circle)).
    reflexivity.
  - rewrite (proj1 (proj2 (proj2 (default_method_priority RadiusClaims.keep_image
                      RadiusClaims.sum_image ApiClaims.no_fit 1 false 1 None
                      gaussian_and_circle)))).
    reflexivity.
Defined.

End MethodChoice.

(** ** [ModalNoise.py]: the Gini coefficient *)

Module Gini.

(** The body shared by [ModalNoise.getGiniCoefficient] and
    [FiberProperties/ModalNoise._gini_coefficient]:
    [[
    test_array = test_array.ravel()
    gini_coeff = 0.0
    for i in xrange(test_array.size):
        gini_coeff += np.abs(test_array[i] - test_array).sum()
    norm = 2.0 * test_array.sum() * test_array.size
    return gini_coeff / norm
    ]] *)
Definition getGiniCoefficient (test_array : image) : R :=
  let test_array := ravel test_array in
  let gini_coeff :=
    fold_left
      (fun gini_coeff i =>
         gini_coeff
         + np_sum (map (fun v => Rabs (nth i test_array 0 - v)) test_array))
      (seq 0 (List.length test_array)) 0 in
  let norm := 2 * np_sum test_array * INR (List.length test_array) in
  gini_coeff / norm.

Definition _gini_coefficient (test_array : image) : R :=
  getGiniCoefficient test_array.

(** The formula of the specification, for an array [a] of [n] values:
    [(sum_i sum_j |a_i - a_j|) / (2 * n * sum_i a_i)]. *)
Definition big_sum (n : nat) (f : nat -> R) : R := np_sum (map f (seq 0 n)).

Definition gini_formula (a : list R) : R :=
  let n := List.length a in
  big_sum n (fun i => big_sum n (fun j => Rabs (nth i a 0 - nth j a 0)))
  / (2 * INR n * big_sum n (fun i => nth i a 0)).

(** *** Sums *)

Lemma fold_left_add (f : nat -> R) (l : list nat) (acc : R) :
  fold_left (fun acc i => acc + f i) l acc = acc + np_sum (map f l).
Proof.
  revert acc. induction l as [|i l IH]; intros acc; simpl; [ring|].
  rewrite IH. ring.
Qed.

Lemma map_nth_seq (a : list R) :
  map (fun i => nth i a 0) (seq 0 (List.length a)) = a.
Proof.
  induction a as [|v a IH]; [reflexivity|].
  simpl. f_equal. rewrite <- seq_shift, map_map. exact IH.
Qed.

Lemma big_sum_nth (a : list R) (g : R -> R) :
  big_sum (List.length a) (fun i => g (nth i a 0)) = np_sum (map g a).
Proof.
  unfold big_sum. rewrite <- (map_map (fun i => nth i a 0) g), map_nth_seq.
  reflexivity.
Qed.

(** The double sum over the elements of the array. *)
Definition abs_diff_sum (a : list R) : R :=
  np_sum (map (fun v => np_sum (map (fun u => Rabs (v - u)) a)) a).

Lemma getGiniCoefficient_eq (test_array : image) :
  getGiniCoefficient test_array
  = abs_diff_sum (ravel test_array)
    / (2 * np_sum (ravel test_array) * INR (List.length (ravel test_array))).
Proof.
  unfold getGiniCoefficient, abs_diff_sum.
  rewrite fold_left_add, Rplus_0_l.
  rewrite <- (big_sum_nth (ravel test_array)
                (fun v => np_sum (map (fun u => Rabs (v - u)) (ravel test_array)))).
  reflexivity.
Qed.

Lemma gini_formula_eq (a : list R) :
  gini_formula a = abs_diff_sum a / (2 * INR (List.length a) * np_sum a).
Proof.
  unfold gini_formula, abs_diff_sum.
  rewrite (big_sum_nth a (fun v => v)), map_id.
  rewrite <- (big_sum_nth a (fun v => np_sum (map (fun u => Rabs (v - u)) a))).
  f_equal. unfold big_sum at 1 3. f_equal. apply map_ext. intros i.
  apply (big_sum_nth a (fun u => Rabs (nth i a 0 - u))).
Qed.

Lemma np_sum_nonneg (l : list R) :
  (forall v : R, In v l -> 0 <= v) -> 0 <= np_sum l.
Proof.
  induction l as [|v l IH]; intros H; simpl; [lra|].
  pose proof (H v (or_introl eq_refl)).
  assert (0 <= np_sum l) by (apply IH; intros u Hu; apply H; right; exact Hu).
  lra.
Qed.

Lemma inner_bound (a : list R) (v : R) :
  0 <= v -> (forall u : R, In u a -> 0 <= u) ->
  0 <= np_sum (map (fun u => Rabs (v - u)) a)
    <= INR (List.length a) * v + np_sum a.
Proof.
  intros Hv. induction a as [|u a IH]; intros H.
  - simpl. lra.
  - pose proof (H u (or_introl eq_refl)) as Hu.
    destruct IH as [IH1 IH2]; [intros w Hw; apply H; right; exact Hw|].
    change (List.length (u :: a)) with (S (List.length a)). rewrite S_INR.
    simpl map. simpl np_sum.
    assert (0 <= Rabs (v - u) <= v + u).
    { split; [apply Rabs_pos|]. apply Rabs_le. lra. }
    lra.
Qed.

Lemma outer_bound (a l : list R) :
  (forall u : R, In u a -> 0 <= u) -> (forall v : R, In v l -> 0 <= v) ->
  0 <= np_sum (map (fun v => np_sum (map (fun u => Rabs (v - u)) a)) l)
    <= INR (List.length a) * np_sum l + INR (List.length l) * np_sum a.
Proof.
  intros Ha. induction l as [|v l IH]; intros Hl.
  - simpl. lra.
  - pose proof (Hl v (or_introl eq_refl)) as Hv.
    destruct IH as [IH1 IH2]; [intros w Hw; apply Hl; right; exact Hw|].
    destruct (inner_bound a v Hv Ha) as [I1 I2].
    change (List.length (v :: l)) with (S (List.length l)). rewrite S_INR.
    simpl map. simpl np_sum. lra.
Qed.

Lemma abs_diff_sum_constant (a : list R) (c : R) :
  (forall v : R, In v a -> v = c) -> abs_diff_sum a = 0.
Proof.
  intros Hc. unfold abs_diff_sum.
  assert (E : forall l : list R, (forall v : R, In v l -> v = c) ->
            np_sum (map (fun v => np_sum (map (fun u => Rabs (v - u)) a)) l) = 0).
  { induction l as [|v l IH]; intros Hl; [reflexivity|].
    simpl. rewrite IH by (intros w Hw; apply Hl; right; exact Hw).
    rewrite (Hl v (or_introl eq_refl)).
    assert (I : forall l' : list R, (forall u : R, In u l' -> u = c) ->
              np_sum (map (fun u => Rabs (c - u)) l') = 0).
    { induction l' as [|u l' IH']; intros Hl'; [reflexivity|].
      simpl. rewrite IH' by (intros w Hw; apply Hl'; right; exact Hw).
      rewrite (Hl' u (or_introl eq_refl)).
      replace (c - c) with 0 by ring. rewrite Rabs_R0. ring. }
    rewrite (I a Hc). ring. }
  apply E. exact Hc.
Qed.

(** C6: for a nonnegative array with positive sum [getGiniCoefficient] (and
    [_gini_coefficient]) returns the value of the formula
    [(sum_i sum_j |a_i - a_j|) / (2 n sum_i a_i)]; the value lies in [0, 1];
    it is 0 when all entries are equal. *)
Theorem gini_formula_and_bounds (test_array : image) :
  (forall v : R, In v (ravel test_array) -> 0 <= v) ->
  0 < np_sum (ravel test_array) ->
  getGiniCoefficient test_array = gini_formula (ravel test_array) /\
  _gini_coefficient test_array = gini_formula (ravel test_array) /\
  0 <= getGiniCoefficient test_array <= 1 /\
  (forall c : R, (forall v : R, In v (ravel test_array) -> v = c) ->
     getGiniCoefficient test_array = 0).
Proof.
  intros Hnn Hpos.
  set (a := ravel test_array) in *.
  assert (Hn : 0 < INR (List.length a)).
  { destruct a as [|v a']; [simpl in Hpos; lra|].
    apply lt_0_INR. simpl. lia. }
  assert (E : getGiniCoefficient test_array = gini_formula a).
  { rewrite getGiniCoefficient_eq, gini_formula_eq. fold a. f_equal. ring. }
  split; [exact E|]. split; [exact E|].
  split.
  - rewrite getGiniCoefficient_eq. fold a.
    destruct (outer_bound a a Hnn Hnn) as [B1 B2]. fold (abs_diff_sum a) in B1, B2.
    assert (Hd : 0 < 2 * np_sum a * INR (List.length a)) by nra.
    split.
    + apply Rmult_le_pos; [exact B1 | left; apply Rinv_0_lt_compat; exact Hd].
    + apply Rmult_le_reg_r with (r := 2 * np_sum a * INR (List.length a)); [exact Hd|].
      unfold Rdiv. rewrite Rmult_assoc, Rinv_l by lra. lra.
  - intros c Hc. rewrite getGiniCoefficient_eq. fold a.
    rewrite (abs_diff_sum_constant a c Hc). unfold Rdiv. ring.
Qed.

Lemma gini_formula_and_bounds_witness :
  (forall v : R, In v (ravel [[1; 3]]) -> 0 <= v) /\
  0 < np_sum (ravel [[1; 3]]) /\
  0 <= getGiniCoefficient [[1; 3]] <= 1.
Proof.
  assert (Hnn : forall v : R, In v (ravel [[1; 3]]) -> 0 <= v).
  { cbn. intros v [<- | [<- | []]]; lra. }
  assert (Hpos : 0 < np_sum (ravel [[1; 3]])) by (cbn; lra).
  split; [exact Hnn|]. split; [exact Hpos|].
  exact (proj1 (proj2 (proj2 (gini_formula_and_bounds [[1; 3]] Hnn Hpos)))).
Defined.

(** The coefficient of [[1, 3]]: [(0 + 2 + 2 + 0) / (2 * 4 * 2)]. *)
Lemma gini_example : getGiniCoefficient [[1; 3]] = 1 / 4.
Proof.
  unfold getGiniCoefficient; cbn.
  replace (1 - 1) with 0 by ring. replace (3 - 3) with 0 by ring.
  replace (1 - 3) with (Ropp 2) by ring. replace (3 - 1) with 2 by ring.
  rewrite Rabs_R0, Rabs_Ropp, (Rabs_pos_eq 2) by lra. field.
Qed.

End Gini.

(** ** [ModalNoise.py]: the tophat method *)

Module Tophat.
Import Estimator.

(** A float64 as numpy returns it from a division: a number, NaN or an
    infinity. *)
Inductive float64 : Type :=
| Finite (v : R)
| NaN
| PosInf
| NegInf.

(** numpy's [a / b] on float64 scalars: a zero divisor gives NaN for [0 / 0]
    and a signed infinity otherwise, with a warning and no exception. *)
Definition np_divide (a b : R) : float64 :=
  if Req_dec_T b 0 then
    if Req_dec_T a 0 then NaN
    else if Rlt_dec 0 a then PosInf else NegInf
  else Finite (a / b).

(** [ndarray.mean()] and [ndarray.std()] of a non-empty array. *)
Definition np_mean (l : list R) : R := np_sum l / INR (List.length l).

Definition np_std (l : list R) : R :=
  sqrt (np_mean (map (fun v => Rabs (v - np_mean l) ^ 2) l)).

(** [intensity_array.std() / intensity_array.mean()]; both are NaN for an
    empty array. *)
Definition std_over_mean (intensity_array : list R) : float64 :=
  match intensity_array with
  | [] => NaN
  | _ => np_divide (np_std intensity_array) (np_mean intensity_array)
  end.

Inductive tophat_output : Type :=
| Arrays (circle_fit image_array : image)
| Scalar (v : float64).

Section Method.

(** Lines 117-125, the 'array' branch: the scaled circle and the cropped
    image, built by [circleArray] and [cropImage] of [NumpyArrayHandler]. *)
Variable array_branch : list R -> image * image.

(** [getModalNoiseTophat] and [_modalNoiseTophat] from the point where
    [intensity_array = getIntensityArray(image_array, x0, y0, radius * radius_factor)]
    is known.  The two functions have the same body. *)
Definition getModalNoiseTophat (intensity_array : list R) (output : string)
  : result tophat_output :=
  if (String.length output <? 3)%nat then Raise "ValueError: Incorrect output string"
  else if contains output "array" then
    let '(circle_fit, image_array) := array_branch intensity_array in
    Ok (Arrays circle_fit image_array)
  else if contains output "parameter" then
    Ok (Scalar (std_over_mean intensity_array))
  else Raise "ValueError: Incorrect output string".

Definition _modalNoiseTophat (intensity_array : list R) (output : string)
  : result tophat_output :=
  getModalNoiseTophat intensity_array output.

(** [output] selects the 'parameter' branch. *)
Definition parameter_mode (output : string) : Prop :=
  (String.length output <? 3)%nat = false /\
  contains output "array" = false /\
  contains output "parameter" = true.

Lemma parameter_mode_parameter : parameter_mode "parameter".
Proof. repeat split. Qed.

Lemma getModalNoiseTophat_parameter (intensity_array : list R) (output : string) :
  parameter_mode output ->
  getModalNoiseTophat intensity_array output
  = Ok (Scalar (std_over_mean intensity_array)).
Proof.
  intros (H1 & H2 & H3). unfold getModalNoiseTophat. rewrite H1, H2, H3. reflexivity.
Qed.

End Method.

(** *** Regions of zero mean *)

Lemma np_sum_zero_all_zero (l : list R) :
  (forall v : R, In v l -> 0 <= v) -> np_sum l = 0 ->
  forall v : R, In v l -> v = 0.
Proof.
  induction l as [|u l IH]; intros Hnn Hs v Hv; [contradiction|].
  simpl in Hs.
  pose proof (Hnn u (or_introl eq_refl)) as Hu.
  assert (Hl : 0 <= np_sum l).
  { apply Gini.np_sum_nonneg. intros w Hw. apply Hnn. right. exact Hw. }
  destruct Hv as [<- | Hv]; [lra|].
  apply IH; auto; [|lra]. intros w Hw. apply Hnn. right. exact Hw.
Qed.

Lemma np_sum_all_zero (l : list R) :
  (forall v : R, In v l -> v = 0) -> np_sum l = 0.
Proof.
  induction l as [|u l IH]; intros H; [reflexivity|].
  simpl. rewrite (H u (or_introl eq_refl)), IH; [ring|].
  intros w Hw. apply H. right. exact Hw.
Qed.

Lemma np_mean_zero_sum (l : list R) :
  l <> [] -> np_mean l = 0 -> np_sum l = 0.
Proof.
  intros Hl Hm. unfold np_mean in Hm.
  assert (Hn : 0 < INR (List.length l)).
  { destruct l; [contradiction|]. apply lt_0_INR. simpl. lia. }
  apply (Rmult_eq_compat_r (INR (List.length l))) in Hm.
  unfold Rdiv in Hm. rewrite Rmult_assoc, Rinv_l, Rmult_1_r, Rmult_0_l in Hm by lra.
  exact Hm.
Qed.

Lemma np_std_nonneg (l : list R) : 0 <= np_std l.
Proof. unfold np_std. apply sqrt_pos. Qed.

Lemma np_std_zero_region (l : list R) :
  l <> [] -> (forall v : R, In v l -> 0 <= v) -> np_mean l = 0 -> np_std l = 0.
Proof.
  intros Hl Hnn Hm. unfold np_std. rewrite Hm.
  pose proof (np_sum_zero_all_zero l Hnn (np_mean_zero_sum l Hl Hm)) as Hz.
  assert (E : np_sum (map (fun v => Rabs (v - 0) ^ 2) l) = 0).
  { apply np_sum_all_zero. intros w Hw. apply in_map_iff in Hw.
    destruct Hw as (v & <- & Hv). rewrite (Hz v Hv).
    replace (0 - 0) with 0 by ring. rewrite Rabs_R0. ring. }
  unfold np_mean at 1. rewrite E. unfold Rdiv. rewrite Rmult_0_l. apply sqrt_0.
Qed.

(** An 'array' branch that returns empty arrays; the 'parameter' branch does
    not call it. *)
Definition no_arrays : list R -> image * image := fun _ => ([], []).

(** C8, as stated, fails: for the region [0, 0, 0, 0] (mean 0) the tophat
    method in 'parameter' mode raises nothing and returns NaN, in both
    implementations. *)
Lemma tophat_zero_mean_counterexample :
  np_mean [0; 0; 0; 0] = 0 /\
  getModalNoiseTophat no_arrays [0; 0; 0; 0] "parameter" = Ok (Scalar NaN) /\
  _modalNoiseTophat no_arrays [0; 0; 0; 0] "parameter" = Ok (Scalar NaN).
Proof.
  assert (Hm : np_mean [0; 0; 0; 0] = 0) by (unfold np_mean; cbn; field).
  split; [exact Hm|].
  assert (E : std_over_mean [0; 0; 0; 0] = NaN).
  { unfold std_over_mean, np_divide. rewrite Hm.
    rewrite np_std_zero_region;
      [ | discriminate
        | cbn; intros v Hv; repeat destruct Hv as [<- | Hv]; try lra; contradiction
        | exact Hm ].
    destruct (Req_dec_T 0 0) as [_ | N]; [reflexivity | contradiction]. }
  unfold _modalNoiseTophat.
  rewrite (getModalNoiseTophat_parameter no_arrays _ _ parameter_mode_parameter), E.
  split; reflexivity.
Qed.

(** C8 (amended): for a region of zero mean the tophat method in 'parameter'
    mode raises no error, in either implementation; it returns the result
    of numpy's division std / mean by zero: NaN when the standard deviation
    is 0 too, which is the case for every region of nonnegative intensities,
    and +Inf otherwise. *)
Theorem tophat_zero_mean_returns_nan_or_inf
    (array_branch : list R -> image * image)
    (intensity_array : list R) (output : string) :
  intensity_array <> [] ->
  np_mean intensity_array = 0 ->
  parameter_mode output ->
  (np_std intensity_array = 0 ->
   getModalNoiseTophat array_branch intensity_array output = Ok (Scalar NaN)) /\
  (np_std intensity_array <> 0 ->
   getModalNoiseTophat array_branch intensity_array output = Ok (Scalar PosInf)) /\
  (getModalNoiseTophat array_branch intensity_array output = Ok (Scalar NaN) \/
   getModalNoiseTophat array_branch intensity_array output = Ok (Scalar PosInf)) /\
  _modalNoiseTophat array_branch intensity_array output
  = getModalNoiseTophat array_branch intensity_array output /\
  ((forall v : R, In v intensity_array -> 0 <= v) ->
   getModalNoiseTophat array_branch intensity_array output = Ok (Scalar NaN)).
Proof.
  intros Hl Hm Hmode. unfold _modalNoiseTophat.
  rewrite (getModalNoiseTophat_parameter array_branch _ _ Hmode).
  assert (E : std_over_mean intensity_array
              = if Req_dec_T (np_std intensity_array) 0 then NaN else PosInf).
  { unfold std_over_mean. destruct intensity_array as [|v l]; [contradiction|].
    unfold np_divide. rewrite Hm.
    destruct (Req_dec_T 0 0) as [_ | N]; [|contradiction].
    destruct (Req_dec_T (np_std (v :: l)) 0) as [Z | NZ]; [reflexivity|].
    pose proof (np_std_nonneg (v :: l)).
    destruct (Rlt_dec 0 (np_std (v :: l))); [reflexivity | lra]. }
  rewrite E. split; [|split; [|split; [|split]]].
  - intros Hs. destruct (Req_dec_T (np_std intensity_array) 0); [reflexivity | contradiction].
  - intros Hs. destruct (Req_dec_T (np_std intensity_array) 0); [contradiction | reflexivity].
  - destruct (Req_dec_T (np_std intensity_array) 0); auto.
  - reflexivity.
  - intros Hnn. rewrite (np_std_zero_region _ Hl Hnn Hm).
    destruct (Req_dec_T 0 0) as [_ | N]; [reflexivity | contradiction].
Qed.

(** The region [-1, 1] has mean 0 and standard deviation 1. *)
Lemma region_pm1 : np_mean [-1; 1] = 0 /\ np_std [-1; 1] = 1.
Proof.
  assert (Hm : np_mean [-1; 1] = 0) by (unfold np_mean; cbn; field).
  split; [exact Hm|].
  unfold np_std. rewrite Hm. cbn [map].
  replace (-1 - 0) with (-1) by ring. replace (1 - 0) with 1 by ring.
  rewrite (Rabs_left (-1)) by lra. rewrite (Rabs_right 1) by lra.
  unfold np_mean. cbn.
  replace ((- -1 * (- -1 * 1) + (1 * (1 * 1) + 0)) / (1 + 1)) with 1 by field.
  apply sqrt_1.
Qed.

Lemma tophat_zero_mean_returns_nan_or_inf_witness :
  [-1; 1] <> [] /\ np_mean [-1; 1] = 0 /\ parameter_mode "parameter" /\
  getModalNoiseTophat no_arrays [-1; 1] "parameter" = Ok (Scalar PosInf).
Proof.
  assert (Hl : [-1; 1] <> ([] : list R)) by discriminate.
  destruct region_pm1 as [Hm Hs].
  split; [exact Hl|]. split; [exact Hm|]. split; [exact parameter_mode_parameter|].
  apply (proj1 (proj2 (tophat_zero_mean_returns_nan_or_inf
                         no_arrays [-1; 1] "parameter"
                         Hl Hm parameter_mode_parameter))).
  rewrite Hs. lra.
Defined.

End Tophat.

(** ** [ModalNoise.py]: the 'array' output of the fft method *)

Module FFT.
Import Estimator.

(** [l[k] += d]; an index out of range raises in numpy and does not occur
    below, where [k <= max_freq < len(l)]. *)
Fixpoint add_at (l : list R) (k : nat) (d : R) : list R :=
  match l, k with
  | [], _ => []
  | v :: t, O => (v + d) :: t
  | v :: t, S k' => v :: add_at t k' d
  end.

(** [freq = np.sqrt(i**2 + j**2)] and [int(freq / bin_width)] with
    [bin_width = 1]. *)
Definition freq (i j : nat) : R := sqrt (INR (i ^ 2 + j ^ 2)).

Definition bin_of (i j : nat) : nat := Z.to_nat (py_int (freq i j / 1)).

(** The body of the two nested loops over [fft_list] and [weight_list]. *)
Definition bin_step (fft_array : nat -> nat -> R) (max_freq : nat)
    (acc : list R * list R) (ij : nat * nat) : list R * list R :=
  let '(i, j) := ij in
  let '(fft_list, weight_list) := acc in
  if Rleb (freq i j) (INR max_freq) then
    (add_at fft_list (bin_of i j) (fft_array j i + fft_array i j),
     add_at weight_list (bin_of i j) 2)
  else acc.

(** [for i in xrange(max_freq): for j in xrange(i+1)] *)
Definition triangle (max_freq : nat) : list (nat * nat) :=
  flat_map (fun i => map (fun j => (i, j)) (seq 0 (i + 1))) (seq 0 max_freq).

Definition bins (fft_array : nat -> nat -> R) (max_freq list_len : nat)
  : list R * list R :=
  fold_left (bin_step fft_array max_freq) (triangle max_freq)
            (repeat 0 list_len, repeat 0 list_len).

(** [mask = weight_list > 0.0] applied to a list that runs along
    [weight_list]. *)
Definition masked {A : Type} (l : list A) (weight_list : list R) : list (A * R) :=
  filter (fun aw => Rgtb (snd aw) 0) (combine l weight_list).

(** The four quadrants around [(fy0, fx0)], mirrored onto the bottom right one
    and averaged. *)
Definition fold_quadrants (fft_array : nat -> nat -> R) (fy0 fx0 : nat)
  : nat -> nat -> R :=
  fun a b =>
    (fft_array (fy0 + a)%nat (fx0 + b)%nat + fft_array (fy0 + a)%nat (fx0 - b)%nat
     + fft_array (fy0 - a)%nat (fx0 - b)%nat + fft_array (fy0 - a)%nat (fx0 + b)%nat)
    / 4.

Section Spectrum.

(** [fft2_abs_shift image n row col] is
    [np.fft.fftshift(np.abs(np.fft.fft2(image, s=(n, n), norm='ortho')))[row, col]]. *)
Variable fft2_abs_shift : image -> nat -> nat -> nat -> R.

(** The 'array' branch of both implementations, from the windowed image on;
    they differ in [fft_length] and in the reduction [normalizer] whose value
    divides the binned spectrum. *)
Definition fft_array_output (fft_length : nat) (normalizer : list R -> R)
    (image_array : image) (pixel_size magnification : R) : list R * list R :=
  let fft_array := fft2_abs_shift image_array fft_length in
  let fx0 := (fft_length / 2)%nat in
  let fy0 := (fft_length / 2)%nat in
  let max_freq := (fft_length / 2)%nat in
  let list_len := (max_freq + 1)%nat in
  let freq_list := map INR (seq 0 list_len) in
  let fft_array := fold_quadrants fft_array fy0 fx0 in
  let '(fft_list, weight_list) := bins fft_array max_freq list_len in
  let freq_list := map fst (masked freq_list weight_list) in
  let fft_list := map (fun fw => fst fw / snd fw) (masked fft_list weight_list) in
  let fft_list := map (fun v => v / normalizer fft_list) fft_list in
  let freq_list :=
    map (fun v => v / (INR fft_length * pixel_size / magnification)) freq_list in
  (fft_list, freq_list).

(** [FiberProperties/ModalNoise.py], [_modalNoiseFFT]:
    [fft_length = 2500], [fft_list /= fft_list.sum()]. *)
Definition _modalNoiseFFT_array (image_array : image) (pixel_size magnification : R)
  : list R * list R :=
  fft_array_output 2500 np_sum image_array pixel_size magnification.

(** [ModalNoise.py], [getModalNoiseFFT]: [height, width = image_array.shape],
    [fft_length = 8 * min(height, width)], [fft_list /= fft_list.max()]. *)
Definition getModalNoiseFFT_array (image_array : image) (pixel_size magnification : R)
  : list R * list R :=
  let height := List.length image_array in
  let width := List.length (hd [] image_array) in
  fft_array_output (8 * Nat.min height width) np_max
                   image_array pixel_size magnification.

End Spectrum.

(** *** Bins in integer arithmetic *)

Lemma sqrt_INR_bounds (n : nat) :
  INR (Nat.sqrt n) <= sqrt (INR n) < INR (Nat.sqrt n) + 1.
Proof.
  destruct (Nat.sqrt_spec n (Nat.le_0_l n)) as [Hlo Hhi].
  split.
  - rewrite <- (sqrt_square (INR (Nat.sqrt n))) by apply pos_INR.
    apply sqrt_le_1_alt. rewrite <- mult_INR. apply le_INR. exact Hlo.
  - rewrite <- S_INR.
    rewrite <- (sqrt_square (INR (S (Nat.sqrt n)))) by apply pos_INR.
    apply sqrt_lt_1_alt. split; [apply pos_INR|].
    rewrite <- mult_INR. apply lt_INR. exact Hhi.
Qed.

Lemma bin_of_eq (i j : nat) : bin_of i j = Nat.sqrt (i ^ 2 + j ^ 2).
Proof.
  unfold bin_of, freq, py_int.
  destruct (sqrt_INR_bounds (i ^ 2 + j ^ 2)) as [Hlo Hhi].
  replace (sqrt (INR (i ^ 2 + j ^ 2)) / 1) with (sqrt (INR (i ^ 2 + j ^ 2)))
    by (unfold Rdiv; rewrite Rinv_1, Rmult_1_r; reflexivity).
  destruct (Rle_dec 0 (sqrt (INR (i ^ 2 + j ^ 2)))) as [_ | N];
    [|exfalso; apply N; apply sqrt_pos].
  rewrite <- (Int_part_spec _ (Z.of_nat (Nat.sqrt (i ^ 2 + j ^ 2)))).
  - apply Nat2Z.id.
  - rewrite <- INR_IZR_INZ. lra.
Qed.

Lemma in_range_eq (i j max_freq : nat) :
  Rleb (freq i j) (INR max_freq) = (i ^ 2 + j ^ 2 <=? max_freq ^ 2)%nat.
Proof.
  unfold freq.
  destruct (Nat.leb_spec (i ^ 2 + j ^ 2) (max_freq ^ 2)) as [Hle | Hgt].
  - apply Rleb_true.
    rewrite <- (sqrt_square (INR max_freq)) by apply pos_INR.
    apply sqrt_le_1_alt. rewrite <- mult_INR. apply le_INR.
    rewrite (Nat.pow_2_r max_freq) in Hle. exact Hle.
  - apply Rleb_false.
    rewrite <- (sqrt_square (INR max_freq)) by apply pos_INR.
    apply sqrt_lt_1_alt. split; [apply Rmult_le_pos; apply pos_INR|].
    rewrite <- mult_INR. apply lt_INR.
    rewrite (Nat.pow_2_r max_freq) in Hgt. exact Hgt.
Qed.


(** *** The weights of the bins *)

Lemma add_at_length (l : list R) (k : nat) (d : R) :
  List.length (add_at l k d) = List.length l.
Proof.
  revert k. induction l as [|v l IH]; intros [|k]; simpl; auto.
Qed.

Lemma nth_add_at_same (l : list R) (k : nat) (d : R) :
  (k < List.length l)%nat -> nth k (add_at l k d) 0 = nth k l 0 + d.
Proof.
  revert k. induction l as [|v l IH]; intros [|k] Hk; simpl in *; try lia; auto.
  apply IH. lia.
Qed.

Lemma nth_add_at_le (l : list R) (k k' : nat) (d : R) :
  0 <= d -> nth k' l 0 <= nth k' (add_at l k d) 0.
Proof.
  intros Hd. revert k k'.
  induction l as [|v l IH]; intros [|k] [|k']; simpl; try lra; auto.
Qed.

Lemma bin_step_length (fft_array : nat -> nat -> R) (max_freq : nat)
    (acc : list R * list R) (ij : nat * nat) :
  List.length (fst (bin_step fft_array max_freq acc ij)) = List.length (fst acc) /\
  List.length (snd (bin_step fft_array max_freq acc ij)) = List.length (snd acc).
Proof.
  unfold bin_step. destruct ij as [i j], acc as [f w].
  destruct (Rleb (freq i j) (INR max_freq)); simpl;
    rewrite ?add_at_length; auto.
Qed.

Lemma bin_step_weight_le (fft_array : nat -> nat -> R) (max_freq : nat)
    (acc : list R * list R) (ij : nat * nat) (k : nat) :
  nth k (snd acc) 0 <= nth k (snd (bin_step fft_array max_freq acc ij)) 0.
Proof.
  unfold bin_step. destruct ij as [i j], acc as [f w].
  destruct (Rleb (freq i j) (INR max_freq)); simpl; [|lra].
  apply nth_add_at_le. lra.
Qed.

Lemma fold_bin_step_length (fft_array : nat -> nat -> R) (max_freq : nat)
    (l : list (nat * nat)) (acc : list R * list R) :
  List.length (fst (fold_left (bin_step fft_array max_freq) l acc))
  = List.length (fst acc) /\
  List.length (snd (fold_left (bin_step fft_array max_freq) l acc))
  = List.length (snd acc).
Proof.
  revert acc. induction l as [|p l IH]; intros acc; simpl; [auto|].
  destruct (IH (bin_step fft_array max_freq acc p)) as [H1 H2].
  destruct (bin_step_length fft_array max_freq acc p) as [H3 H4].
  split; congruence.
Qed.

Lemma fold_bin_step_weight_le (fft_array : nat -> nat -> R) (max_freq : nat)
    (l : list (nat * nat)) (acc : list R * list R) (k : nat) :
  nth k (snd acc) 0
  <= nth k (snd (fold_left (bin_step fft_array max_freq) l acc)) 0.
Proof.
  revert acc. induction l as [|p l IH]; intros acc; simpl; [lra|].
  pose proof (bin_step_weight_le fft_array max_freq acc p k).
  pose proof (IH (bin_step fft_array max_freq acc p)). lra.
Qed.

(** The pair [(k, 0)] falls into bin [k]. *)
Lemma bin_step_axis (fft_array : nat -> nat -> R) (max_freq : nat)
    (acc : list R * list R) (k : nat) :
  (k < max_freq)%nat -> (k < List.length (snd acc))%nat ->
  nth k (snd (bin_step fft_array max_freq acc (k, 0%nat))) 0
  = nth k (snd acc) 0 + 2.
Proof.
  intros Hk Hl. unfold bin_step. destruct acc as [f w].
  rewrite in_range_eq, bin_of_eq.
  replace (k ^ 2 + 0 ^ 2)%nat with (k * k)%nat by (simpl; lia).
  rewrite Nat.sqrt_square.
  assert (E : (k * k <=? max_freq ^ 2)%nat = true).
  { apply Nat.leb_le. rewrite Nat.pow_2_r. apply Nat.mul_le_mono; lia. }
  rewrite E. simpl. apply nth_add_at_same. exact Hl.
Qed.

Lemma fold_bin_step_axis (fft_array : nat -> nat -> R) (max_freq : nat)
    (l : list (nat * nat)) (acc : list R * list R) (k : nat) :
  (k < max_freq)%nat -> (k < List.length (snd acc))%nat ->
  In (k, 0%nat) l ->
  nth k (snd acc) 0 + 2
  <= nth k (snd (fold_left (bin_step fft_array max_freq) l acc)) 0.
Proof.
  intros Hk. revert acc. induction l as [|p l IH]; intros acc Hl Hin; [contradiction|].
  simpl. destruct Hin as [-> | Hin].
  - rewrite <- (bin_step_axis fft_array max_freq acc k Hk Hl).
    apply fold_bin_step_weight_le.
  - pose proof (bin_step_weight_le fft_array max_freq acc p k).
    assert (Hl' : (k < List.length (snd (bin_step fft_array max_freq acc p)))%nat).
    { destruct (bin_step_length fft_array max_freq acc p) as [_ ->]. exact Hl. }
    pose proof (IH _ Hl' Hin). lra.
Qed.

Lemma axis_in_triangle (max_freq k : nat) :
  (k < max_freq)%nat -> In (k, 0%nat) (triangle max_freq).
Proof.
  intros Hk. unfold triangle. apply in_flat_map. exists k. split.
  - apply in_seq. lia.
  - apply in_map_iff. exists 0%nat. split; [reflexivity|]. apply in_seq. lia.
Qed.

Lemma nth_repeat_0 (n k : nat) : nth k (repeat 0 n) 0 = 0.
Proof.
  revert k. induction n as [|n IH]; intros [|k]; simpl; auto.
Qed.

Lemma bins_spec (fft_array : nat -> nat -> R) (max_freq : nat) :
  List.length (fst (bins fft_array max_freq (max_freq + 1))) = (max_freq + 1)%nat /\
  List.length (snd (bins fft_array max_freq (max_freq + 1))) = (max_freq + 1)%nat /\
  forall k : nat, (k < max_freq)%nat ->
    0 < nth k (snd (bins fft_array max_freq (max_freq + 1))) 0.
Proof.
  unfold bins.
  destruct (fold_bin_step_length fft_array max_freq (triangle max_freq)
              (repeat 0 (max_freq + 1), repeat 0 (max_freq + 1))) as [H1 H2].
  cbn [fst snd] in H1, H2. rewrite repeat_length in H1, H2.
  split; [exact H1|]. split; [exact H2|].
  intros k Hk.
  pose proof (fold_bin_step_axis fft_array max_freq (triangle max_freq)
                (repeat 0 (max_freq + 1), repeat 0 (max_freq + 1)) k Hk) as H.
  cbn [fst snd] in H. rewrite repeat_length, nth_repeat_0 in H.
  specialize (H ltac:(lia) (axis_in_triangle max_freq k Hk)). lra.
Qed.

(** *** The length of the masked lists *)

Lemma filter_first_n {A : Type} (pred : A -> bool) (d : A) (n : nat) (l : list A) :
  (n <= List.length l)%nat ->
  (forall k : nat, (k < n)%nat -> pred (nth k l d) = true) ->
  (n <= List.length (filter pred l))%nat.
Proof.
  revert l. induction n as [|n IH]; intros l Hl Hp; [lia|].
  destruct l as [|a l]; [simpl in Hl; lia|].
  pose proof (Hp 0%nat ltac:(lia)) as H0. simpl in H0.
  simpl. rewrite H0. simpl.
  apply le_n_S. apply IH; [simpl in Hl; lia|].
  intros k Hk. apply (Hp (S k)). lia.
Qed.

Lemma masked_length {A : Type} (d : A) (l : list A) (weight_list : list R) (n : nat) :
  List.length l = (n + 1)%nat -> List.length weight_list = (n + 1)%nat ->
  (forall k : nat, (k < n)%nat -> 0 < nth k weight_list 0) ->
  (n <= List.length (masked l weight_list) <= n + 1)%nat.
Proof.
  intros Hl Hw Hpos. unfold masked. split.
  - apply (filter_first_n _ (d, 0)).
    + rewrite length_combine. lia.
    + intros k Hk. rewrite combine_nth by lia. simpl.
      apply Rgtb_true. specialize (Hpos k Hk). lra.
  - pose proof (filter_length_le (fun aw : A * R => Rgtb (snd aw) 0)
                  (combine l weight_list)) as H.
    rewrite length_combine in H. lia.
Qed.

Section Lengths.

Variable fft2_abs_shift : image -> nat -> nat -> nat -> R.

Lemma fft_array_output_length (fft_length : nat) (normalizer : list R -> R)
    (image_array : image) (pixel_size magnification : R) :
  (fft_length / 2
   <= List.length (fst (fft_array_output fft2_abs_shift fft_length normalizer
                          image_array pixel_size magnification))
   <= fft_length / 2 + 1)%nat.
Proof.
  unfold fft_array_output.
  set (Q := fold_quadrants _ _ _).
  destruct (bins_spec Q (fft_length / 2)) as (H1 & H2 & Hpos).
  destruct (bins Q (fft_length / 2) (fft_length / 2 + 1)) as [fft_list weight_list].
  cbn [fst snd] in *. rewrite !length_map.
  apply (masked_length 0); assumption.
Qed.

End Lengths.


(** *** A flat spectrum *)

(** The spectrum with magnitude 1 at every frequency. *)
Definition flat_spectrum : image -> nat -> nat -> nat -> R := fun _ _ _ _ => 1.

Lemma fold_quadrants_flat (fy0 fx0 a b : nat) :
  fold_quadrants (fun _ _ => 1) fy0 fx0 a b = 1.
Proof. unfold fold_quadrants. field. Qed.

Lemma fold_bin_step_flat (fft_array : nat -> nat -> R) (max_freq : nat)
    (l : list (nat * nat)) (acc : list R * list R) :
  (forall a b : nat, fft_array a b = 1) ->
  fst acc = snd acc ->
  fst (fold_left (bin_step fft_array max_freq) l acc)
  = snd (fold_left (bin_step fft_array max_freq) l acc).
Proof.
  intros Hflat. revert acc. induction l as [|[i j] l IH]; intros acc E; [exact E|].
  simpl. apply IH. destruct acc as [f w]. simpl in E. subst w.
  unfold bin_step. destruct (Rleb (freq i j) (INR max_freq)); [|reflexivity].
  simpl. rewrite !Hflat. replace (1 + 1) with 2 by ring. reflexivity.
Qed.

Lemma masked_ratio_flat (w : list R) (v : R) :
  In v (map (fun fw : R * R => fst fw / snd fw) (masked w w)) -> v = 1.
Proof.
  intros H. apply in_map_iff in H. destruct H as ([f u] & <- & Hin).
  unfold masked in Hin. apply filter_In in Hin. destruct Hin as [Hin Hpos].
  simpl in *. apply Rgtb_true in Hpos.
  assert (E : f = u).
  { clear Hpos. revert Hin. induction w as [|a w IH]; simpl; intros H;
      [contradiction|]. destruct H as [H | H]; [congruence | auto]. }
  subst f. field. lra.
Qed.

Lemma all_ones (l : list R) :
  (forall v : R, In v l -> v = 1) -> l = repeat 1 (List.length l).
Proof.
  induction l as [|v l IH]; intros H; [reflexivity|].
  simpl. rewrite (H v (or_introl eq_refl)). f_equal.
  apply IH. intros u Hu. apply H. right. exact Hu.
Qed.

Lemma np_sum_ones (n : nat) : np_sum (repeat 1 n) = INR n.
Proof.
  induction n as [|n IH]; [reflexivity|].
  rewrite S_INR. simpl repeat. simpl np_sum. rewrite IH. ring.
Qed.

Lemma np_max_ones (n : nat) : np_max (repeat 1 (S n)) = 1.
Proof.
  simpl. induction n as [|n IH]; [reflexivity|].
  simpl. rewrite Rmax_left by lra. exact IH.
Qed.

Section Normalizers.

(** With a flat spectrum the binned and averaged spectrum is 1 in every kept
    bin; dividing by its sum and dividing by its maximum give different
    lists as soon as two bins are kept. *)
Lemma flat_outputs (fft_length : nat) (normalizer : list R -> R)
    (image_array : image) (pixel_size magnification : R) :
  exists n : nat,
    (fft_length / 2 <= n)%nat /\
    fst (fft_array_output flat_spectrum fft_length normalizer
           image_array pixel_size magnification)
    = map (fun v => v / normalizer (repeat 1 n)) (repeat 1 n).
Proof.
  pose proof (fft_array_output_length flat_spectrum fft_length normalizer
                image_array pixel_size magnification) as [Hlen _].
  revert Hlen. unfold fft_array_output.
  set (Q := fold_quadrants _ _ _).
  assert (HQ : forall a b : nat, Q a b = 1).
  { intros a b. unfold Q, flat_spectrum. apply fold_quadrants_flat. }
  pose proof (fold_bin_step_flat Q (fft_length / 2) (triangle (fft_length / 2))
                (repeat 0 (fft_length / 2 + 1), repeat 0 (fft_length / 2 + 1))
                HQ eq_refl) as E.
  fold (bins Q (fft_length / 2) (fft_length / 2 + 1)) in E.
  destruct (bins Q (fft_length / 2) (fft_length / 2 + 1)) as [fft_list weight_list].
  cbn [fst snd] in *. subst fft_list.
  set (avg := map (fun fw : R * R => fst fw / snd fw) (masked weight_list weight_list)).
  rewrite length_map. intros Hlen.
  exists (List.length avg). split; [exact Hlen|].
  rewrite <- (all_ones avg); [reflexivity|].
  intros v Hv. exact (masked_ratio_flat weight_list v Hv).
Qed.

Lemma flat_sum_max_differ (image_array : image) (pixel_size magnification : R) :
  fst (fft_array_output flat_spectrum 2500 np_sum image_array pixel_size magnification)
  <> fst (fft_array_output flat_spectrum 2500 np_max image_array pixel_size magnification).
Proof.
  destruct (flat_outputs 2500 np_sum image_array pixel_size magnification)
    as (n & Hn & En).
  destruct (flat_outputs 2500 np_max image_array pixel_size magnification)
    as (n' & Hn' & En').
  rewrite En, En'. clear En En'.
  change (2500 / 2)%nat with 1250%nat in Hn, Hn'.
  destruct n as [|n]; [lia|]. destruct n' as [|n']; [lia|].
  rewrite np_sum_ones, np_max_ones.
  assert (Hpos : 2 <= INR (S n)).
  { replace 2 with (INR 2) by (simpl; ring). apply le_INR. lia. }
  set (x := INR (S n)) in *. clearbody x.
  cbn [repeat map]. intros H. injection H as H _.
  assert (Hx : 1 / x * x = 1) by (field; lra).
  rewrite H in Hx. lra.
Qed.

End Normalizers.

End FFT.

(** ** More on the edge method: what the two scans find *)

Module EdgeFacts.
Import Estimator.

(** The outcome of a scan over the indices below [k]: nothing lit; one lit
    index and nothing after it; or a first and a last lit index. *)
Definition scan_outcome (lit : nat -> bool) (k : nat) (acc : Z * Z) : Prop :=
  (acc = ((-1)%Z, (-1)%Z) /\ forall i : nat, (i < k)%nat -> lit i = false) \/
  (exists f : nat,
     acc = (Z.of_nat f, (-1)%Z) /\ (f < k)%nat /\ lit f = true /\
     forall i : nat, (i < k)%nat -> i <> f -> lit i = false) \/
  (exists f l : nat,
     acc = (Z.of_nat f, Z.of_nat l) /\ (f < l < k)%nat /\
     lit f = true /\ lit l = true /\
     forall i : nat, (i < k)%nat -> (i < f \/ l < i)%nat -> lit i = false).

Lemma scan_S (lit : nat -> bool) (k : nat) :
  scan lit (S k) = scan_step lit (scan lit k) k.
Proof.
  unfold scan. rewrite seq_S, fold_left_app. reflexivity.
Qed.

Lemma scan_outcome_holds (lit : nat -> bool) (k : nat) :
  scan_outcome lit k (scan lit k).
Proof.
  induction k as [|k IH].
  - left. split; [reflexivity|]. intros i Hi. lia.
  - rewrite scan_S. unfold scan_step.
    destruct IH as [[-> Hd] | [(f & -> & Hf & Lf & Hd) | (f & l & -> & Hfl & Lf & Ll & Hd)]].
    + cbn. destruct (lit k) eqn:Lk.
      * right; left. exists k. repeat split; auto.
        intros i Hi Hne. apply Hd. lia.
      * left. split; [reflexivity|]. intros i Hi.
        destruct (Nat.eq_dec i k) as [-> | Hne]; [exact Lk | apply Hd; lia].
    + assert (E : (Z.of_nat f <? 0)%Z = false) by (apply Z.ltb_ge; lia).
      rewrite E. destruct (lit k) eqn:Lk.
      * right; right. exists f, k. repeat split; auto; try lia.
        intros i Hi Hout. apply Hd; lia.
      * right; left. exists f. repeat split; auto.
        intros i Hi Hne.
        destruct (Nat.eq_dec i k) as [-> | Hne']; [exact Lk | apply Hd; lia].
    + assert (E : (Z.of_nat f <? 0)%Z = false) by (apply Z.ltb_ge; lia).
      rewrite E. destruct (lit k) eqn:Lk.
      * right; right. exists f, k. repeat split; auto; try lia.
        intros i Hi Hout. apply Hd; lia.
      * right; right. exists f, l. repeat split; auto; try lia.
        intros i Hi Hout.
        destruct (Nat.eq_dec i k) as [-> | Hne']; [exact Lk | apply Hd; lia].
Qed.

(** A band of lit indices [a .. b] with [a < b] is found exactly. *)
Lemma scan_band (lit : nat -> bool) (n a b : nat) :
  (a < b < n)%nat ->
  (forall i : nat, (i < n)%nat -> lit i = true <-> (a <= i <= b)%nat) ->
  scan lit n = (Z.of_nat a, Z.of_nat b).
Proof.
  intros Hab Hlit.
  assert (La : lit a = true) by (apply Hlit; lia).
  assert (Lb : lit b = true) by (apply Hlit; lia).
  destruct (scan_outcome_holds lit n)
    as [[_ Hd] | [(f & _ & Hf & Lf & Hd) | (f & l & -> & Hfl & Lf & Ll & Hd)]].
  - rewrite Hd in La by lia. discriminate.
  - destruct (Nat.eq_dec a f) as [<- | Hne].
    + rewrite (Hd b) in Lb by lia. discriminate.
    + rewrite (Hd a) in La by lia. discriminate.
  - assert (f = a).
    { apply Hlit in Lf; [|lia].
      destruct (Nat.lt_ge_cases a f) as [Hlt | Hge]; [|lia].
      rewrite (Hd a) in La by lia. discriminate. }
    assert (l = b).
    { apply Hlit in Ll; [|lia].
      destruct (Nat.lt_ge_cases l b) as [Hlt | Hge]; [|lia].
      rewrite (Hd b) in Lb by lia. discriminate. }
    subst. reflexivity.
Qed.

(** A single lit index leaves the second result at [-1]. *)
Lemma scan_single (lit : nat -> bool) (n a : nat) :
  (a < n)%nat ->
  (forall i : nat, (i < n)%nat -> lit i = true <-> i = a) ->
  scan lit n = (Z.of_nat a, (-1)%Z).
Proof.
  intros Ha Hlit.
  assert (La : lit a = true) by (apply Hlit; auto).
  destruct (scan_outcome_holds lit n)
    as [[_ Hd] | [(f & -> & Hf & Lf & Hd) | (f & l & _ & Hfl & Lf & Ll & Hd)]].
  - rewrite Hd in La by lia. discriminate.
  - apply Hlit in Lf; [|lia]. subst. reflexivity.
  - apply Hlit in Lf; [|lia]. apply Hlit in Ll; lia.
Qed.

(** What [setFiberEdges] stores, in every case: no lit column leaves both
    edges at -1; one lit column is the left edge and the right edge stays -1;
    otherwise the edges are the first and the last lit column.  The same
    holds for the rows. *)
Theorem edges_are_first_and_last_lit (s : ImageAnalysis) :
  exists s' : ImageAnalysis,
    setFiberCenterEdgeMethod s = Ok (tt, s') /\
    (exists l r' : Z,
       _left_edge s' = Some l /\ _right_edge s' = Some r' /\
       scan_outcome (column_lit s) (_image_width s) (l, r')) /\
    (exists t b : Z,
       _top_edge s' = Some t /\ _bottom_edge s' = Some b /\
       scan_outcome (row_lit s) (_image_height s) (t, b)).
Proof.
  exists (edge_result s). split; [apply setFiberCenterEdgeMethod_run|].
  unfold edge_result; cbn. split.
  - do 2 eexists. split; [reflexivity|]. split; [reflexivity|].
    rewrite <- surjective_pairing. apply scan_outcome_holds.
  - do 2 eexists. split; [reflexivity|]. split; [reflexivity|].
    rewrite <- surjective_pairing. apply scan_outcome_holds.
Qed.

(** An image whose lit columns are exactly [a .. b] and whose lit rows are
    exactly [c .. d] (a spot with more than one lit line each way): the edge
    method finds these edges, the center is the pair of midpoints and the
    diameter the larger of the two extents. *)
Theorem edge_method_on_spot (s : ImageAnalysis) (a b c d : nat) :
  (a < b < _image_width s)%nat ->
  (c < d < _image_height s)%nat ->
  (forall i : nat, (i < _image_width s)%nat ->
     column_lit s i = true <-> (a <= i <= b)%nat) ->
  (forall j : nat, (j < _image_height s)%nat ->
     row_lit s j = true <-> (c <= j <= d)%nat) ->
  exists s' : ImageAnalysis,
    setFiberCenterEdgeMethod s = Ok (tt, s') /\
    _left_edge s' = Some (Z.of_nat a) /\ _right_edge s' = Some (Z.of_nat b) /\
    _top_edge s' = Some (Z.of_nat c) /\ _bottom_edge s' = Some (Z.of_nat d) /\
    _center_x_edge s' = Some ((INR a + INR b) / 2) /\
    _center_y_edge s' = Some ((INR c + INR d) / 2) /\
    _fiber_diameter_edge s' = Some (Z.of_nat (Nat.max (b - a) (d - c))).
Proof.
  intros Hab Hcd Hcol Hrow.
  exists (edge_result s). split; [apply setFiberCenterEdgeMethod_run|].
  unfold edge_result; cbn.
  rewrite (scan_band _ _ a b Hab Hcol), (scan_band _ _ c d Hcd Hrow). cbn [fst snd].
  rewrite <- !INR_IZR_INZ.
  repeat split. f_equal. lia.
Qed.

(** An image with a single lit column [a] and a single lit row [c]: the right
    and bottom edges stay at -1, so the center is ((c - 1) / 2, (a - 1) / 2)
    and the diameter is negative. *)
Theorem edge_method_on_single_lines (s : ImageAnalysis) (a c : nat) :
  (a < _image_width s)%nat ->
  (c < _image_height s)%nat ->
  (forall i : nat, (i < _image_width s)%nat -> column_lit s i = true <-> i = a) ->
  (forall j : nat, (j < _image_height s)%nat -> row_lit s j = true <-> j = c) ->
  exists s' : ImageAnalysis,
    setFiberCenterEdgeMethod s = Ok (tt, s') /\
    _right_edge s' = Some (-1)%Z /\ _bottom_edge s' = Some (-1)%Z /\
    _center_x_edge s' = Some ((INR a - 1) / 2) /\
    _center_y_edge s' = Some ((INR c - 1) / 2) /\
    exists diameter : Z,
      _fiber_diameter_edge s' = Some diameter /\ (diameter < 0)%Z.
Proof.
  intros Ha Hc Hcol Hrow.
  exists (edge_result s). split; [apply setFiberCenterEdgeMethod_run|].
  unfold edge_result; cbn.
  rewrite (scan_single _ _ a Ha Hcol), (scan_single _ _ c Hc Hrow). cbn [fst snd].
  rewrite <- !INR_IZR_INZ.
  repeat split; try (f_equal; lra).
  eexists. split; [reflexivity|]. lia.
Qed.


Definition img33 : image := [[0; 0; 0]; [0; 5; 5]; [0; 5; 5]].
Definition obj33 : ImageAnalysis := blank img33 img33 1 10 1.

Lemma lit_img33 :
  column_lit obj33 0 = false /\ column_lit obj33 1 = true /\
  column_lit obj33 2 = true /\
  row_lit obj33 0 = false /\ row_lit obj33 1 = true /\ row_lit obj33 2 = true.
Proof.
  unfold column_lit, row_lit, Rgtb, np_max; cbn. unfold Rmax.
  repeat split; Rdecide; reflexivity.
Qed.

Lemma columns_img33 (i : nat) :
  (i < _image_width obj33)%nat -> column_lit obj33 i = true <-> (1 <= i <= 2)%nat.
Proof.
  destruct lit_img33 as (C0 & C1 & C2 & _). intros Hi. cbn in Hi.
  destruct i as [|[|[|i]]]; [rewrite C0 | rewrite C1 | rewrite C2 | lia];
    split; intros H; try discriminate; try lia; reflexivity.
Qed.

Lemma rows_img33 (j : nat) :
  (j < _image_height obj33)%nat -> row_lit obj33 j = true <-> (1 <= j <= 2)%nat.
Proof.
  destruct lit_img33 as (_ & _ & _ & R0 & R1 & R2). intros Hj. cbn in Hj.
  destruct j as [|[|[|j]]]; [rewrite R0 | rewrite R1 | rewrite R2 | lia];
    split; intros H; try discriminate; try lia; reflexivity.
Qed.

Lemma span_img33 : (1 < 2 < _image_width obj33)%nat /\ (1 < 2 < _image_height obj33)%nat.
Proof. cbn. lia. Qed.

(** The edge method puts the center of [img33] at (1.5, 1.5). *)
Lemma edge_center_obj33 : edge_center obj33 = (Some (3 / 2), Some (3 / 2)).
Proof.
  destruct span_img33 as [Hab Hcd].
  unfold edge_center, edge_state.
  change (is_some (_center_y_edge obj33)) with false. cbv iota.
  unfold edge_result.
  rewrite (scan_band _ _ 1 2 Hab columns_img33), (scan_band _ _ 1 2 Hcd rows_img33).
  cbn. f_equal; f_equal; lra.
Qed.

Lemma edge_method_on_spot_witness :
  exists s' : ImageAnalysis,
    setFiberCenterEdgeMethod obj33 = Ok (tt, s') /\
    _center_x_edge s' = Some ((INR 1 + INR 2) / 2) /\
    _fiber_diameter_edge s' = Some (Z.of_nat (Nat.max (2 - 1) (2 - 1))).
Proof.
  destruct span_img33 as [Hab Hcd].
  destruct (edge_method_on_spot obj33 1 2 1 2 Hab Hcd columns_img33 rows_img33)
    as (s' & Hs' & _ & _ & _ & _ & Hx & _ & Hd).
  exists s'. repeat split; assumption.
Defined.

Lemma edge_method_on_single_lines_witness :
  exists s' : ImageAnalysis,
    setFiberCenterEdgeMethod RadiusClaims.obj22 = Ok (tt, s') /\
    _right_edge s' = Some (-1)%Z /\
    _center_x_edge s' = Some ((INR 1 - 1) / 2).
Proof.
  destruct ApiClaims.lit_img22 as (C0 & C1 & R0 & R1).
  assert (Ha : (1 < _image_width RadiusClaims.obj22)%nat) by (cbn; lia).
  assert (Hc : (1 < _image_height RadiusClaims.obj22)%nat) by (cbn; lia).
  assert (Hcol : forall i : nat, (i < _image_width RadiusClaims.obj22)%nat ->
            column_lit RadiusClaims.obj22 i = true <-> i = 1%nat).
  { intros i Hi. cbn in Hi.
    destruct i as [|[|i]]; [rewrite C0 | rewrite C1 | lia];
      split; intros H; try discriminate; try lia; reflexivity. }
  assert (Hrow : forall j : nat, (j < _image_height RadiusClaims.obj22)%nat ->
            row_lit RadiusClaims.obj22 j = true <-> j = 1%nat).
  { intros j Hj. cbn in Hj.
    destruct j as [|[|j]]; [rewrite R0 | rewrite R1 | lia];
      split; intros H; try discriminate; try lia; reflexivity. }
  destruct (edge_method_on_single_lines RadiusClaims.obj22 1 1 Ha Hc Hcol Hrow)
    as (s' & Hs' & Hr & _ & Hx & _).
  exists s'. repeat split; assumption.
Defined.

End EdgeFacts.

(** ** The edge method on images with dark lines *)

Module EdgeClaims.
Import Estimator.

(** The filtered image has [_image_height] rows of [_image_width] pixels,
    and neither number is zero: every [.max()] of [setFiberEdges] is taken
    over a line that is not empty. *)
Definition well_shaped (s : ImageAnalysis) : Prop :=
  (0 < _image_height s)%nat /\ (0 < _image_width s)%nat /\
  List.length (_filtered_image s) = _image_height s /\
  Forall (fun line : list R => List.length line = _image_width s) (_filtered_image s).

(** [first] and [last] are the first and the last index below [n] at which
    [lit] holds, and they differ. *)
Definition first_and_last (lit : nat -> bool) (n first last : nat) : Prop :=
  (first < last < n)%nat /\ lit first = true /\ lit last = true /\
  forall i : nat, (i < n)%nat -> (i < first \/ last < i)%nat -> lit i = false.

Lemma scan_skips_dark (lit : nat -> bool) (n i : nat) :
  (i < n)%nat -> lit i = false ->
  fst (scan lit n) <> Z.of_nat i /\ snd (scan lit n) <> Z.of_nat i.
Proof.
  intros Hi Hd.
  destruct (EdgeFacts.scan_outcome_holds lit n)
    as [[-> _] | [(f & -> & _ & Lf & _) | (f & l & -> & _ & Lf & Ll & _)]];
    cbn [fst snd]; split; try lia; intros E; apply Nat2Z.inj in E; subst;
    congruence.
Qed.

Lemma scan_two_lit (lit : nat -> bool) (n i i' : nat) :
  (i < i' < n)%nat -> lit i = true -> lit i' = true ->
  exists first last : nat,
    scan lit n = (Z.of_nat first, Z.of_nat last) /\ first_and_last lit n first last.
Proof.
  intros Hi Li Li'.
  destruct (EdgeFacts.scan_outcome_holds lit n)
    as [[_ Hd] | [(f & _ & _ & _ & Hd) | (f & l & E & Hfl & Lf & Ll & Hd)]].
  - rewrite Hd in Li by lia. discriminate.
  - destruct (Nat.eq_dec i f) as [-> | Hne].
    + rewrite (Hd i') in Li' by lia. discriminate.
    + rewrite (Hd i) in Li by lia. discriminate.
  - exists f, l. split; [exact E|]. repeat split; auto; lia.
Qed.

(** C7 (amended): for every image in which some row or column of the filtered
    image has no pixel above the threshold, the edge method raises no error
    and returns.  No such row or column is taken for an edge.  When two
    columns have a pixel above the threshold, the left and right edges are
    the first and the last such column and the center's x is their midpoint;
    likewise for two rows, the top and bottom edges and the center's y; and
    with two such columns and two such rows the diameter is the larger of
    right - left and bottom - top. *)
Theorem edge_method_skips_dark_lines (s : ImageAnalysis) :
  well_shaped s ->
  ApiClaims.some_line_dark s ->
  exists (s' : ImageAnalysis) (left_ right_ top bottom : Z),
    setFiberCenterEdgeMethod s = Ok (tt, s') /\
    _left_edge s' = Some left_ /\ _right_edge s' = Some right_ /\
    _top_edge s' = Some top /\ _bottom_edge s' = Some bottom /\
    ((exists i : nat,
        (i < _image_width s)%nat /\ column_lit s i = false /\
        left_ <> Z.of_nat i /\ right_ <> Z.of_nat i) \/
     (exists j : nat,
        (j < _image_height s)%nat /\ row_lit s j = false /\
        top <> Z.of_nat j /\ bottom <> Z.of_nat j)) /\
    (forall i : nat, (i < _image_width s)%nat -> column_lit s i = false ->
       left_ <> Z.of_nat i /\ right_ <> Z.of_nat i) /\
    (forall j : nat, (j < _image_height s)%nat -> row_lit s j = false ->
       top <> Z.of_nat j /\ bottom <> Z.of_nat j) /\
    (forall i i' : nat,
       (i < i' < _image_width s)%nat ->
       column_lit s i = true -> column_lit s i' = true ->
       exists a b : nat,
         left_ = Z.of_nat a /\ right_ = Z.of_nat b /\
         first_and_last (column_lit s) (_image_width s) a b /\
         _center_x_edge s' = Some ((INR a + INR b) / 2)) /\
    (forall j j' : nat,
       (j < j' < _image_height s)%nat ->
       row_lit s j = true -> row_lit s j' = true ->
       exists c d : nat,
         top = Z.of_nat c /\ bottom = Z.of_nat d /\
         first_and_last (row_lit s) (_image_height s) c d /\
         _center_y_edge s' = Some ((INR c + INR d) / 2)) /\
    (forall i i' j j' : nat,
       (i < i' < _image_width s)%nat ->
       column_lit s i = true -> column_lit s i' = true ->
       (j < j' < _image_height s)%nat ->
       row_lit s j = true -> row_lit s j' = true ->
       _fiber_diameter_edge s' = Some (Z.max (right_ - left_) (bottom - top)) /\
       (0 < Z.max (right_ - left_) (bottom - top))%Z).
Proof.
  intros Hshape Hdark.
  exists (edge_result s),
         (fst (scan (column_lit s) (_image_width s))),
         (snd (scan (column_lit s) (_image_width s))),
         (fst (scan (row_lit s) (_image_height s))),
         (snd (scan (row_lit s) (_image_height s))).
  split; [apply setFiberCenterEdgeMethod_run|].
  do 4 (split; [reflexivity|]).
  assert (Hcol : forall i : nat, (i < _image_width s)%nat -> column_lit s i = false ->
            fst (scan (column_lit s) (_image_width s)) <> Z.of_nat i /\
            snd (scan (column_lit s) (_image_width s)) <> Z.of_nat i)
    by (intros i; apply scan_skips_dark).
  assert (Hrow : forall j : nat, (j < _image_height s)%nat -> row_lit s j = false ->
            fst (scan (row_lit s) (_image_height s)) <> Z.of_nat j /\
            snd (scan (row_lit s) (_image_height s)) <> Z.of_nat j)
    by (intros j; apply scan_skips_dark).
  split.
  { destruct Hdark as [(i & Hi & Hd) | (j & Hj & Hd)].
    - left. exists i. destruct (Hcol i Hi Hd). auto.
    - right. exists j. destruct (Hrow j Hj Hd). auto. }
  split; [exact Hcol|]. split; [exact Hrow|].
  split; [|split].
  - intros i i' Hi Li Li'.
    destruct (scan_two_lit _ _ _ _ Hi Li Li') as (a & b & E & Hab).
    exists a, b. rewrite E. cbn [fst snd].
    split; [reflexivity|]. split; [reflexivity|]. split; [exact Hab|].
    unfold edge_result. cbn [_center_x_edge set_center_edge]. rewrite E. cbn [fst snd].
    rewrite <- !INR_IZR_INZ. reflexivity.
  - intros j j' Hj Lj Lj'.
    destruct (scan_two_lit _ _ _ _ Hj Lj Lj') as (c & d & E & Hcd).
    exists c, d. rewrite E. cbn [fst snd].
    split; [reflexivity|]. split; [reflexivity|]. split; [exact Hcd|].
    unfold edge_result. cbn [_center_y_edge set_center_edge]. rewrite E. cbn [fst snd].
    rewrite <- !INR_IZR_INZ. reflexivity.
  - intros i i' j j' Hi Li Li' Hj Lj Lj'.
    destruct (scan_two_lit _ _ _ _ Hi Li Li') as (a & b & E1 & (Hab & _)).
    destruct (scan_two_lit _ _ _ _ Hj Lj Lj') as (c & d & E2 & (Hcd & _)).
    split; [reflexivity|]. rewrite E1, E2. cbn [fst snd]. lia.
Qed.

Lemma well_shaped_obj33 : well_shaped EdgeFacts.obj33.
Proof.
  unfold well_shaped. cbn. repeat split; try lia.
  repeat constructor.
Qed.

Lemma edge_method_skips_dark_lines_witness :
  exists (s' : ImageAnalysis) (a b : nat),
    setFiberCenterEdgeMethod EdgeFacts.obj33 = Ok (tt, s') /\
    _left_edge s' = Some (Z.of_nat a) /\ _right_edge s' = Some (Z.of_nat b) /\
    a <> 0%nat /\ b <> 0%nat /\
    _center_x_edge s' = Some ((INR a + INR b) / 2).
Proof.
  destruct EdgeFacts.lit_img33 as (C0 & C1 & C2 & _).
  assert (Hdark : ApiClaims.some_line_dark EdgeFacts.obj33).
  { left. exists 0%nat. split; [cbn; lia | exact C0]. }
  destruct (edge_method_skips_dark_lines EdgeFacts.obj33 well_shaped_obj33 Hdark)
    as (s' & l & r' & t & b & Hrun & Hl & Hr & _ & _ & _ & Hskip & _ & Htwo & _).
  destruct (Htwo 1%nat 2%nat ltac:(cbn; lia) C1 C2) as (a & b' & -> & -> & _ & Hc).
  destruct (Hskip 0%nat ltac:(cbn; lia) C0) as [Na Nb].
  exists s', a, b'. repeat split; try assumption.
  - intros ->. apply Na. reflexivity.
  - intros ->. apply Nb. reflexivity.
Defined.

End EdgeClaims.

(** ** More on the circle method: where the result lies and what is stored *)

Module CircleFacts.
Import Golden CircleSearch.

(** *** Brackets only shrink *)

Lemma golden_inside (r : array4) :
  golden r -> at0 r <= at3 r ->
  at0 r <= at1 r <= at3 r /\ at0 r <= at2 r <= at3 r.
Proof.
  intros [G1 G2] Hle.
  destruct (phi_mul_sign (at3 r - at0 r)) as [[Hw Hb] | [[Hw Hb] | [Hw Hb]]]; lra.
Qed.

Lemma shrink_nested (m : nat) (r : array4) :
  golden r -> at0 r <= at3 r ->
  at0 r <= at0 (shrink m r) /\ at0 (shrink m r) <= at3 (shrink m r) /\
  at3 (shrink m r) <= at3 r.
Proof.
  intros G Hle.
  destruct (phi_mul_sign (at3 r - at0 r)) as [[Hw Hb] | [[Hw Hb] | [Hw Hb]]];
    destruct m as [|m]; simpl shrink;
    rewrite ?(shrink_upper_eq r G), ?(shrink_lower_eq r G);
    unfold width; cbn [get4 at0 at3]; lra.
Qed.

Definition within (outer inner : array4) : Prop :=
  at0 outer <= at0 inner /\ at0 inner <= at3 inner /\ at3 inner <= at3 outer.

Lemma within_shrink (m : nat) (outer r : array4) :
  golden r -> within outer r -> within outer (shrink m r).
Proof.
  intros G (H0 & H1 & H3).
  destruct (shrink_nested m r G H1) as (S0 & S1 & S3).
  unfold within. lra.
Qed.

Section Facts.

Variable objective : R -> R -> R.

Lemma steps_within (k : nat) (st : search) (xo yo : array4) :
  golden2 st -> within xo (x st) -> within yo (y st) ->
  within xo (x (steps objective k st)) /\ within yo (y (steps objective k st)).
Proof.
  revert st. induction k as [|k IH]; intros st G Hx Hy; [split; assumption|].
  simpl. apply IH.
  - apply step_golden2. exact G.
  - rewrite step_x. apply within_shrink; [apply G | exact Hx].
  - rewrite step_y. apply within_shrink; [apply G | exact Hy].
Qed.

Lemma steps_index_ok (k : nat) (xr yr : array4) :
  index_ok (min_index (steps objective k (init objective xr yr))).
Proof.
  destruct k as [|k]; [apply init_index_ok|].
  rewrite steps_S. apply step_index_ok.
Qed.

Lemma steps_scored (k : nat) (xr yr : array4) :
  scored objective (steps objective k (init objective xr yr)).
Proof.
  induction k as [|k IH]; [apply init_scored|].
  rewrite steps_S. apply step_scored; [apply steps_index_ok | exact IH].
Qed.

Lemma step_min_index (st : search) :
  min_index (step objective st) = argmin22 (array_sum (step objective st)).
Proof. unfold step. destruct (min_index st) as [m0 m1]. reflexivity. Qed.

Lemma steps_min_index (k : nat) (xr yr : array4) :
  min_index (steps objective k (init objective xr yr))
  = argmin22 (array_sum (steps objective k (init objective xr yr))).
Proof.
  destruct k as [|k]; [reflexivity|].
  rewrite steps_S. apply step_min_index.
Qed.

(** [np.amin(array_sum)] is the entry at [min_index], and no entry is
    smaller. *)
Lemma amin22_argmin (a : array22) :
  amin22 a = get22 a (fst (argmin22 a)) (snd (argmin22 a)) /\
  forall j i : nat, amin22 a <= get22 a j i.
Proof.
  destruct a as [a00 a01 a10 a11].
  unfold amin22, argmin22, flat22, np_min, argmin, get22, unravel22; cbn.
  unfold Rmin. split.
  - repeat (match goal with
            | |- context [Rle_dec ?u ?v] =>
                is_var u; is_var v; destruct (Rle_dec u v)
            end; cbn); lra.
  - intros j i.
    repeat (match goal with
            | |- context [Rle_dec ?u ?v] =>
                is_var u; is_var v; destruct (Rle_dec u v)
            end; cbn); destruct j as [|j], i as [|i]; cbn; lra.
Qed.

(** The state in which the loop ends: its [min_index] entry is the smallest
    of the four sums, it is the objective at the corner that becomes the
    center, and that corner lies in the bracket the search started from. *)
Lemma loop_result (tol : R) (xr yr : array4) (fuel : nat) (st : search) :
  loop objective tol fuel (init objective xr yr) = Ok st ->
  amin22 (array_sum st)
  = objective (get4 (x st) (snd (min_index st) + 1))
              (get4 (y st) (fst (min_index st) + 1)) /\
  (at0 xr <= at3 xr -> at0 yr <= at3 yr ->
   at0 xr <= get4 (x st) (snd (min_index st) + 1) <= at3 xr /\
   at0 yr <= get4 (y st) (fst (min_index st) + 1) <= at3 yr).
Proof.
  intros H. destruct (loop_steps objective tol fuel _ _ H) as (k & _ & -> & _ & _).
  pose proof (steps_index_ok k xr yr) as Hm.
  pose proof (steps_scored k xr yr) as Hs.
  pose proof (steps_min_index k xr yr) as Ha.
  set (st := steps objective k (init objective xr yr)) in *.
  split.
  - destruct (amin22_argmin (array_sum st)) as [E _]. rewrite E, <- Ha.
    apply Hs; destruct Hm as [E' | [E' | [E' | E']]]; rewrite E'; simpl;
      clear; lia.
  - intros Hx Hy.
    assert (Wx : within xr (x (init objective xr yr))).
    { rewrite init_x. destruct xr; unfold within, interior; cbn in *.
      repeat split; lra. }
    assert (Wy : within yr (y (init objective xr yr))).
    { rewrite init_y. destruct yr; unfold within, interior; cbn in *.
      repeat split; lra. }
    destruct (steps_within k _ xr yr (init_golden2 objective xr yr) Wx Wy)
      as [(X0 & X1 & X3) (Y0 & Y1 & Y3)].
    fold st in X0, X1, X3, Y0, Y1, Y3.
    destruct (steps_golden2 objective k _ (init_golden2 objective xr yr)) as [Gx Gy].
    fold st in Gx, Gy.
    destruct (golden_inside _ Gx X1) as [Ix1 Ix2].
    destruct (golden_inside _ Gy Y1) as [Iy1 Iy2].
    destruct Hm as [E' | [E' | [E' | E']]]; rewrite E'; cbn [fst snd Nat.add get4];
      lra.
Qed.

End Facts.

End CircleFacts.

(** ** More on [setFiberCenterCircleMethod] *)

Module CircleMethodFacts.
Import Golden Estimator.

Section Facts.

Variable removeCircle : image -> R -> R -> R -> Z -> image.
Variable getArraySum : image -> R.

(** What a successful run went through. *)
Lemma circle_method_Ok (fuel : nat) (radius tol : R) (test_range : option R)
    (s s' : ImageAnalysis) :
  setFiberCenterCircleMethod removeCircle getArraySum fuel radius tol test_range s
  = Ok (tt, s') ->
  tol <> 0 /\
  exists (xr yr : array4) (st : CircleSearch.search),
    brackets_of (frame s) radius test_range = Ok (xr, yr) /\
    CircleSearch.loop (frame_objective removeCircle getArraySum (frame s) radius tol)
      tol fuel
      (CircleSearch.init (frame_objective removeCircle getArraySum (frame s) radius tol)
         xr yr) = Ok st /\
    s' = store_circle (state_after_brackets s test_range) radius st.
Proof.
  rewrite setFiberCenterCircleMethod_run. unfold circle_outcome.
  destruct (Req_dec_T tol 0) as [E | N]; [discriminate|].
  destruct (brackets_of (frame s) radius test_range) as [[xr yr] | e | ];
    try discriminate.
  destruct (CircleSearch.loop _ tol fuel _) as [st | e | ] eqn:L; try discriminate.
  intros H. injection H as <-. split; [exact N|].
  exists xr, yr, st. auto.
Qed.

(** After [setFiberCenterCircleMethod] the stored diameter is twice the
    radius it was given, and the stored sum is the objective at the stored
    center: the sum of the filtered image with the circle of that radius
    removed there. *)
Theorem circle_method_stores_objective_at_center (fuel : nat) (radius tol : R)
    (test_range : option R) (s s' : ImageAnalysis) :
  setFiberCenterCircleMethod removeCircle getArraySum fuel radius tol test_range s
  = Ok (tt, s') ->
  exists cx cy : R,
    _center_x_circle s' = Some cx /\ _center_y_circle s' = Some cy /\
    _fiber_diameter_circle s' = Some (radius * 2) /\
    _array_sum_circle s'
    = Some (getArraySum (removeCircle (_filtered_image s) cx cy radius
                           (py_int (1 / tol)))).
Proof.
  intros H. destruct (circle_method_Ok _ _ _ _ _ _ H) as (_ & xr & yr & st & _ & L & ->).
  destruct (CircleFacts.loop_result _ _ _ _ _ _ L) as [E _].
  do 2 eexists. unfold store_circle. cbn [_center_x_circle _center_y_circle
    _fiber_diameter_circle _array_sum_circle set_circle].
  split; [reflexivity|]. split; [reflexivity|]. split; [reflexivity|].
  rewrite E. reflexivity.
Qed.

(** Without [test_range], for a circle that fits into the image, the center
    found keeps the circle inside the image. *)
Theorem circle_method_center_inside_image (fuel : nat) (radius tol : R)
    (s s' : ImageAnalysis) :
  2 * radius <= INR (_image_width s) ->
  2 * radius <= INR (_image_height s) ->
  setFiberCenterCircleMethod removeCircle getArraySum fuel radius tol None s
  = Ok (tt, s') ->
  exists cx cy : R,
    _center_x_circle s' = Some cx /\ _center_y_circle s' = Some cy /\
    radius <= cx <= INR (_image_width s) - radius /\
    radius <= cy <= INR (_image_height s) - radius.
Proof.
  intros Hw Hh H.
  destruct (circle_method_Ok _ _ _ _ _ _ H) as (_ & xr & yr & st & B & L & ->).
  cbn [brackets_of] in B. injection B as <- <-.
  destruct (CircleFacts.loop_result _ _ _ _ _ _ L) as [_ Hin].
  destruct Hin as [Hx Hy].
  { unfold ends; cbn. unfold frame_width, frame; cbn. lra. }
  { unfold ends; cbn. unfold frame_height, frame; cbn. lra. }
  do 2 eexists. unfold store_circle. cbn [_center_x_circle _center_y_circle set_circle].
  split; [reflexivity|]. split; [reflexivity|].
  unfold ends in Hx, Hy. cbn [at0 at3 set4 get4 zeros4] in Hx, Hy.
  unfold frame_width, frame_height, frame in Hx, Hy. cbn [fst snd] in Hx, Hy.
  split; assumption.
Qed.

(** With [test_range] the brackets are clipped so that the circle stays in
    the image on the side that was clipped; the center found lies within
    [test_range / 2] of the edge-method center whenever that bracket is not
    empty. *)
Theorem circle_method_center_near_edge_center (fuel : nat) (radius tol test_range : R)
    (s s' : ImageAnalysis) (ex ey : R) :
  edge_center s = (Some ey, Some ex) ->
  0 <= test_range ->
  radius <= ex + test_range / 2 -> ex - test_range / 2 <= INR (_image_width s) - radius ->
  radius <= ey + test_range / 2 -> ey - test_range / 2 <= INR (_image_height s) - radius ->
  2 * radius <= INR (_image_width s) ->
  2 * radius <= INR (_image_height s) ->
  setFiberCenterCircleMethod removeCircle getArraySum fuel radius tol (Some test_range) s
  = Ok (tt, s') ->
  exists cx cy : R,
    _center_x_circle s' = Some cx /\ _center_y_circle s' = Some cy /\
    Rmax radius (ex - test_range / 2) <= cx
      <= Rmin (INR (_image_width s) - radius) (ex + test_range / 2) /\
    Rmax radius (ey - test_range / 2) <= cy
      <= Rmin (INR (_image_height s) - radius) (ey + test_range / 2).
Proof.
  intros Hc Ht X1 X2 Y1 Y2 Hw Hh H.
  destruct (circle_method_Ok _ _ _ _ _ _ H) as (_ & xr & yr & st & B & L & ->).
  unfold brackets_of, frame_center, frame in B. cbn [fst snd] in B.
  rewrite Hc in B. cbn [fst snd] in B. injection B as <- <-.
  destruct (CircleFacts.loop_result _ _ _ _ _ _ L) as [_ Hin].
  unfold frame_width, frame_height in Hin. cbn [fst snd] in Hin.
  assert (Bx : forall a size : R,
            radius <= a + test_range / 2 -> a - test_range / 2 <= size - radius ->
            2 * radius <= size ->
            at0 (clipped_bracket a (test_range / 2) radius size)
            = Rmax radius (a - test_range / 2) /\
            at3 (clipped_bracket a (test_range / 2) radius size)
            = Rmin (size - radius) (a + test_range / 2)).
  { intros a size A1 A2 A3. unfold clipped_bracket, Rltb, Rgtb, Rmax, Rmin.
    cbn [get4 set4 zeros4 at0 at1 at2 at3].
    destruct (Rlt_dec (a - test_range / 2) radius);
      cbn [get4 set4 zeros4 at0 at1 at2 at3];
      destruct (Rgt_dec (a + test_range / 2) (size - radius));
      cbn [get4 set4 zeros4 at0 at1 at2 at3];
      destruct (Rle_dec radius (a - test_range / 2));
      destruct (Rle_dec (size - radius) (a + test_range / 2));
      split; lra. }
  destruct (Bx ex (INR (_image_width s)) X1 X2 Hw) as [Ex0 Ex3].
  destruct (Bx ey (INR (_image_height s)) Y1 Y2 Hh) as [Ey0 Ey3].
  rewrite Ex0, Ex3, Ey0, Ey3 in Hin.
  destruct Hin as [Hx Hy].
  { unfold Rmax, Rmin. destruct (Rle_dec _ _); destruct (Rle_dec _ _); lra. }
  { unfold Rmax, Rmin. destruct (Rle_dec _ _); destruct (Rle_dec _ _); lra. }
  do 2 eexists. unfold store_circle. cbn [_center_x_circle _center_y_circle set_circle].
  split; [reflexivity|]. split; [reflexivity|]. split; assumption.
Qed.

(** Brackets that can be built and a positive [tol] give a run that
    returns. *)
Lemma circle_method_runs (radius tol : R) (test_range : option R)
    (s : ImageAnalysis) (b : array4 * array4) :
  0 < tol ->
  brackets_of (frame s) radius test_range = Ok b ->
  exists N : nat, forall fuel : nat, (N <= fuel)%nat ->
    exists s' : ImageAnalysis,
      setFiberCenterCircleMethod removeCircle getArraySum fuel radius tol test_range s
      = Ok (tt, s').
Proof.
  intros Htol B. destruct b as [xr yr].
  set (objective := frame_objective removeCircle getArraySum (frame s) radius tol).
  destruct (CircleSearch.loop_terminates objective tol
              (CircleSearch.init objective xr yr) Htol
              (CircleSearch.init_golden2 objective xr yr))
    as (k & _ & _ & Hk).
  exists k. intros fuel Hf. rewrite setFiberCenterCircleMethod_run.
  unfold circle_outcome.
  destruct (Req_dec_T tol 0) as [E | _]; [lra|].
  rewrite B. fold objective. rewrite (Hk fuel Hf).
  eexists. reflexivity.
Qed.

(** A [tol] that is not positive never gives a result: [tol = 0] raises
    [ZeroDivisionError] in [int(1.0 / tol)], and for [tol < 0] the loop
    condition [abs(x[3] - x[0]) > tol and abs(y[3] - y[0]) > tol] cannot
    fail. *)
Theorem circle_method_needs_positive_tol (fuel : nat) (radius tol : R)
    (test_range : option R) (s : ImageAnalysis) :
  tol <= 0 ->
  (forall s' : ImageAnalysis,
     setFiberCenterCircleMethod removeCircle getArraySum fuel radius tol test_range s
     <> Ok (tt, s')) /\
  (tol = 0 ->
   setFiberCenterCircleMethod removeCircle getArraySum fuel radius tol test_range s
   = Raise "ZeroDivisionError").
Proof.
  intros Htol. split.
  - intros s' H.
    destruct (circle_method_Ok _ _ _ _ _ _ H) as (N & xr & yr & st & _ & L & _).
    destruct (CircleSearch.loop_steps _ tol fuel _ _ L) as (k & _ & _ & Hc & _).
    apply (CircleSearch.continue_false
             (frame_objective removeCircle getArraySum (frame s) radius tol)) in Hc.
    pose proof (Rabs_pos (width (CircleSearch.x st))).
    pose proof (Rabs_pos (width (CircleSearch.y st))).
    destruct Hc; lra.
  - intros ->. unfold setFiberCenterCircleMethod.
    destruct (Req_dec_T 0 0) as [_ | N]; [reflexivity | contradiction].
Qed.

End Facts.

(** *** Runs on the small images *)

Lemma circle_run_obj22 :
  exists s' : ImageAnalysis,
    setFiberCenterCircleMethod RadiusClaims.keep_image RadiusClaims.sum_image
      0 1 100 None RadiusClaims.obj22 = Ok (tt, s').
Proof.
  destruct (circle_outcome_wide RadiusClaims.keep_image RadiusClaims.sum_image 0
              (frame RadiusClaims.obj22) 1 100) as [st Hst].
  - lra.
  - cbn. apply Rabs_le. lra.
  - rewrite setFiberCenterCircleMethod_run, Hst. eexists. reflexivity.
Qed.

Lemma circle_method_stores_objective_at_center_witness :
  exists (s' : ImageAnalysis) (cx cy : R),
    setFiberCenterCircleMethod RadiusClaims.keep_image RadiusClaims.sum_image
      0 1 100 None RadiusClaims.obj22 = Ok (tt, s') /\
    _center_x_circle s' = Some cx /\ _center_y_circle s' = Some cy /\
    _fiber_diameter_circle s' = Some (1 * 2).
Proof.
  destruct circle_run_obj22 as [s' Hs'].
  destruct (circle_method_stores_objective_at_center RadiusClaims.keep_image
              RadiusClaims.sum_image 0 1 100 None RadiusClaims.obj22 s' Hs')
    as (cx & cy & Hx & Hy & Hd & _).
  exists s', cx, cy. repeat split; assumption.
Defined.

Lemma circle_method_center_inside_image_witness :
  exists (s' : ImageAnalysis) (cx cy : R),
    setFiberCenterCircleMethod RadiusClaims.keep_image RadiusClaims.sum_image
      0 1 100 None RadiusClaims.obj22 = Ok (tt, s') /\
    _center_x_circle s' = Some cx /\ _center_y_circle s' = Some cy /\
    1 <= cx <= INR (_image_width RadiusClaims.obj22) - 1.
Proof.
  destruct circle_run_obj22 as [s' Hs'].
  assert (Hw : 2 * 1 <= INR (_image_width RadiusClaims.obj22)) by (cbn; lra).
  assert (Hh : 2 * 1 <= INR (_image_height RadiusClaims.obj22)) by (cbn; lra).
  destruct (circle_method_center_inside_image RadiusClaims.keep_image
              RadiusClaims.sum_image 0 1 100 RadiusClaims.obj22 s' Hw Hh Hs')
    as (cx & cy & Hx & Hy & Bx & _).
  exists s', cx, cy. repeat split; try assumption; apply Bx.
Defined.

Lemma circle_method_center_near_edge_center_witness :
  exists (fuel : nat) (s' : ImageAnalysis) (cx cy : R),
    setFiberCenterCircleMethod RadiusClaims.keep_image RadiusClaims.sum_image
      fuel 1 1 (Some 1) EdgeFacts.obj33 = Ok (tt, s') /\
    _center_x_circle s' = Some cx /\ _center_y_circle s' = Some cy /\
    Rmax 1 (3 / 2 - 1 / 2) <= cx
      <= Rmin (INR (_image_width EdgeFacts.obj33) - 1) (3 / 2 + 1 / 2).
Proof.
  assert (Htol : 0 < 1) by lra.
  assert (B : exists b : array4 * array4,
            brackets_of (frame EdgeFacts.obj33) 1 (Some 1) = Ok b).
  { unfold brackets_of, frame_center, frame. cbn [fst snd].
    rewrite EdgeFacts.edge_center_obj33. eexists. reflexivity. }
  destruct B as [b B].
  destruct (circle_method_runs RadiusClaims.keep_image RadiusClaims.sum_image
              1 1 (Some 1) EdgeFacts.obj33 b Htol B) as [N HN].
  destruct (HN N (Nat.le_refl N)) as [s' Hs'].
  assert (Ht : 0 <= 1) by lra.
  assert (X1 : 1 <= 3 / 2 + 1 / 2) by lra.
  assert (X2 : 3 / 2 - 1 / 2 <= INR (_image_width EdgeFacts.obj33) - 1) by (cbn; lra).
  assert (Y2 : 3 / 2 - 1 / 2 <= INR (_image_height EdgeFacts.obj33) - 1) by (cbn; lra).
  assert (Hw : 2 * 1 <= INR (_image_width EdgeFacts.obj33)) by (cbn; lra).
  assert (Hh : 2 * 1 <= INR (_image_height EdgeFacts.obj33)) by (cbn; lra).
  destruct (circle_method_center_near_edge_center RadiusClaims.keep_image
              RadiusClaims.sum_image N 1 1 1 EdgeFacts.obj33 s' (3 / 2) (3 / 2)
              EdgeFacts.edge_center_obj33 Ht X1 X2 X1 Y2 Hw Hh Hs')
    as (cx & cy & Hx & Hy & Bx & _).
  exists N, s', cx, cy. repeat split; try assumption; apply Bx.
Defined.

Lemma circle_method_needs_positive_tol_witness :
  setFiberCenterCircleMethod RadiusClaims.keep_image RadiusClaims.sum_image
    0 1 0 None RadiusClaims.obj22 = Raise "ZeroDivisionError".
Proof.
  assert (Htol : 0 <= 0) by lra.
  exact (proj2 (circle_method_needs_positive_tol RadiusClaims.keep_image
                  RadiusClaims.sum_image 0 1 0 None RadiusClaims.obj22 Htol) eq_refl).
Defined.

End CircleMethodFacts.

(** ** More on the radius method *)

Module RadiusFacts.
Import Golden Estimator.

Section Facts.

Variable removeCircle : image -> R -> R -> R -> Z -> image.
Variable getArraySum : image -> R.
Variable fuel : nat.

Local Abbreviation radius_score := (radius_score removeCircle getArraySum fuel).
Local Abbreviation radius_init := (radius_init removeCircle getArraySum fuel).
Local Abbreviation radius_step := (radius_step removeCircle getArraySum fuel).
Local Abbreviation radius_steps := (radius_steps removeCircle getArraySum fuel).
Local Abbreviation radius_search := (radius_search removeCircle getArraySum fuel).

(** Every call of the circle method leaves a center behind. *)
Lemma radius_score_sets_center (tol : R) (test_range : option R) (rad v : R)
    (s s' : ImageAnalysis) :
  radius_score tol test_range rad s = Ok (v, s') ->
  is_some (_center_x_circle s') = true /\ is_some (_center_y_circle s') = true.
Proof.
  rewrite radius_score_run.
  destruct (circle_outcome _ _ _ _ _ _ _) as [st | e | ]; try discriminate.
  intros H. injection H as _ <-. split; reflexivity.
Qed.

Lemma radius_init_sets_center (tol : R) (test_range : option R) (r0 : array4)
    (s s' : ImageAnalysis) (st : rsearch) :
  radius_init tol test_range r0 s = Ok (st, s') ->
  is_some (_center_x_circle s') = true /\ is_some (_center_y_circle s') = true.
Proof.
  unfold Estimator.radius_init. intros H.
  apply bind_Ok in H. destruct H as (v1 & s1 & _ & H).
  apply bind_Ok in H. destruct H as (v2 & s2 & H2 & H).
  injection H as _ <-. exact (radius_score_sets_center _ _ _ _ _ _ H2).
Qed.

Lemma radius_steps_keep_center (k : nat) (tol : R) (test_range : option R)
    (s s' : ImageAnalysis) (st st' : rsearch) :
  is_some (_center_x_circle s) = true /\ is_some (_center_y_circle s) = true ->
  radius_steps k tol test_range st s = Ok (st', s') ->
  is_some (_center_x_circle s') = true /\ is_some (_center_y_circle s') = true.
Proof.
  revert s st. induction k as [|k IH]; intros s st Hc H; simpl in H.
  - injection H as _ <-. exact Hc.
  - apply bind_Ok in H. destruct H as (st1 & s1 & H1 & H).
    apply (IH s1 st1); [|exact H].
    unfold Estimator.radius_step in H1.
    apply bind_Ok in H1. destruct H1 as (v & s2 & Hv & H1).
    injection H1 as _ <-. exact (radius_score_sets_center _ _ _ _ _ _ Hv).
Qed.

Lemma radius_steps_within (k : nat) (tol : R) (test_range : option R)
    (s s' : ImageAnalysis) (st st' : rsearch) (outer : array4) :
  golden (r st) -> CircleFacts.within outer (r st) ->
  radius_steps k tol test_range st s = Ok (st', s') ->
  golden (r st') /\ CircleFacts.within outer (r st').
Proof.
  revert s st. induction k as [|k IH]; intros s st G W H; simpl in H.
  - injection H as <- _. auto.
  - apply bind_Ok in H. destruct H as (st1 & s1 & H1 & H).
    apply (IH s1 st1); [ | | exact H];
      rewrite (radius_step_r _ _ _ _ _ _ _ _ _ H1).
    + apply shrink_golden. exact G.
    + apply CircleFacts.within_shrink; assumption.
Qed.

(** The radius search stores a diameter inside twice the bracket it started
    from, and the center of the last circle search it ran. *)
Lemma radius_search_result (tol : R) (test_range : option R) (r_ends : array4)
    (s0 s' : ImageAnalysis) :
  at0 r_ends <= at3 r_ends ->
  radius_search tol test_range r_ends s0 = Ok (tt, s') ->
  (exists diameter : R,
     _fiber_diameter_radius s' = Some diameter /\
     2 * at0 r_ends <= diameter <= 2 * at3 r_ends) /\
  _center_x_radius s' = _center_x_circle s' /\
  _center_y_radius s' = _center_y_circle s' /\
  is_some (_center_x_radius s') = true /\ is_some (_center_y_radius s') = true.
Proof.
  intros Hle H.
  destruct (radius_search_Ok _ _ _ _ _ _ _ _ H) as (k & st & s & Hk & _ & ->).
  destruct (radius_scores_after _ _ _ _ _ _ _ _ _ _ Hk) as [_ Hm].
  apply bind_Ok in Hk. destruct Hk as (st0 & s1 & H0 & Hk).
  destruct (radius_init_scored _ _ _ _ _ _ _ _ _ H0) as (Hr & _).
  pose proof (radius_init_sets_center _ _ _ _ _ _ H0) as Hc0.
  pose proof (radius_steps_keep_center _ _ _ _ _ _ _ Hc0 Hk) as [Hcx Hcy].
  assert (G0 : golden (r st0)) by (rewrite Hr; apply interior_golden).
  assert (W0 : CircleFacts.within r_ends (r st0)).
  { rewrite Hr. destruct r_ends; unfold CircleFacts.within, interior; cbn in *.
    repeat split; lra. }
  destruct (radius_steps_within _ _ _ _ _ _ _ _ G0 W0 Hk) as (G & W1 & W2 & W3).
  destruct (CircleFacts.golden_inside _ G W2) as [I1 I2].
  cbn [_fiber_diameter_radius _center_x_radius _center_y_radius
       _center_x_circle _center_y_circle set_radius].
  split; [|auto].
  eexists. split; [reflexivity|].
  destruct (argmin_flat2 (array_sum st)) as [Hlt _]. rewrite <- Hm in Hlt.
  destruct (min_index st) as [|[|m]]; [ | | exfalso; lia ];
    cbn [Nat.add get4]; lra.
Qed.

End Facts.

Section Api.

Variable removeCircle : image -> R -> R -> R -> Z -> image.
Variable getArraySum : image -> R.
Variable super_getGaussianFit : image -> R * R * R * R * R -> image * list R.
Variable fuel : nat.

Local Abbreviation getFiberCenter :=
  (getFiberCenter removeCircle getArraySum super_getGaussianFit fuel).
Local Abbreviation setFiberCenterRadiusMethod :=
  (setFiberCenterRadiusMethod removeCircle getArraySum super_getGaussianFit fuel).

(** Without [test_range] the radius method searches the radii from 0 to half
    the smaller side of the image. *)
Lemma setFiberCenterRadiusMethod_None (tol : R) (s : ImageAnalysis) :
  setFiberCenterRadiusMethod tol None s
  = radius_search removeCircle getArraySum fuel tol None
      (ends 0 (INR (Nat.min (_image_height s) (_image_width s)) / 2)) s.
Proof. reflexivity. Qed.

(** The diameter the radius method reports without [test_range] lies between
    0 and the smaller side of the image, and a center is stored with it. *)
Theorem radius_method_diameter_fits_image (tol : R) (s s' : ImageAnalysis) :
  setFiberCenterRadiusMethod tol None s = Ok (tt, s') ->
  (exists diameter : R,
     _fiber_diameter_radius s' = Some diameter /\
     0 <= diameter <= INR (Nat.min (_image_height s) (_image_width s))) /\
  is_some (_center_x_radius s') = true /\ is_some (_center_y_radius s') = true.
Proof.
  rewrite setFiberCenterRadiusMethod_None. intros H.
  assert (Hle : at0 (ends 0 (INR (Nat.min (_image_height s) (_image_width s)) / 2))
                <= at3 (ends 0 (INR (Nat.min (_image_height s) (_image_width s)) / 2))).
  { cbn. pose proof (pos_INR (Nat.min (_image_height s) (_image_width s))). lra. }
  destruct (radius_search_result _ _ _ _ _ _ _ _ Hle H)
    as ((d & Hd & Hb) & _ & _ & Hcx & Hcy).
  split; [|auto]. exists d. split; [exact Hd|]. cbn in Hb. lra.
Qed.

Lemma radius_search_needs_positive_tol (tol : R) (test_range : option R)
    (r_ends : array4) (s s' : ImageAnalysis) :
  tol <= 0 ->
  radius_search removeCircle getArraySum fuel tol test_range r_ends s <> Ok (tt, s').
Proof.
  intros Htol H.
  destruct (radius_search_Ok _ _ _ _ _ _ _ _ H) as (k & st & s1 & Hk & Hc & _).
  apply bind_Ok in Hk. destruct Hk as (st0 & s2 & H0 & _).
  unfold Estimator.radius_init in H0.
  apply bind_Ok in H0. destruct H0 as (v1 & s3 & H1 & _).
  unfold Estimator.radius_score in H1.
  apply bind_Ok in H1. destruct H1 as ([] & s4 & Hcircle & _).
  destruct (CircleMethodFacts.circle_method_Ok _ _ _ _ _ _ _ _ Hcircle) as [N _].
  unfold radius_continue in Hc. apply Rgtb_false in Hc.
  pose proof (Rabs_pos (get4 (r st) 3 - get4 (r st) 0)). lra.
Qed.

(** A [tol] that is not positive never gives a result, with or without
    [test_range]: the first circle search raises for [tol = 0], and for
    [tol < 0] the loop condition [abs(r[3] - r[0]) > tol] cannot fail. *)
Theorem radius_method_needs_positive_tol (tol : R) (test_range : option R)
    (s s' : ImageAnalysis) :
  tol <= 0 ->
  setFiberCenterRadiusMethod tol test_range s <> Ok (tt, s').
Proof.
  intros Htol H.
  unfold Estimator.setFiberCenterRadiusMethod, setFiberCenterRadiusMethod_with in H.
  apply bind_Ok in H. destruct H as ([r0 tr0] & s1 & _ & Hsearch).
  exact (radius_search_needs_positive_tol tol tr0 r0 s1 s' Htol Hsearch).
Qed.

(** A first call with method 'radius' on an object without a radius center
    runs [setFiberCenterRadiusMethod] and returns what it stored. *)
Lemma getFiberCenter_radius_run (show_image : bool) (tol : R) (test_range : option R)
    (s s1 : ImageAnalysis) :
  _center_x_radius s = None ->
  setFiberCenterRadiusMethod tol test_range s = Ok (tt, s1) ->
  getFiberCenter (Some "radius"%string) show_image tol test_range "pixels" s
  = Ok ((_center_y_radius s1, _center_x_radius s1), s1).
Proof.
  intros Hn Hset.
  unfold Estimator.getFiberCenter. cbn [getFiberCenter_depth].
  unfold getFiberCenter_with. unfold bind at 1. unfold get at 1.
  change (contains "radius" "radius") with true. cbv iota.
  change ("pixels" =? "pixels")%string with true. cbv iota.
  unfold getFiberCenterRadiusMethod_with.
  unfold bind at 1. unfold bind at 1. unfold get at 1. rewrite Hn.
  cbn [is_some]. unfold bind at 1.
  unfold Estimator.setFiberCenterRadiusMethod in Hset. rewrite Hset.
  reflexivity.
Qed.

(** The radius method is run once: after a call of [getFiberCenter] with
    method 'radius' has returned, every later call with that method, or with
    no method at all, returns the same pair and leaves the object as it is,
    whatever [tol], [test_range] and [show_image] it is given. *)
Theorem radius_center_is_cached (tol : R)
    (test_range : option R) (s s' : ImageAnalysis) (center : option R * option R) :
  getFiberCenter (Some "radius"%string) false tol test_range "pixels" s
  = Ok (center, s') ->
  is_some (_center_x_radius s') = true /\
  center = (_center_y_radius s', _center_x_radius s') /\
  forall (show_image' : bool) (tol' : R) (test_range' : option R),
    getFiberCenter (Some "radius"%string) show_image' tol' test_range' "pixels" s'
    = Ok (center, s') /\
    getFiberCenter None show_image' tol' test_range' "pixels" s' = Ok (center, s').
Proof.
  unfold Estimator.getFiberCenter. cbn [getFiberCenter_depth].
  unfold getFiberCenter_with at 1. unfold bind at 1. unfold get at 1.
  change (contains "radius" "radius") with true. cbv iota.
  change ("pixels" =? "pixels")%string with true. cbv iota.
  intros H. apply bind_Ok in H. destruct H as (c & s1 & H & Hret).
  injection Hret as -> ->.
  assert (Hcached : is_some (_center_x_radius s') = true /\
                    center = (_center_y_radius s', _center_x_radius s')).
  { unfold getFiberCenterRadiusMethod_with in H.
    unfold bind at 1 in H. unfold get at 1 in H.
    destruct (is_some (_center_x_radius s)) eqn:E.
    - unfold bind, ret, get in H. injection H as <- <-. auto.
    - apply bind_Ok in H. destruct H as ([] & s2 & Hset & H).
      unfold bind, get, ret in H. injection H as <- <-.
      split; [|reflexivity].
      unfold setFiberCenterRadiusMethod_with in Hset.
      apply bind_Ok in Hset. destruct Hset as ([r0 tr0] & s3 & _ & Hsearch).
      unfold Estimator.radius_search in Hsearch.
      apply bind_Ok in Hsearch. destruct Hsearch as (st0 & s4 & H0 & Hsearch).
      apply bind_Ok in Hsearch. destruct Hsearch as (st & s5 & HL & Hsearch).
      unfold bind, get, put in Hsearch. injection Hsearch as <-.
      cbn [_center_x_radius set_radius].
      destruct (radius_loop_steps _ _ _ _ _ _ _ _ _ _ HL) as (k & Hk & _).
      pose proof (RadiusFacts.radius_init_sets_center _ _ _ _ _ _ _ _ _ H0) as Hc0.
      apply (RadiusFacts.radius_steps_keep_center _ _ _ _ _ _ _ _ _ _ Hc0 Hk). }
  destruct Hcached as [Hsome ->]. split; [exact Hsome|]. split; [reflexivity|].
  intros show_image' tol' test_range'.
  assert (Hget : getFiberCenterRadiusMethod_with removeCircle getArraySum fuel
                   (getFiberCenter_depth removeCircle getArraySum super_getGaussianFit
                      fuel fuel) tol' test_range' show_image' s'
                 = Ok ((_center_y_radius s', _center_x_radius s'), s')).
  { unfold getFiberCenterRadiusMethod_with. unfold bind at 1. unfold get at 1.
    rewrite Hsome. reflexivity. }
  split.
  - unfold getFiberCenter_with. unfold bind at 1. unfold get at 1.
    change (contains "radius" "radius") with true. cbv iota.
    change ("pixels" =? "pixels")%string with true. cbv iota.
    unfold bind. rewrite Hget. reflexivity.
  - unfold getFiberCenter_with. unfold bind at 1. unfold get at 1.
    unfold default_center_method. rewrite Hsome.
    change (contains "radius" "radius") with true. cbv iota.
    change ("pixels" =? "pixels")%string with true. cbv iota.
    unfold bind. rewrite Hget. reflexivity.
Qed.

End Api.

(** *** Runs on the 2 x 2 image *)

Lemma radius_run_obj22 :
  exists s' : ImageAnalysis,
    setFiberCenterRadiusMethod RadiusClaims.keep_image RadiusClaims.sum_image
      ApiClaims.no_fit 0 100 None RadiusClaims.obj22 = Ok (tt, s').
Proof.
  pose proof phi_bounds as Hphi.
  rewrite setFiberCenterRadiusMethod_None.
  apply radius_search_wide.
  - lra.
  - cbn. apply Rabs_le. lra.
  - cbn. apply Rabs_le. lra.
  - cbn. apply Rabs_le. lra.
Qed.

Lemma radius_method_diameter_fits_image_witness :
  exists (s' : ImageAnalysis) (diameter : R),
    setFiberCenterRadiusMethod RadiusClaims.keep_image RadiusClaims.sum_image
      ApiClaims.no_fit 0 100 None RadiusClaims.obj22 = Ok (tt, s') /\
    _fiber_diameter_radius s' = Some diameter /\
    0 <= diameter
      <= INR (Nat.min (_image_height RadiusClaims.obj22) (_image_width RadiusClaims.obj22)).
Proof.
  destruct radius_run_obj22 as [s' Hs'].
  destruct (radius_method_diameter_fits_image RadiusClaims.keep_image
              RadiusClaims.sum_image ApiClaims.no_fit 0 100 RadiusClaims.obj22 s' Hs')
    as ((d & Hd & Hb) & _).
  exists s', d. repeat split; try assumption; apply Hb.
Defined.

Lemma radius_method_needs_positive_tol_witness :
  -1 <= 0 /\
  forall s' : ImageAnalysis,
    setFiberCenterRadiusMethod RadiusClaims.keep_image RadiusClaims.sum_image
      ApiClaims.no_fit 0 (-1) None RadiusClaims.obj22 <> Ok (tt, s').
Proof.
  assert (Htol : -1 <= 0) by lra.
  split; [exact Htol|]. intros s'.
  exact (radius_method_needs_positive_tol RadiusClaims.keep_image
           RadiusClaims.sum_image ApiClaims.no_fit 0 (-1) None RadiusClaims.obj22 s' Htol).
Defined.

Lemma radius_center_is_cached_witness :
  exists (s' : ImageAnalysis) (center : option R * option R),
    getFiberCenter RadiusClaims.keep_image RadiusClaims.sum_image ApiClaims.no_fit 0
      (Some "radius"%string) false 100 None "pixels" RadiusClaims.obj22
    = Ok (center, s') /\
    getFiberCenter RadiusClaims.keep_image RadiusClaims.sum_image ApiClaims.no_fit 0
      None true 1 (Some 10) "pixels" s' = Ok (center, s').
Proof.
  destruct radius_run_obj22 as [s' Hs'].
  pose proof (getFiberCenter_radius_run RadiusClaims.keep_image RadiusClaims.sum_image
                ApiClaims.no_fit 0 false 100 None RadiusClaims.obj22 s' eq_refl Hs')
    as Hrun.
  destruct (radius_center_is_cached RadiusClaims.keep_image RadiusClaims.sum_image
              ApiClaims.no_fit 0 100 None RadiusClaims.obj22 s' _ Hrun)
    as (_ & _ & Hlater).
  exists s'. eexists. split; [exact Hrun|].
  exact (proj2 (Hlater true 1 (Some 10))).
Defined.

End RadiusFacts.

(** ** The getters: what they leave alone, units, method strings *)

Module ApiFacts.
Import Golden Estimator.

(** The attributes no method assigns after the construction: the calibration
    values, the threshold, the two images and their shape. *)
Definition static (s : ImageAnalysis)
  : R * R * R * image * image * nat * nat :=
  (pixel_size s, magnification s, threshold s, _image_array s, _filtered_image s,
   _image_height s, _image_width s).

(** A method that, when it returns, has left these attributes alone. *)
Definition keeps {A : Type} (c : M A) : Prop :=
  forall (s s' : ImageAnalysis) (a : A), c s = Ok (a, s') -> static s' = static s.

Lemma keeps_ret {A : Type} (a : A) : keeps (ret a).
Proof. intros s s' a' H. injection H as _ <-. reflexivity. Qed.

Lemma keeps_raise {A : Type} (e : string) : keeps (@raise A e).
Proof. intros s s' a H. discriminate H. Qed.

Lemma keeps_need {A : Type} (v : option A) : keeps (need v).
Proof. destruct v; [apply keeps_ret | apply keeps_raise]. Qed.

Lemma keeps_get : keeps get.
Proof. intros s s' a H. injection H as _ <-. reflexivity. Qed.

Lemma keeps_bind {A B : Type} (c : M A) (k : A -> M B) :
  keeps c -> (forall a : A, keeps (k a)) -> keeps (bind c k).
Proof.
  intros Hc Hk s s'' b H. apply bind_Ok in H. destruct H as (a & s' & H1 & H2).
  rewrite (Hk a _ _ _ H2). exact (Hc _ _ _ H1).
Qed.

(** [s <- get;; k s] where [k s] is run from [s] itself. *)
Lemma keeps_get_bind {B : Type} (k : ImageAnalysis -> M B) :
  (forall (s s' : ImageAnalysis) (b : B), k s s = Ok (b, s') -> static s' = static s) ->
  keeps (bind get k).
Proof. intros Hk s s' b H. exact (Hk s s' b H). Qed.

Lemma keeps_if {A : Type} (b : bool) (c1 c2 : M A) :
  keeps c1 -> keeps c2 -> keeps (if b then c1 else c2).
Proof. destruct b; auto. Qed.

Lemma keeps_setFiberCenterEdgeMethod : keeps setFiberCenterEdgeMethod.
Proof.
  intros s s' a H. rewrite setFiberCenterEdgeMethod_run in H.
  injection H as _ <-. reflexivity.
Qed.

Lemma keeps_getFiberCenterEdgeMethod (show_image : bool) :
  keeps (getFiberCenterEdgeMethod show_image).
Proof.
  intros s s' a H. rewrite getFiberCenterEdgeMethod_run in H.
  injection H as _ <-. unfold edge_state.
  destruct (is_some (_center_y_edge s)); reflexivity.
Qed.

Section Facts.

Variable removeCircle : image -> R -> R -> R -> Z -> image.
Variable getArraySum : image -> R.
Variable super_getGaussianFit : image -> R * R * R * R * R -> image * list R.
Variable fuel : nat.

Lemma keeps_setFiberCenterCircleMethod (radius tol : R) (test_range : option R) :
  keeps (setFiberCenterCircleMethod removeCircle getArraySum fuel radius tol test_range).
Proof.
  intros s s' a H. rewrite setFiberCenterCircleMethod_run in H.
  destruct (circle_outcome _ _ _ _ _ _ _) as [st | e | ]; try discriminate.
  injection H as _ <-. unfold store_circle, state_after_brackets, edge_state.
  destruct test_range; [|reflexivity].
  destruct (is_some (_center_y_edge s)); reflexivity.
Qed.

Lemma keeps_radius_score (tol : R) (test_range : option R) (rad : R) :
  keeps (radius_score removeCircle getArraySum fuel tol test_range rad).
Proof.
  unfold radius_score. apply keeps_bind; [apply keeps_setFiberCenterCircleMethod|].
  intros _. apply keeps_bind; [apply keeps_get|]. intros s.
  apply keeps_bind; [apply keeps_need|]. intros c. apply keeps_ret.
Qed.

Lemma keeps_radius_init (tol : R) (test_range : option R) (r0 : array4) :
  keeps (radius_init removeCircle getArraySum fuel tol test_range r0).
Proof.
  unfold radius_init. apply keeps_bind; [apply keeps_radius_score|]. intros v1.
  apply keeps_bind; [apply keeps_radius_score|]. intros v2. apply keeps_ret.
Qed.

Lemma keeps_radius_step (tol : R) (test_range : option R) (st : rsearch) :
  keeps (radius_step removeCircle getArraySum fuel tol test_range st).
Proof.
  unfold radius_step. apply keeps_bind; [apply keeps_radius_score|]. intros v.
  apply keeps_ret.
Qed.

Lemma keeps_radius_loop (n : nat) (tol : R) (test_range : option R) (st : rsearch) :
  keeps (radius_loop removeCircle getArraySum fuel n tol test_range st).
Proof.
  revert st. induction n as [|n IH]; intros st; simpl;
    destruct (radius_continue tol st); try apply keeps_ret.
  - intros s s' a H. discriminate H.
  - apply keeps_bind; [apply keeps_radius_step | exact IH].
Qed.

Lemma keeps_radius_search (tol : R) (test_range : option R) (r_ends : array4) :
  keeps (radius_search removeCircle getArraySum fuel tol test_range r_ends).
Proof.
  unfold radius_search. apply keeps_bind; [apply keeps_radius_init|]. intros st0.
  apply keeps_bind; [apply keeps_radius_loop|]. intros st.
  apply keeps_get_bind. intros s s' b H. injection H as _ <-. reflexivity.
Qed.

Section Self.

Variable self_getFiberCenter :
  option string -> bool -> R -> option R -> string -> M (option R * option R).

Hypothesis keeps_self :
  forall (method : option string) (show_image : bool) (tol : R)
         (test_range : option R) (units : string),
    keeps (self_getFiberCenter method show_image tol test_range units).

Lemma keeps_getFiberDiameter_with (method : option string) (show_image : bool)
    (tol : R) (test_range : option R) (units : string) :
  keeps (getFiberDiameter_with self_getFiberCenter method show_image tol test_range units).
Proof.
  unfold getFiberDiameter_with. apply keeps_bind; [apply keeps_get|]. intros s.
  apply keeps_bind; [apply keeps_self|]. intros _.
  apply keeps_bind; [apply keeps_get|]. intros s1.
  apply keeps_bind.
  - repeat (apply keeps_if; [apply keeps_ret|]). apply keeps_raise.
  - intros d. apply keeps_if; [apply keeps_ret|].
    apply keeps_if; [|apply keeps_raise].
    apply keeps_bind; [apply keeps_need|]. intros d'. apply keeps_ret.
Qed.

Lemma keeps_getFiberRadius_with (method : option string) (show_image : bool)
    (tol : R) (test_range : option R) (units : string) :
  keeps (getFiberRadius_with self_getFiberCenter method show_image tol test_range units).
Proof.
  unfold getFiberRadius_with.
  apply keeps_bind; [apply keeps_getFiberDiameter_with|]. intros d.
  apply keeps_bind; [apply keeps_need|]. intros d'. apply keeps_ret.
Qed.

Lemma keeps_setFiberCenterRadiusMethod_with (tol : R) (test_range : option R) :
  keeps (setFiberCenterRadiusMethod_with removeCircle getArraySum fuel
           self_getFiberCenter tol test_range).
Proof.
  unfold setFiberCenterRadiusMethod_with. apply keeps_bind.
  - destruct test_range as [t|].
    + apply keeps_bind; [apply keeps_getFiberRadius_with|]. intros a. apply keeps_ret.
    + apply keeps_bind; [apply keeps_get|]. intros s. apply keeps_ret.
  - intros [r0 t0]. apply keeps_radius_search.
Qed.

Lemma keeps_getFiberCenterRadiusMethod_with (tol : R) (test_range : option R)
    (show_image : bool) :
  keeps (getFiberCenterRadiusMethod_with removeCircle getArraySum fuel
           self_getFiberCenter tol test_range show_image).
Proof.
  unfold getFiberCenterRadiusMethod_with. apply keeps_bind; [apply keeps_get|]. intros s.
  apply keeps_bind.
  - apply keeps_if; [apply keeps_ret | apply keeps_setFiberCenterRadiusMethod_with].
  - intros _. apply keeps_bind; [apply keeps_get|]. intros s1. apply keeps_ret.
Qed.

Lemma keeps_getFiberCenterCircleMethod_with (radius : option R) (tol : R)
    (test_range : option R) (show_image : bool) :
  keeps (getFiberCenterCircleMethod_with removeCircle getArraySum fuel
           self_getFiberCenter radius tol test_range show_image).
Proof.
  unfold getFiberCenterCircleMethod_with. apply keeps_bind.
  - destruct radius; [apply keeps_ret | apply keeps_getFiberRadius_with].
  - intros rad. apply keeps_bind; [apply keeps_setFiberCenterCircleMethod|].
    intros _. apply keeps_bind; [apply keeps_get|]. intros s. apply keeps_ret.
Qed.

Lemma keeps_setFiberCenterGaussianMethod_with :
  keeps (setFiberCenterGaussianMethod_with super_getGaussianFit self_getFiberCenter).
Proof.
  unfold setFiberCenterGaussianMethod_with.
  apply keeps_bind; [apply keeps_self|]. intros [y0 x0].
  apply keeps_bind; [apply keeps_getFiberRadius_with|]. intros radius.
  apply keeps_bind; [apply keeps_need|]. intros x0'.
  apply keeps_bind; [apply keeps_need|]. intros y0'.
  apply keeps_get_bind. intros s s' b.
  destruct (super_getGaussianFit _ _) as [fit opt].
  intros H. injection H as _ <-. reflexivity.
Qed.

Lemma keeps_getFiberCenterGaussianMethod_with (show_image : bool) :
  keeps (getFiberCenterGaussianMethod_with super_getGaussianFit self_getFiberCenter
           show_image).
Proof.
  unfold getFiberCenterGaussianMethod_with. apply keeps_bind; [apply keeps_get|].
  intros s. apply keeps_bind.
  - apply keeps_if; [apply keeps_ret | apply keeps_setFiberCenterGaussianMethod_with].
  - intros _. apply keeps_bind; [apply keeps_get|]. intros s1. apply keeps_ret.
Qed.

Lemma keeps_getFiberCenter_with (method : option string) (show_image : bool)
    (tol : R) (test_range : option R) (units : string) :
  keeps (getFiberCenter_with removeCircle getArraySum super_getGaussianFit fuel
           self_getFiberCenter method show_image tol test_range units).
Proof.
  unfold getFiberCenter_with. apply keeps_bind; [apply keeps_get|]. intros s.
  apply keeps_bind.
  - apply keeps_if; [apply keeps_getFiberCenterRadiusMethod_with|].
    apply keeps_if; [apply keeps_getFiberCenterGaussianMethod_with|].
    apply keeps_if; [apply keeps_getFiberCenterCircleMethod_with|].
    apply keeps_if; [apply keeps_getFiberCenterEdgeMethod | apply keeps_raise].
  - intros center. apply keeps_if; [apply keeps_ret|].
    apply keeps_if; [|apply keeps_raise].
    apply keeps_bind; [apply keeps_get|]. intros s1.
    apply keeps_bind; [apply keeps_need|]. intros cy.
    apply keeps_bind; [apply keeps_need|]. intros cx. apply keeps_ret.
Qed.

End Self.

Lemma keeps_getFiberCenter_depth (depth : nat) (method : option string)
    (show_image : bool) (tol : R) (test_range : option R) (units : string) :
  keeps (getFiberCenter_depth removeCircle getArraySum super_getGaussianFit fuel depth
           method show_image tol test_range units).
Proof.
  revert method show_image tol test_range units.
  induction depth as [|depth IH]; intros method show_image tol test_range units.
  - intros s s' a H. discriminate H.
  - cbn [getFiberCenter_depth]. apply keeps_getFiberCenter_with. exact IH.
Qed.

(** No getter alters the calibration, the threshold, the images or their
    shape: whatever [getFiberCenter], [getFiberDiameter] or [getFiberRadius]
    compute and cache on the way, these attributes are the same after the
    call. *)
Theorem getters_keep_image_and_calibration (method : option string)
    (show_image : bool) (tol : R) (test_range : option R) (units : string)
    (s : ImageAnalysis) :
  (forall (s' : ImageAnalysis) (center : option R * option R),
     getFiberCenter removeCircle getArraySum super_getGaussianFit fuel
       method show_image tol test_range units s = Ok (center, s') ->
     static s' = static s) /\
  (forall (s' : ImageAnalysis) (diameter : option R),
     getFiberDiameter removeCircle getArraySum super_getGaussianFit fuel
       method show_image tol test_range units s = Ok (diameter, s') ->
     static s' = static s) /\
  (forall (s' : ImageAnalysis) (radius : R),
     getFiberRadius removeCircle getArraySum super_getGaussianFit fuel
       method show_image tol test_range units s = Ok (radius, s') ->
     static s' = static s).
Proof.
  split; [|split].
  - intros s' center H. exact (keeps_getFiberCenter_depth _ _ _ _ _ _ _ _ _ H).
  - intros s' diameter H.
    exact (keeps_getFiberDiameter_with _ (keeps_getFiberCenter_depth fuel)
             _ _ _ _ _ _ _ _ H).
  - intros s' radius H.
    exact (keeps_getFiberRadius_with _ (keeps_getFiberCenter_depth fuel)
             _ _ _ _ _ _ _ _ H).
Qed.

(** The pixel and the micron result of [getFiberCenter] come from the same
    computation. *)
Lemma getFiberCenter_depth_units (depth : nat) (method : option string)
    (show_image : bool) (tol : R) (test_range : option R)
    (s s' : ImageAnalysis) (cy cx : R) :
  getFiberCenter_depth removeCircle getArraySum super_getGaussianFit fuel depth
    method show_image tol test_range "pixels" s
  = Ok ((Some cy, Some cx), s') ->
  getFiberCenter_depth removeCircle getArraySum super_getGaussianFit fuel depth
    method show_image tol test_range "microns" s
  = Ok ((Some (cy * pixel_size s' / magnification s'),
         Some (cx * pixel_size s' / magnification s')), s').
Proof.
  destruct depth as [|depth]; [discriminate|].
  cbn [getFiberCenter_depth]. unfold getFiberCenter_with.
  change ("pixels" =? "pixels")%string with true.
  change ("microns" =? "pixels")%string with false.
  change ("microns" =? "microns")%string with true. cbv iota.
  unfold bind, get, ret, need.
  match goal with
  | |- match ?c with _ => _ end = _ -> _ => destruct c as [[c0 s1] | e | ]
  end; try discriminate.
  intros H. injection H as -> ->. reflexivity.
Qed.

(** [getFiberCenter] in microns is its result in pixels times
    [pixel_size / magnification] of the object it was called on, and it
    leaves the same object behind. *)
Theorem getFiberCenter_microns (method : option string)
    (show_image : bool) (tol : R) (test_range : option R)
    (s s' : ImageAnalysis) (cy cx : R) :
  getFiberCenter removeCircle getArraySum super_getGaussianFit fuel
    method show_image tol test_range "pixels" s
  = Ok ((Some cy, Some cx), s') ->
  getFiberCenter removeCircle getArraySum super_getGaussianFit fuel
    method show_image tol test_range "microns" s
  = Ok ((Some (cy * pixel_size s / magnification s),
         Some (cx * pixel_size s / magnification s)), s').
Proof.
  intros H.
  pose proof (keeps_getFiberCenter_depth _ _ _ _ _ _ _ _ _ H) as K.
  unfold static in K. injection K as Ep Em _ _ _ _ _.
  rewrite <- Ep, <- Em.
  exact (getFiberCenter_depth_units _ _ _ _ _ _ _ _ _ H).
Qed.

(** [getFiberDiameter] and [getFiberRadius] have no diameter to return for
    a method string that contains none of 'radius', 'gaussian' and 'edge':
    such a call never returns, including method 'circle', which
    [getFiberCenter] accepts. *)
Theorem getFiberDiameter_needs_radius_gaussian_or_edge (method : string)
    (show_image : bool) (tol : R) (test_range : option R) (units : string)
    (s : ImageAnalysis) :
  contains "radius" method = false ->
  contains "gaussian" method = false ->
  contains "edge" method = false ->
  (forall (s' : ImageAnalysis) (diameter : option R),
     getFiberDiameter removeCircle getArraySum super_getGaussianFit fuel
       (Some method) show_image tol test_range units s <> Ok (diameter, s')) /\
  (forall (s' : ImageAnalysis) (radius : R),
     getFiberRadius removeCircle getArraySum super_getGaussianFit fuel
       (Some method) show_image tol test_range units s <> Ok (radius, s')).
Proof.
  intros Hr Hg He.
  assert (D : forall (s' : ImageAnalysis) (diameter : option R),
            getFiberDiameter removeCircle getArraySum super_getGaussianFit fuel
              (Some method) show_image tol test_range units s <> Ok (diameter, s')).
  { intros s' diameter H.
    unfold getFiberDiameter, getFiberDiameter_with in H.
    apply bind_Ok in H. destruct H as (s0 & s1 & _ & H).
    apply bind_Ok in H. destruct H as (c & s2 & _ & H).
    apply bind_Ok in H. destruct H as (s3 & s4 & _ & H).
    apply bind_Ok in H. destruct H as (d & s5 & H & _).
    rewrite Hr, Hg, He in H. discriminate H. }
  split; [exact D|].
  intros s' radius H. unfold getFiberRadius, getFiberRadius_with in H.
  apply bind_Ok in H. destruct H as (d & s1 & H & _).
  exact (D s1 d H).
Qed.

End Facts.

(** *** [ModalNoise.getImageData] *)

Section ImageData.

Variable removeCircle : image -> R -> R -> R -> Z -> image.
Variable getArraySum : image -> R.
Variable super_getGaussianFit : image -> R * R * R * R * R -> image * list R.
Variable fuel : nat.

(** [[
    y0, x0 = image_obj.getFiberCenter(method='edge', tol=1, test_range=10, show_image=False)
    radius = image_obj.getFiberRadius()
    image_array = image_obj.getImageArray()
    return image_array, y0, x0, radius
    ]] *)
Definition getImageData : M (image * option R * option R * R) :=
  ' (y0, x0) <- getFiberCenter removeCircle getArraySum super_getGaussianFit fuel
                  (Some "edge"%string) false 1 (Some 10) "pixels";;
  radius <- getFiberRadius removeCircle getArraySum super_getGaussianFit fuel
              None false 1 None "pixels";;
  s <- get;;
  ret (_image_array s, y0, x0, radius).

End ImageData.

Section ImageDataFacts.

Variable removeCircle : image -> R -> R -> R -> Z -> image.
Variable getArraySum : image -> R.
Variable super_getGaussianFit : image -> R * R * R * R * R -> image * list R.

Lemma getImageData_center (fuel : nat) (s : ImageAnalysis) :
  is_some (_center_y_edge s) = true ->
  getFiberCenter removeCircle getArraySum super_getGaussianFit fuel
    (Some "edge"%string) false 1 (Some 10) "pixels" s
  = Ok ((_center_y_edge s, _center_x_edge s), s).
Proof.
  intros He. unfold getFiberCenter. rewrite getFiberCenter_depth_edge.
  unfold edge_center, edge_state. rewrite He. reflexivity.
Qed.

(** On an object as the constructor leaves it, [getImageData] returns the
    image with the center and half the diameter of the edge method, and
    computes nothing new. *)
Theorem getImageData_after_construction (fuel : nat)
    (image_array filtered : image) (pixel_size magnification threshold : R)
    (s : ImageAnalysis) :
  new_ImageAnalysis image_array filtered pixel_size magnification threshold = Ok s ->
  exists (cy cx : R) (diameter : Z),
    _center_y_edge s = Some cy /\ _center_x_edge s = Some cx /\
    _fiber_diameter_edge s = Some diameter /\
    getImageData removeCircle getArraySum super_getGaussianFit (S fuel) s
    = Ok ((image_array, Some cy, Some cx, IZR diameter / 2), s).
Proof.
  unfold new_ImageAnalysis. rewrite setFiberCenterEdgeMethod_run.
  intros H. injection H as <-.
  set (s := edge_result (blank image_array filtered pixel_size magnification threshold)).
  do 3 eexists. split; [reflexivity|]. split; [reflexivity|]. split; [reflexivity|].
  unfold getImageData. unfold bind at 1.
  rewrite (getImageData_center (S fuel) s eq_refl). cbv iota beta.
  unfold bind at 1.
  unfold getFiberRadius, getFiberRadius_with, getFiberDiameter_with.
  unfold bind at 1. unfold bind at 1. unfold get at 1.
  change (default_diameter_method s) with "edge"%string.
  unfold bind at 1. rewrite getFiberCenter_depth_edge.
  change (edge_state s) with s.
  reflexivity.
Qed.

(** On an object that has run the radius method, [getImageData] pairs the
    center of the edge method with the radius of the radius method: the two
    come from different methods, and the radius center is not used. *)
Theorem getImageData_mixes_methods (fuel : nat) (s : ImageAnalysis)
    (diameter : R) :
  is_some (_center_y_edge s) = true ->
  is_some (_center_x_radius s) = true ->
  _fiber_diameter_radius s = Some diameter ->
  getImageData removeCircle getArraySum super_getGaussianFit (S fuel) s
  = Ok ((_image_array s, _center_y_edge s, _center_x_edge s, diameter / 2), s).
Proof.
  intros He Hc Hd. unfold getImageData. unfold bind at 1.
  rewrite (getImageData_center (S fuel) s He). cbv iota beta.
  unfold bind at 1.
  assert (E : getFiberRadius removeCircle getArraySum super_getGaussianFit (S fuel)
                None false 1 None "pixels" s
              = Ok (diameter / 2, s)).
  { unfold getFiberRadius, getFiberRadius_with, getFiberDiameter_with.
    unfold bind at 1. unfold bind at 1. unfold get at 1.
    unfold default_diameter_method. rewrite Hd. cbn [is_some].
    unfold bind at 1. cbn [getFiberCenter_depth]. unfold getFiberCenter_with.
    unfold bind at 1. unfold get at 1.
    change (contains "radius" "radius") with true. cbv iota.
    unfold bind at 1. unfold getFiberCenterRadiusMethod_with.
    unfold bind at 1. unfold get at 1. rewrite Hc.
    unfold bind, ret, get, need. cbn. rewrite Hd. reflexivity. }
  rewrite E. reflexivity.
Qed.

End ImageDataFacts.

(** *** On the 2 x 2 image *)

Lemma edge_center_run_obj22 :
  getFiberCenter RadiusClaims.keep_image RadiusClaims.sum_image ApiClaims.no_fit 0
    (Some "edge"%string) false 1 None "pixels" (edge_result RadiusClaims.obj22)
  = Ok ((Some 0, Some 0), edge_result RadiusClaims.obj22).
Proof.
  destruct ApiClaims.edge_result_img22 as (_ & _ & _ & _ & Hcy & Hcx & _).
  unfold getFiberCenter. rewrite getFiberCenter_depth_edge.
  unfold edge_center, edge_state. rewrite Hcy. cbn [is_some].
  rewrite Hcy, Hcx. reflexivity.
Qed.

Lemma getters_keep_image_and_calibration_witness :
  exists (s' : ImageAnalysis) (center : option R * option R),
    getFiberCenter RadiusClaims.keep_image RadiusClaims.sum_image ApiClaims.no_fit 0
      (Some "radius"%string) false 100 None "pixels" RadiusClaims.obj22
    = Ok (center, s') /\
    static s' = static RadiusClaims.obj22.
Proof.
  destruct RadiusFacts.radius_run_obj22 as [s' Hs'].
  pose proof (RadiusFacts.getFiberCenter_radius_run RadiusClaims.keep_image
                RadiusClaims.sum_image ApiClaims.no_fit 0 false 100 None
                RadiusClaims.obj22 s' eq_refl Hs') as Hrun.
  exists s'. eexists. split; [exact Hrun|].
  exact (proj1 (getters_keep_image_and_calibration RadiusClaims.keep_image
                  RadiusClaims.sum_image ApiClaims.no_fit 0
                  (Some "radius"%string) false 100 None "pixels" RadiusClaims.obj22)
           s' _ Hrun).
Defined.

Lemma getFiberCenter_microns_witness :
  getFiberCenter RadiusClaims.keep_image RadiusClaims.sum_image ApiClaims.no_fit 0
    (Some "edge"%string) false 1 None "microns" (edge_result RadiusClaims.obj22)
  = Ok ((Some (0 * pixel_size (edge_result RadiusClaims.obj22)
               / magnification (edge_result RadiusClaims.obj22)),
         Some (0 * pixel_size (edge_result RadiusClaims.obj22)
               / magnification (edge_result RadiusClaims.obj22))),
        edge_result RadiusClaims.obj22).
Proof.
  exact (getFiberCenter_microns RadiusClaims.keep_image RadiusClaims.sum_image
           ApiClaims.no_fit 0 (Some "edge"%string) false 1 None
           (edge_result RadiusClaims.obj22) (edge_result RadiusClaims.obj22) 0 0
           edge_center_run_obj22).
Defined.

Lemma getFiberDiameter_needs_radius_gaussian_or_edge_witness :
  contains "radius" "circle" = false /\
  contains "gaussian" "circle" = false /\
  contains "edge" "circle" = false /\
  forall (s' : ImageAnalysis) (diameter : option R),
    getFiberDiameter RadiusClaims.keep_image RadiusClaims.sum_image ApiClaims.no_fit 1
      (Some "circle"%string) false 1 None "pixels" (edge_result RadiusClaims.obj22)
    <> Ok (diameter, s').
Proof.
  split; [reflexivity|]. split; [reflexivity|]. split; [reflexivity|].
  exact (proj1 (getFiberDiameter_needs_radius_gaussian_or_edge RadiusClaims.keep_image
                  RadiusClaims.sum_image ApiClaims.no_fit 1 "circle" false 1 None
                  "pixels" (edge_result RadiusClaims.obj22)
                  eq_refl eq_refl eq_refl)).
Defined.

Lemma getImageData_after_construction_witness :
  exists (s : ImageAnalysis) (cy cx : R) (diameter : Z),
    new_ImageAnalysis RadiusClaims.img22 RadiusClaims.img22 1 10 1 = Ok s /\
    getImageData RadiusClaims.keep_image RadiusClaims.sum_image ApiClaims.no_fit 1 s
    = Ok ((RadiusClaims.img22, Some cy, Some cx, IZR diameter / 2), s).
Proof.
  assert (H : new_ImageAnalysis RadiusClaims.img22 RadiusClaims.img22 1 10 1
              = Ok (edge_result RadiusClaims.obj22)).
  { unfold new_ImageAnalysis. rewrite setFiberCenterEdgeMethod_run. reflexivity. }
  destruct (getImageData_after_construction RadiusClaims.keep_image
              RadiusClaims.sum_image ApiClaims.no_fit 0 _ _ _ _ _ _ H)
    as (cy & cx & d & _ & _ & _ & E).
  exists (edge_result RadiusClaims.obj22), cy, cx, d. split; [exact H | exact E].
Defined.

(** The 2 x 2 object with the results of a radius method in place. *)
Definition obj22_radius : ImageAnalysis :=
  set_radius (edge_result RadiusClaims.obj22) (Some 2) (Some 1) (Some 1) (Some 0).

Lemma getImageData_mixes_methods_witness :
  getImageData RadiusClaims.keep_image RadiusClaims.sum_image ApiClaims.no_fit 1
    obj22_radius
  = Ok ((_image_array obj22_radius, _center_y_edge obj22_radius,
         _center_x_edge obj22_radius, 2 / 2), obj22_radius).
Proof.
  destruct ApiClaims.edge_result_img22 as (_ & _ & _ & _ & Hcy & _).
  apply getImageData_mixes_methods.
  - unfold obj22_radius. cbn [set_radius _center_y_edge]. rewrite Hcy. reflexivity.
  - reflexivity.
  - reflexivity.
Defined.

End ApiFacts.

(** ** [ModalNoise.py]: the choice of the method *)

Module Dispatch.
Import Estimator.

Section Methods.

(** The eight methods applied to their arguments: what each call returns or
    raises. *)
Variable A : Type.
Variable getModalNoiseTophat : result A.
Variable getModalNoiseFFT : result A.
Variable getModalNoisePolynomial : result A.
Variable getModalNoiseGaussian : result A.
Variable getModalNoiseGradient : result A.
Variable getModalNoiseContrast : result A.
Variable getModalNoiseGini : result A.
Variable getModalNoiseEntropy : result A.

(** [ModalNoise.getModalNoise], lines 68-87; [modalNoise] of
    [FiberProperties/ModalNoise.py] has the same chain.  [method in 'tophat']
    asks whether [method] occurs in the name. *)
Definition getModalNoise (method : string) : result A :=
  if (String.length method <? 3)%nat then
    Raise "ValueError: Incorrect string for method type"
  else if contains method "tophat" then getModalNoiseTophat
  else if contains method "fft" || contains method "fourier" then getModalNoiseFFT
  else if contains method "polynomial" then getModalNoisePolynomial
  else if contains method "gaussian" then getModalNoiseGaussian
  else if contains method "gradient" then getModalNoiseGradient
  else if contains method "contrast" then getModalNoiseContrast
  else if contains method "gini" then getModalNoiseGini
  else if contains method "entropy" then getModalNoiseEntropy
  else Raise "ValueError: Incorrect string for method type".

Definition modalNoise (method : string) : result A := getModalNoise method.

(** The names and the method each one stands for. *)
Definition names : list (string * result A) :=
  [("tophat", getModalNoiseTophat); ("fft", getModalNoiseFFT);
   ("fourier", getModalNoiseFFT); ("polynomial", getModalNoisePolynomial);
   ("gaussian", getModalNoiseGaussian); ("gradient", getModalNoiseGradient);
   ("contrast", getModalNoiseContrast); ("gini", getModalNoiseGini);
   ("entropy", getModalNoiseEntropy)]%string.

End Methods.

Lemma prefix_length (needle hay : string) :
  prefix needle hay = true -> (String.length needle <= String.length hay)%nat.
Proof.
  revert hay. induction needle as [|c needle IH]; intros hay H; simpl; [lia|].
  destruct hay as [|d hay]; simpl in H; [discriminate|].
  destruct (Ascii.ascii_dec c d); [|discriminate].
  simpl. apply le_n_S. apply IH. exact H.
Qed.

Lemma contains_length (needle hay : string) :
  contains needle hay = true -> (String.length needle <= String.length hay)%nat.
Proof.
  induction hay as [|d hay IH]; intros H; cbn [contains] in H;
    apply orb_true_iff in H; destruct H as [H | H].
  - apply prefix_length in H. exact H.
  - discriminate.
  - apply prefix_length in H. exact H.
  - apply IH in H. simpl. lia.
Qed.

Lemma contains_too_long (needle hay : string) :
  (String.length hay < String.length needle)%nat -> contains needle hay = false.
Proof.
  intros Hl. destruct (contains needle hay) eqn:E; [|reflexivity].
  apply contains_length in E. lia.
Qed.

(** A method string of fewer than 3 or more than 10 characters raises
    [ValueError] whatever it is: the test is whether the string occurs in a
    name, and no name is longer than 'polynomial'. *)
Theorem getModalNoise_length (A : Type) (tophat fft polynomial gaussian gradient
    contrast gini entropy : result A) (method : string) :
  (String.length method < 3 \/ 10 < String.length method)%nat ->
  getModalNoise A tophat fft polynomial gaussian gradient contrast gini entropy method
  = Raise "ValueError: Incorrect string for method type" /\
  modalNoise A tophat fft polynomial gaussian gradient contrast gini entropy method
  = Raise "ValueError: Incorrect string for method type".
Proof.
  intros H. unfold modalNoise, getModalNoise.
  destruct (Nat.ltb_spec (String.length method) 3) as [Hs | Hs]; [split; reflexivity|].
  destruct H as [H | H]; [lia|].
  rewrite !contains_too_long by (simpl; lia). split; reflexivity.
Qed.

Lemma getModalNoise_length_witness :
  getModalNoise nat (Ok 1%nat) (Ok 2%nat) (Ok 3%nat) (Ok 4%nat) (Ok 5%nat) (Ok 6%nat)
    (Ok 7%nat) (Ok 8%nat) "polynomial fit"
  = Raise "ValueError: Incorrect string for method type".
Proof.
  apply (getModalNoise_length nat (Ok 1%nat) (Ok 2%nat) (Ok 3%nat) (Ok 4%nat)
           (Ok 5%nat) (Ok 6%nat) (Ok 7%nat) (Ok 8%nat) "polynomial fit").
  right. simpl. lia.
Defined.

(** Every name selects its own method, and so does every prefix of at least
    three characters of a name, with one exception: 'ent' occurs in
    'gradient', which is asked first, so 'ent' selects the gradient method
    and not the entropy method. *)
Theorem getModalNoise_prefixes (A : Type) (tophat fft polynomial gaussian gradient
    contrast gini entropy : result A) :
  (forall (name : string) (method : result A) (k : nat),
     In (name, method)
        (names A tophat fft polynomial gaussian gradient contrast gini entropy) ->
     (3 <= k <= String.length name)%nat ->
     substring 0 k name <> "ent"%string ->
     getModalNoise A tophat fft polynomial gaussian gradient contrast gini entropy
       (substring 0 k name) = method) /\
  getModalNoise A tophat fft polynomial gaussian gradient contrast gini entropy "ent"
  = gradient.
Proof.
  split; [|reflexivity].
  intros name method k Hin Hk Hne. unfold names in Hin.
  repeat (destruct Hin as [Hin | Hin];
          [ injection Hin as <- <-; simpl in Hk;
            do 11 (destruct k as [|k]; [try lia; try reflexivity;
                                        exfalso; apply Hne; reflexivity|]);
            lia | ]).
  contradiction.
Qed.

Lemma getModalNoise_prefixes_witness :
  getModalNoise nat (Ok 1%nat) (Ok 2%nat) (Ok 3%nat) (Ok 4%nat) (Ok 5%nat) (Ok 6%nat)
    (Ok 7%nat) (Ok 8%nat) (substring 0 4 "entropy") = Ok 8%nat.
Proof.
  apply (proj1 (getModalNoise_prefixes nat (Ok 1%nat) (Ok 2%nat) (Ok 3%nat) (Ok 4%nat)
                  (Ok 5%nat) (Ok 6%nat) (Ok 7%nat) (Ok 8%nat))).
  - unfold names. do 8 right. left. reflexivity.
  - simpl. lia.
  - discriminate.
Defined.

End Dispatch.

(** ** [ModalNoise.py]: the parameters as functions of the intensities *)

Module NoiseFacts.
Import Estimator.

(** *** Sums, minima and maxima *)

Lemma np_sum_app (l1 l2 : list R) : np_sum (l1 ++ l2) = np_sum l1 + np_sum l2.
Proof. induction l1 as [|v l1 IH]; simpl; [ring | rewrite IH; ring]. Qed.

Lemma np_sum_scale (k : R) (l : list R) : np_sum (map (Rmult k) l) = k * np_sum l.
Proof. induction l as [|v l IH]; simpl; [ring | rewrite IH; ring]. Qed.

Lemma np_sum_map_scale {A : Type} (k : R) (f : A -> R) (l : list A) :
  np_sum (map (fun v => k * f v) l) = k * np_sum (map f l).
Proof. induction l as [|v l IH]; simpl; [ring | rewrite IH; ring]. Qed.

Lemma np_sum_map_plus {A : Type} (f g : A -> R) (l : list A) :
  np_sum (map (fun v => f v + g v) l) = np_sum (map f l) + np_sum (map g l).
Proof. induction l as [|v l IH]; simpl; [ring | rewrite IH; ring]. Qed.

Lemma np_sum_map_const {A : Type} (c : R) (l : list A) :
  np_sum (map (fun _ => c) l) = INR (List.length l) * c.
Proof.
  induction l as [|v l IH]; [simpl; ring|].
  change (List.length (v :: l)) with (S (List.length l)). rewrite S_INR.
  simpl. rewrite IH. ring.
Qed.

Lemma np_sum_map_ext {A : Type} (f g : A -> R) (l : list A) :
  (forall v : A, In v l -> f v = g v) -> np_sum (map f l) = np_sum (map g l).
Proof.
  induction l as [|v l IH]; intros H; [reflexivity|].
  simpl. rewrite (H v (or_introl eq_refl)), IH; [reflexivity|].
  intros u Hu. apply H. right. exact Hu.
Qed.

Lemma np_sum_map_le {A : Type} (f g : A -> R) (l : list A) :
  (forall v : A, In v l -> f v <= g v) -> np_sum (map f l) <= np_sum (map g l).
Proof.
  induction l as [|v l IH]; intros H; [simpl; lra|].
  simpl. pose proof (H v (or_introl eq_refl)).
  assert (np_sum (map f l) <= np_sum (map g l))
    by (apply IH; intros u Hu; apply H; right; exact Hu).
  lra.
Qed.

Lemma np_sum_pos (l : list R) :
  l <> [] -> (forall v : R, In v l -> 0 < v) -> 0 < np_sum l.
Proof.
  induction l as [|v l IH]; intros Hl H; [contradiction|].
  simpl. pose proof (H v (or_introl eq_refl)).
  assert (0 <= np_sum l).
  { apply Gini.np_sum_nonneg. intros u Hu. left. apply H. right. exact Hu. }
  lra.
Qed.

Lemma np_sum_member_le (l : list R) (v : R) :
  (forall u : R, In u l -> 0 <= u) -> In v l -> v <= np_sum l.
Proof.
  induction l as [|u l IH]; intros H Hv; [contradiction|].
  simpl. pose proof (H u (or_introl eq_refl)).
  assert (Hl : forall w : R, In w l -> 0 <= w) by (intros w Hw; apply H; right; exact Hw).
  pose proof (Gini.np_sum_nonneg l Hl).
  destruct Hv as [<- | Hv]; [lra|]. pose proof (IH Hl Hv). lra.
Qed.

Lemma fold_left_Rmin_spec (t : list R) (x : R) :
  (fold_left Rmin t x = x \/ In (fold_left Rmin t x) t) /\
  fold_left Rmin t x <= x /\
  forall v : R, In v t -> fold_left Rmin t x <= v.
Proof.
  revert x. induction t as [|u t IH]; intros x; simpl.
  - split; [left; reflexivity|]. split; [lra | intros v []].
  - destruct (IH (Rmin x u)) as (Hin & Hle & Hall).
    pose proof (Rmin_l x u). pose proof (Rmin_r x u).
    split; [|split].
    + destruct Hin as [E | Hin]; [|right; right; exact Hin].
      rewrite E. unfold Rmin. destruct (Rle_dec x u); [left | right; left]; reflexivity.
    + lra.
    + intros v [<- | Hv]; [lra | apply Hall; exact Hv].
Qed.

Lemma fold_left_Rmax_spec (t : list R) (x : R) :
  (fold_left Rmax t x = x \/ In (fold_left Rmax t x) t) /\
  x <= fold_left Rmax t x /\
  forall v : R, In v t -> v <= fold_left Rmax t x.
Proof.
  revert x. induction t as [|u t IH]; intros x; simpl.
  - split; [left; reflexivity|]. split; [lra | intros v []].
  - destruct (IH (Rmax x u)) as (Hin & Hle & Hall).
    pose proof (Rmax_l x u). pose proof (Rmax_r x u).
    split; [|split].
    + destruct Hin as [E | Hin]; [|right; right; exact Hin].
      rewrite E. unfold Rmax. destruct (Rle_dec x u); [right; left | left]; reflexivity.
    + lra.
    + intros v [<- | Hv]; [lra | apply Hall; exact Hv].
Qed.

Lemma np_min_spec (a : list R) :
  a <> [] -> In (np_min a) a /\ forall v : R, In v a -> np_min a <= v.
Proof.
  destruct a as [|x t]; [contradiction|]. intros _.
  destruct (fold_left_Rmin_spec t x) as (Hin & Hle & Hall). simpl np_min. split.
  - destruct Hin as [E | Hin]; [left; symmetry; exact E | right; exact Hin].
  - intros v [<- | Hv]; [exact Hle | apply Hall; exact Hv].
Qed.

Lemma np_max_spec (a : list R) :
  a <> [] -> In (np_max a) a /\ forall v : R, In v a -> v <= np_max a.
Proof.
  destruct a as [|x t]; [contradiction|]. intros _.
  destruct (fold_left_Rmax_spec t x) as (Hin & Hle & Hall). simpl np_max. split.
  - destruct Hin as [E | Hin]; [left; symmetry; exact E | right; exact Hin].
  - intros v [<- | Hv]; [exact Hle | apply Hall; exact Hv].
Qed.

(** *** The Michelson contrast *)

(** [getModalNoiseContrast] and [_modalNoiseContrast] from the point where
    [intensity_array] is known:
    [(intensity_array.max() - intensity_array.min())
     / (intensity_array.max() + intensity_array.min())]. *)
Definition getModalNoiseContrast (intensity_array : list R) : R :=
  (np_max intensity_array - np_min intensity_array)
  / (np_max intensity_array + np_min intensity_array).

Definition _modalNoiseContrast (intensity_array : list R) : R :=
  getModalNoiseContrast intensity_array.

(** For nonnegative intensities that are not all zero the contrast lies in
    [0, 1]; it is 1 exactly when some pixel of the region is 0, and 0 exactly
    when all pixels are equal. *)
Theorem contrast_bounds (intensity_array : list R) :
  (forall v : R, In v intensity_array -> 0 <= v) ->
  0 < np_max intensity_array ->
  0 <= getModalNoiseContrast intensity_array <= 1 /\
  (getModalNoiseContrast intensity_array = 1 <-> In 0 intensity_array) /\
  (getModalNoiseContrast intensity_array = 0 <->
   forall u v : R, In u intensity_array -> In v intensity_array -> u = v) /\
  _modalNoiseContrast intensity_array = getModalNoiseContrast intensity_array.
Proof.
  intros Hnn Hpos.
  assert (Hne : intensity_array <> []).
  { intros ->. simpl in Hpos. lra. }
  destruct (np_min_spec _ Hne) as [Hmin_in Hmin]. destruct (np_max_spec _ Hne) as [Hmax_in Hmax].
  pose proof (Hnn _ Hmin_in) as Hm0. pose proof (Hmin _ Hmax_in) as Hmm.
  unfold _modalNoiseContrast, getModalNoiseContrast.
  set (M := np_max intensity_array) in *. set (m := np_min intensity_array) in *.
  assert (Hd : 0 < M + m) by lra.
  assert (Hinv : 0 < / (M + m)) by (apply Rinv_0_lt_compat; exact Hd).
  assert (E1 : (M - m) / (M + m) = 1 <-> m = 0).
  { split; intros H.
    - apply (Rmult_eq_compat_r (M + m)) in H. unfold Rdiv in H.
      rewrite Rmult_assoc, Rinv_l in H by lra. lra.
    - rewrite H. field. lra. }
  assert (E0 : (M - m) / (M + m) = 0 <-> m = M).
  { split; intros H.
    - apply (Rmult_eq_compat_r (M + m)) in H. unfold Rdiv in H.
      rewrite Rmult_assoc, Rinv_l in H by lra. lra.
    - rewrite H. field. lra. }
  split; [|split; [|split]].
  - split.
    + apply Rmult_le_pos; lra.
    + apply Rmult_le_reg_r with (r := M + m); [exact Hd|].
      unfold Rdiv. rewrite Rmult_assoc, Rinv_l by lra. lra.
  - rewrite E1. split; intros H.
    + rewrite <- H. exact Hmin_in.
    + pose proof (Hmin 0 H). lra.
  - rewrite E0. split; intros H.
    + intros u v Hu Hv.
      pose proof (Hmin u Hu). pose proof (Hmax u Hu).
      pose proof (Hmin v Hv). pose proof (Hmax v Hv). lra.
    + apply H; assumption.
  - reflexivity.
Qed.

Lemma contrast_bounds_witness :
  0 <= getModalNoiseContrast [1; 3] <= 1.
Proof.
  apply contrast_bounds.
  - intros v [<- | [<- | []]]; lra.
  - simpl. unfold Rmax. destruct (Rle_dec 1 3); lra.
Defined.

(** *** The entropy *)

(** [np.log10] on positive numbers. *)
Definition np_log10 (v : R) : R := ln v / ln 10.

(** [getModalNoiseEntropy] and [_modalNoiseEntropy] from the point where
    [intensity_array] is known:
    [[
    intensity_array = intensity_array / intensity_array.sum()
    return (-intensity_array * np.log10(intensity_array)).sum()
    ]] *)
Definition getModalNoiseEntropy (intensity_array : list R) : R :=
  let intensity_array :=
    map (fun v => v / np_sum intensity_array) intensity_array in
  np_sum (map (fun v => - v * np_log10 v) intensity_array).

Definition _modalNoiseEntropy (intensity_array : list R) : R :=
  getModalNoiseEntropy intensity_array.

Lemma ln_10_pos : 0 < ln 10.
Proof. rewrite <- ln_1. apply ln_increasing; lra. Qed.

Lemma ln_le_sub_1 (y : R) : 0 < y -> ln y <= y - 1.
Proof.
  intros Hy. pose proof (exp_ineq1_le (ln y)) as H. rewrite exp_ln in H by exact Hy. lra.
Qed.

Lemma ln_nonpos (y : R) : 0 < y <= 1 -> ln y <= 0.
Proof. intros [H0 H1]. pose proof (ln_le_sub_1 y H0). lra. Qed.

(** The normalised intensities are positive, at most 1, and sum to 1. *)
Lemma normalised (a : list R) :
  a <> [] -> (forall v : R, In v a -> 0 < v) ->
  (forall p : R, In p (map (fun v => v / np_sum a) a) -> 0 < p <= 1) /\
  np_sum (map (fun v => v / np_sum a) a) = 1.
Proof.
  intros Hne Hpos. pose proof (np_sum_pos a Hne Hpos) as HS.
  assert (Hinv : 0 < / np_sum a) by (apply Rinv_0_lt_compat; exact HS).
  split.
  - intros p Hp. apply in_map_iff in Hp. destruct Hp as (v & <- & Hv).
    pose proof (Hpos v Hv).
    assert (v <= np_sum a).
    { apply np_sum_member_le; [|exact Hv]. intros u Hu. left. apply Hpos. exact Hu. }
    split.
    + apply Rmult_lt_0_compat; assumption.
    + apply Rmult_le_reg_r with (r := np_sum a); [exact HS|].
      unfold Rdiv. rewrite Rmult_assoc, Rinv_l by lra. lra.
  - rewrite (np_sum_map_ext (fun v => v / np_sum a) (fun v => / np_sum a * (fun u => u) v))
      by (intros v _; unfold Rdiv; ring).
    rewrite np_sum_map_scale, map_id. field. lra.
Qed.

(** For positive intensities the entropy lies between 0 and [log10 n], where
    [n] is the number of pixels of the region, and it is [log10 n] when all
    pixels are equal: the parameter is largest for a uniform region. *)
Theorem entropy_bounds (intensity_array : list R) :
  intensity_array <> [] ->
  (forall v : R, In v intensity_array -> 0 < v) ->
  0 <= getModalNoiseEntropy intensity_array
    <= np_log10 (INR (List.length intensity_array)) /\
  (forall c : R, (forall v : R, In v intensity_array -> v = c) ->
     getModalNoiseEntropy intensity_array
     = np_log10 (INR (List.length intensity_array))) /\
  _modalNoiseEntropy intensity_array = getModalNoiseEntropy intensity_array.
Proof.
  intros Hne Hpos.
  destruct (normalised intensity_array Hne Hpos) as [Hp Hsum].
  pose proof ln_10_pos as L10.
  assert (Hn : 0 < INR (List.length intensity_array)).
  { destruct intensity_array; [contradiction|]. apply lt_0_INR. simpl. lia. }
  unfold _modalNoiseEntropy, getModalNoiseEntropy, np_log10.
  set (p := map (fun v => v / np_sum intensity_array) intensity_array) in *.
  set (n := INR (List.length intensity_array)) in *.
  assert (Hlen : INR (List.length p) = n).
  { unfold p, n. rewrite length_map. reflexivity. }
  split; [split|split].
  - apply Gini.np_sum_nonneg. intros w Hw. apply in_map_iff in Hw.
    destruct Hw as (q & <- & Hq). destruct (Hp q Hq) as [H0 H1].
    pose proof (ln_nonpos q (conj H0 H1)).
    assert (0 <= - ln q / ln 10).
    { apply Rmult_le_pos; [lra | left; apply Rinv_0_lt_compat; exact L10]. }
    replace (- q * (ln q / ln 10)) with (q * (- ln q / ln 10)) by (field; lra).
    apply Rmult_le_pos; lra.
  - apply Rle_trans with
      (np_sum (map (fun q => (ln n / ln 10) * q + (/ (n * ln 10) + - / ln 10 * q)) p)).
    + apply np_sum_map_le. intros q Hq. destruct (Hp q Hq) as [H0 H1].
      assert (Hnq : 0 < / (n * q)).
      { apply Rinv_0_lt_compat. apply Rmult_lt_0_compat; assumption. }
      pose proof (ln_le_sub_1 (/ (n * q)) Hnq) as G.
      rewrite ln_Rinv in G by (apply Rmult_lt_0_compat; assumption).
      rewrite ln_mult in G by assumption.
      assert (G' : q * (- ln q) <= q * ln n + / n - q).
      { assert (q * (- (ln n + ln q)) <= q * (/ (n * q) - 1))
          by (apply Rmult_le_compat_l; lra).
        replace (q * (/ (n * q) - 1)) with (/ n - q) in H by (field; lra).
        lra. }
      assert (Hi : 0 < / ln 10) by (apply Rinv_0_lt_compat; exact L10).
      replace (- q * (ln q / ln 10)) with (q * (- ln q) * / ln 10) by (field; lra).
      replace (ln n / ln 10 * q + (/ (n * ln 10) + - / ln 10 * q))
        with ((q * ln n + / n - q) * / ln 10) by (field; lra).
      apply Rmult_le_compat_r; lra.
    + rewrite np_sum_map_plus, np_sum_map_plus.
      rewrite (np_sum_map_scale (ln n / ln 10) (fun q => q)).
      rewrite (np_sum_map_scale (- / ln 10) (fun q => q)).
      rewrite np_sum_map_const, map_id, Hsum, Hlen.
      right. field. lra.
  - intros c Hc.
    assert (Hq : forall q : R, In q p -> q = / n).
    { intros q Hq. apply in_map_iff in Hq. destruct Hq as (v & <- & Hv).
      assert (ES : np_sum intensity_array = n * c).
      { rewrite <- (map_id intensity_array) at 1.
        rewrite (np_sum_map_ext (fun v => v) (fun _ => c)) by (intros u Hu; apply Hc; exact Hu).
        apply np_sum_map_const. }
      assert (0 < c).
      { destruct intensity_array as [|u t]; [contradiction|].
        rewrite <- (Hc u (or_introl eq_refl)). apply Hpos. left. reflexivity. }
      rewrite ES, (Hc v Hv). field. lra. }
    rewrite (np_sum_map_ext (fun v => - v * (ln v / ln 10))
               (fun _ => - / n * (ln (/ n) / ln 10)))
      by (intros q Hq'; rewrite (Hq q Hq'); reflexivity).
    rewrite np_sum_map_const, Hlen, ln_Rinv by exact Hn. field. lra.
  - reflexivity.
Qed.

Lemma entropy_bounds_witness :
  0 <= getModalNoiseEntropy [1; 3] <= np_log10 (INR (List.length [1; 3])).
Proof.
  apply entropy_bounds.
  - discriminate.
  - intros v [<- | [<- | []]]; lra.
Defined.

(** *** The Gini coefficient *)

Lemma abs_diff_sum_scale (k : R) (a : list R) :
  Gini.abs_diff_sum (map (Rmult k) a) = Rabs k * Gini.abs_diff_sum a.
Proof.
  unfold Gini.abs_diff_sum. rewrite map_map.
  rewrite <- np_sum_map_scale. apply np_sum_map_ext. intros v _.
  rewrite map_map, <- np_sum_map_scale. apply np_sum_map_ext. intros u _.
  rewrite <- Rabs_mult. f_equal. ring.
Qed.

(** The Gini coefficient does not change when every intensity is multiplied
    by the same positive factor. *)
Theorem gini_scale_invariant (test_array : image) (k : R) :
  0 < k ->
  np_sum (ravel test_array) <> 0 ->
  Gini.getGiniCoefficient (map (map (Rmult k)) test_array)
  = Gini.getGiniCoefficient test_array /\
  Gini._gini_coefficient (map (map (Rmult k)) test_array)
  = Gini._gini_coefficient test_array.
Proof.
  intros Hk HS. unfold Gini._gini_coefficient.
  assert (E : Gini.getGiniCoefficient (map (map (Rmult k)) test_array)
              = Gini.getGiniCoefficient test_array).
  { rewrite !Gini.getGiniCoefficient_eq. unfold ravel in *.
    rewrite <- concat_map, abs_diff_sum_scale, np_sum_scale, length_map.
    rewrite (Rabs_pos_eq k) by lra.
    assert (Hn : INR (List.length (concat test_array)) <> 0).
    { destruct (concat test_array); [simpl in HS; lra|].
      apply not_0_INR. simpl. lia. }
    field. repeat split; lra. }
  split; exact E.
Qed.

Lemma gini_scale_invariant_witness :
  Gini.getGiniCoefficient (map (map (Rmult 2)) [[1; 3]]) = Gini.getGiniCoefficient [[1; 3]].
Proof.
  apply gini_scale_invariant; [lra | simpl; lra].
Defined.

Lemma np_sum_repeat (c : R) (n : nat) : np_sum (repeat c n) = INR n * c.
Proof.
  induction n as [|n IH]; [simpl; ring|].
  rewrite S_INR. simpl. rewrite IH. ring.
Qed.

(** A region with one lit pixel among [n] has the coefficient [(n - 1) / n]:
    the upper bound 1 is approached and never reached. *)
Theorem gini_single_lit_pixel (test_array : image) (i j : nat) (v : R) :
  0 < v ->
  ravel test_array = repeat 0 i ++ v :: repeat 0 j ->
  Gini.getGiniCoefficient test_array = INR (i + j) / INR (i + j + 1) /\
  Gini.getGiniCoefficient test_array < 1.
Proof.
  intros Hv Ha.
  assert (Hn : 0 < INR (i + j + 1)) by (apply lt_0_INR; lia).
  assert (E : Gini.getGiniCoefficient test_array = INR (i + j) / INR (i + j + 1)).
  { rewrite Gini.getGiniCoefficient_eq, Ha.
    assert (Hsum : np_sum (repeat 0 i ++ v :: repeat 0 j) = v).
    { rewrite np_sum_app. simpl. rewrite !np_sum_repeat. ring. }
    assert (Hlen : List.length (repeat 0 i ++ v :: repeat 0 j) = (i + j + 1)%nat).
    { rewrite length_app. simpl. rewrite !repeat_length. lia. }
    assert (Hin : forall u : R,
              np_sum (map (fun w => Rabs (u - w)) (repeat 0 i ++ v :: repeat 0 j))
              = INR i * Rabs u + Rabs (u - v) + INR j * Rabs u).
    { intros u. rewrite map_app, np_sum_app. simpl.
      rewrite !map_repeat, !np_sum_repeat.
      replace (u - 0) with u by ring. ring. }
    assert (Hd : Gini.abs_diff_sum (repeat 0 i ++ v :: repeat 0 j)
                 = 2 * INR (i + j) * v).
    { unfold Gini.abs_diff_sum.
      rewrite (np_sum_map_ext _ (fun u => INR i * Rabs u + Rabs (u - v) + INR j * Rabs u))
        by (intros u _; apply Hin).
      rewrite map_app, np_sum_app. simpl. rewrite !map_repeat, !np_sum_repeat.
      replace (0 - v) with (- v) by ring. replace (v - v) with 0 by ring.
      rewrite Rabs_R0, Rabs_Ropp, (Rabs_pos_eq v) by lra.
      rewrite plus_INR. ring. }
    rewrite Hd, Hsum, Hlen. field. split; lra. }
  split; [exact E|]. rewrite E.
  apply Rmult_lt_reg_r with (r := INR (i + j + 1)); [exact Hn|].
  unfold Rdiv. rewrite Rmult_assoc, Rinv_l by lra.
  rewrite (plus_INR (i + j) 1). simpl. lra.
Qed.

Lemma gini_single_lit_pixel_witness :
  Gini.getGiniCoefficient [[0; 0]; [5; 0]] = INR (2 + 1) / INR (2 + 1 + 1).
Proof.
  apply (gini_single_lit_pixel [[0; 0]; [5; 0]] 2 1 5); [lra | reflexivity].
Defined.

(** *** The tophat parameter *)

Lemma np_mean_scale (k : R) (l : list R) :
  Tophat.np_mean (map (Rmult k) l) = k * Tophat.np_mean l.
Proof.
  unfold Tophat.np_mean. rewrite np_sum_scale, length_map. unfold Rdiv. ring.
Qed.

Lemma np_std_scale (k : R) (l : list R) :
  0 <= k -> Tophat.np_std (map (Rmult k) l) = k * Tophat.np_std l.
Proof.
  intros Hk. unfold Tophat.np_std. rewrite np_mean_scale, map_map.
  assert (E : Tophat.np_mean (map (fun v => Rabs (k * v - k * Tophat.np_mean l) ^ 2) l)
              = (k * k) * Tophat.np_mean
                            (map (fun v => Rabs (v - Tophat.np_mean l) ^ 2) l)).
  { unfold Tophat.np_mean at 1 3. rewrite !length_map.
    rewrite (np_sum_map_ext _ (fun v => (k * k) * Rabs (v - Tophat.np_mean l) ^ 2)).
    - rewrite np_sum_map_scale. unfold Rdiv. ring.
    - intros v _. replace (k * v - k * Tophat.np_mean l)
        with (k * (v - Tophat.np_mean l)) by ring.
      rewrite Rabs_mult, (Rabs_pos_eq k) by exact Hk. ring. }
  rewrite E, sqrt_mult_alt by nra. rewrite sqrt_square by exact Hk. reflexivity.
Qed.

Lemma np_sum_map_ext_mean (l : list R) (c : R) :
  (forall v : R, In v l -> v = c) ->
  Tophat.np_mean (map (fun v => Rabs (v - c) ^ 2) l) = 0.
Proof.
  intros Hall. unfold Tophat.np_mean.
  rewrite (np_sum_map_ext _ (fun _ => 0)).
  - rewrite np_sum_map_const. unfold Rdiv. ring.
  - intros v Hv. rewrite (Hall v Hv). replace (c - c) with 0 by ring.
    rewrite Rabs_R0. ring.
Qed.

(** The tophat parameter std / mean does not change when every intensity is
    multiplied by the same positive factor, and it is 0 for a region of equal
    nonzero intensities. *)
Theorem tophat_parameter_scale_invariant
    (array_branch : list R -> image * image)
    (intensity_array : list R) (output : string) (k : R) :
  0 < k ->
  Tophat.parameter_mode output ->
  Tophat.getModalNoiseTophat array_branch (map (Rmult k) intensity_array) output
  = Tophat.getModalNoiseTophat array_branch intensity_array output /\
  (forall c : R, c <> 0 -> intensity_array <> [] ->
     (forall v : R, In v intensity_array -> v = c) ->
     Tophat.getModalNoiseTophat array_branch intensity_array output
     = Ok (Tophat.Scalar (Tophat.Finite 0))).
Proof.
  intros Hk Hmode.
  rewrite !(Tophat.getModalNoiseTophat_parameter array_branch _ _ Hmode).
  split.
  - f_equal. f_equal. unfold Tophat.std_over_mean.
    destruct intensity_array as [|v l]; [reflexivity|].
    change (map (Rmult k) (v :: l)) with (k * v :: map (Rmult k) l) at 1.
    change (k * v :: map (Rmult k) l) with (map (Rmult k) (v :: l)).
    rewrite np_mean_scale, np_std_scale by lra.
    pose proof (Tophat.np_std_nonneg (v :: l)) as Hs.
    set (sd := Tophat.np_std (v :: l)) in *. set (mu := Tophat.np_mean (v :: l)) in *.
    assert (Zmu : k * mu = 0 <-> mu = 0).
    { split; intros H; [|rewrite H; ring].
      apply Rmult_integral in H. destruct H; [lra | assumption]. }
    assert (Zsd : k * sd = 0 <-> sd = 0).
    { split; intros H; [|rewrite H; ring].
      apply Rmult_integral in H. destruct H; [lra | assumption]. }
    unfold Tophat.np_divide.
    destruct (Req_dec_T (k * mu) 0) as [Z | NZ]; destruct (Req_dec_T mu 0) as [Z' | NZ'];
      try (exfalso; tauto).
    + destruct (Req_dec_T (k * sd) 0) as [S | NS]; destruct (Req_dec_T sd 0) as [S' | NS'];
        try (exfalso; tauto); [reflexivity|].
      assert (0 < sd) by lra. assert (0 < k * sd) by (apply Rmult_lt_0_compat; lra).
      destruct (Rlt_dec 0 (k * sd)); destruct (Rlt_dec 0 sd);
        try reflexivity; exfalso; lra.
    + apply f_equal. field. lra.
  - intros c Hc Hne Hall.
    f_equal. f_equal. unfold Tophat.std_over_mean.
    destruct intensity_array as [|v l]; [contradiction|].
    assert (Hn : 0 < INR (List.length (v :: l))) by (apply lt_0_INR; simpl; lia).
    assert (Hmu : Tophat.np_mean (v :: l) = c).
    { unfold Tophat.np_mean. rewrite <- (map_id (v :: l)) at 1.
      rewrite (np_sum_map_ext (fun u => u) (fun _ => c)) by (intros u Hu; apply Hall; exact Hu).
      rewrite np_sum_map_const. field. lra. }
    assert (Hsd : Tophat.np_std (v :: l) = 0).
    { unfold Tophat.np_std. rewrite Hmu.
      rewrite (np_sum_map_ext_mean (v :: l) c Hall). apply sqrt_0. }
    rewrite Hmu, Hsd. unfold Tophat.np_divide.
    destruct (Req_dec_T c 0) as [Z | _]; [contradiction|].
    apply f_equal. field. exact Hc.
Qed.

Lemma tophat_parameter_scale_invariant_witness :
  Tophat.getModalNoiseTophat Tophat.no_arrays (map (Rmult 2) [1; 3]) "parameter"
  = Tophat.getModalNoiseTophat Tophat.no_arrays [1; 3] "parameter".
Proof.
  assert (Hk : 0 < 2) by lra.
  exact (proj1 (tophat_parameter_scale_invariant Tophat.no_arrays [1; 3] "parameter" 2
                  Hk Tophat.parameter_mode_parameter)).
Defined.

End NoiseFacts.

(** ** [ModalNoise.py]: more on the fft method *)

Module SpectrumFacts.
Import Estimator FFT.

(** *** The frequencies *)

(** A mask that is true on the first [n] entries keeps them in place. *)
Lemma filter_keeps_first {A : Type} (pred : A -> bool) (d : A) (n : nat) (l : list A) :
  (n <= List.length l)%nat ->
  (forall k : nat, (k < n)%nat -> pred (nth k l d) = true) ->
  forall k : nat, (k < n)%nat -> nth k (filter pred l) d = nth k l d.
Proof.
  revert l. induction n as [|n IH]; intros l Hl Hp k Hk; [lia|].
  destruct l as [|a l]; [simpl in Hl; lia|].
  pose proof (Hp 0%nat ltac:(lia)) as H0. simpl in H0.
  simpl. rewrite H0. destruct k as [|k]; [reflexivity|].
  simpl. apply IH; [simpl in Hl; lia | | lia].
  intros k' Hk'. apply (Hp (S k')). lia.
Qed.

Lemma masked_nth {A : Type} (d : A) (l : list A) (weight_list : list R) (n k : nat) :
  List.length l = (n + 1)%nat -> List.length weight_list = (n + 1)%nat ->
  (forall i : nat, (i < n)%nat -> 0 < nth i weight_list 0) ->
  (k < n)%nat ->
  nth k (masked l weight_list) (d, 0) = (nth k l d, nth k weight_list 0).
Proof.
  intros Hl Hw Hpos Hk. unfold masked.
  rewrite (filter_keeps_first _ (d, 0) n).
  - apply combine_nth. lia.
  - rewrite length_combine. lia.
  - intros i Hi. rewrite combine_nth by lia. simpl.
    apply Rgtb_true. specialize (Hpos i Hi). lra.
  - exact Hk.
Qed.

Section Frequencies.

Variable fft2_abs_shift : image -> nat -> nat -> nat -> R.

(** The frequencies that go with the spectrum: entry [k], for every [k] below
    half the transform length, is [k / (fft_length * pixel_size / magnification)],
    in both implementations and whatever the image. *)
Theorem fft_frequencies (fft_length : nat) (normalizer : list R -> R)
    (image_array : image) (pixel_size magnification : R) (k : nat) :
  (k < fft_length / 2)%nat ->
  nth k (snd (fft_array_output fft2_abs_shift fft_length normalizer
                image_array pixel_size magnification)) 0
  = INR k / (INR fft_length * pixel_size / magnification) /\
  (k < List.length (snd (fft_array_output fft2_abs_shift fft_length normalizer
                           image_array pixel_size magnification)))%nat.
Proof.
  intros Hk. unfold fft_array_output.
  set (Q := fold_quadrants _ _ _).
  destruct (bins_spec Q (fft_length / 2)) as (H1 & H2 & Hpos).
  destruct (bins Q (fft_length / 2) (fft_length / 2 + 1)) as [fft_list weight_list].
  cbn [fst snd] in *.
  set (freq_list := map INR (seq 0 (fft_length / 2 + 1))).
  assert (Hf : List.length freq_list = (fft_length / 2 + 1)%nat).
  { unfold freq_list. rewrite length_map, length_seq. reflexivity. }
  pose proof (masked_length 0 freq_list weight_list (fft_length / 2) Hf H2 Hpos) as [Hlo _].
  assert (Hlen : (k < List.length (map fst (masked freq_list weight_list)))%nat).
  { rewrite length_map. lia. }
  split; [|rewrite length_map; exact Hlen].
  set (c := INR fft_length * pixel_size / magnification).
  rewrite (nth_indep _ 0 ((fun v => v / c) 0)) by (rewrite length_map; exact Hlen).
  rewrite (map_nth (fun v => v / c)).
  rewrite (nth_indep _ 0 (fst (0, 0))) by exact Hlen.
  rewrite (map_nth fst).
  rewrite (masked_nth 0 freq_list weight_list (fft_length / 2) k Hf H2 Hpos Hk).
  cbn [fst]. unfold freq_list.
  rewrite (nth_indep _ 0 (INR 0)) by (rewrite length_map, length_seq; lia).
  rewrite (map_nth INR), seq_nth by lia. reflexivity.
Qed.

End Frequencies.

Lemma fft_frequencies_witness :
  nth 3 (snd (_modalNoiseFFT_array flat_spectrum [[1]] 2 10)) 0
  = INR 3 / (INR 2500 * 2 / 10).
Proof.
  apply (fft_frequencies flat_spectrum 2500 np_sum [[1]] 2 10 3).
  change (2500 / 2)%nat with 1250%nat. lia.
Defined.

(** *** The normalisation *)

Lemma add_at_nonneg (l : list R) (k : nat) (d : R) :
  Forall (Rle 0) l -> 0 <= d -> Forall (Rle 0) (add_at l k d).
Proof.
  intros Hl Hd. revert k. induction Hl as [|v l Hv Hl IH]; intros k; [constructor|].
  destruct k as [|k]; simpl; constructor; auto. lra.
Qed.

Lemma repeat_0_nonneg (n : nat) : Forall (Rle 0) (repeat 0 n).
Proof. induction n; simpl; constructor; auto. lra. Qed.

Section NonNegative.

Variable fft_array : nat -> nat -> R.
Variable max_freq : nat.
Hypothesis fft_nonneg : forall a b : nat, 0 <= fft_array a b.

Lemma bin_step_nonneg (acc : list R * list R) (ij : nat * nat) :
  Forall (Rle 0) (fst acc) -> Forall (Rle 0) (fst (bin_step fft_array max_freq acc ij)).
Proof.
  intros H. unfold bin_step. destruct ij as [i j], acc as [f w].
  destruct (Rleb (freq i j) (INR max_freq)); simpl; [|exact H].
  apply add_at_nonneg; [exact H|].
  pose proof (fft_nonneg j i). pose proof (fft_nonneg i j). lra.
Qed.

Lemma bin_step_fft_le (acc : list R * list R) (ij : nat * nat) (k : nat) :
  nth k (fst acc) 0 <= nth k (fst (bin_step fft_array max_freq acc ij)) 0.
Proof.
  unfold bin_step. destruct ij as [i j], acc as [f w].
  destruct (Rleb (freq i j) (INR max_freq)); simpl; [|lra].
  apply nth_add_at_le.
  pose proof (fft_nonneg j i). pose proof (fft_nonneg i j). lra.
Qed.

Lemma fold_bin_step_nonneg (l : list (nat * nat)) (acc : list R * list R) :
  Forall (Rle 0) (fst acc) ->
  Forall (Rle 0) (fst (fold_left (bin_step fft_array max_freq) l acc)).
Proof.
  revert acc. induction l as [|p l IH]; intros acc H; simpl; [exact H|].
  apply IH. apply bin_step_nonneg. exact H.
Qed.

Lemma fold_bin_step_fft_le (l : list (nat * nat)) (acc : list R * list R) (k : nat) :
  nth k (fst acc) 0 <= nth k (fst (fold_left (bin_step fft_array max_freq) l acc)) 0.
Proof.
  revert acc. induction l as [|p l IH]; intros acc; simpl; [lra|].
  pose proof (bin_step_fft_le acc p k).
  pose proof (IH (bin_step fft_array max_freq acc p)). lra.
Qed.

(** The pair [(0, 0)] adds the zero-frequency term to bin 0. *)
Lemma bin_step_origin (acc : list R * list R) :
  (0 < List.length (fst acc))%nat ->
  nth 0 (fst (bin_step fft_array max_freq acc (0%nat, 0%nat))) 0
  = nth 0 (fst acc) 0 + (fft_array 0%nat 0%nat + fft_array 0%nat 0%nat).
Proof.
  intros Hl. unfold bin_step. destruct acc as [f w].
  rewrite in_range_eq, bin_of_eq.
  change (0 ^ 2 + 0 ^ 2)%nat with 0%nat. change (Nat.sqrt 0) with 0%nat.
  change (0 <=? max_freq ^ 2)%nat with true. cbv iota. cbn [fst].
  apply nth_add_at_same. exact Hl.
Qed.

Lemma fold_bin_step_origin (l : list (nat * nat)) (acc : list R * list R) :
  (0 < List.length (fst acc))%nat ->
  In (0%nat, 0%nat) l ->
  nth 0 (fst acc) 0 + (fft_array 0%nat 0%nat + fft_array 0%nat 0%nat)
  <= nth 0 (fst (fold_left (bin_step fft_array max_freq) l acc)) 0.
Proof.
  revert acc. induction l as [|p l IH]; intros acc Hl Hin; [contradiction|].
  simpl. destruct Hin as [-> | Hin].
  - rewrite <- (bin_step_origin acc Hl). apply fold_bin_step_fft_le.
  - pose proof (bin_step_fft_le acc p 0).
    assert (Hl' : (0 < List.length (fst (bin_step fft_array max_freq acc p)))%nat).
    { destruct (bin_step_length fft_array max_freq acc p) as [-> _]. exact Hl. }
    pose proof (IH _ Hl' Hin). lra.
Qed.

(** The binned sums are nonnegative, and bin 0 holds at least twice the
    zero-frequency term. *)
Lemma bins_nonneg :
  (1 <= max_freq)%nat ->
  Forall (Rle 0) (fst (bins fft_array max_freq (max_freq + 1))) /\
  2 * fft_array 0%nat 0%nat <= nth 0 (fst (bins fft_array max_freq (max_freq + 1))) 0.
Proof.
  intros Hm. unfold bins. split.
  - apply fold_bin_step_nonneg. apply repeat_0_nonneg.
  - pose proof (fold_bin_step_origin (triangle max_freq)
                  (repeat 0 (max_freq + 1), repeat 0 (max_freq + 1))) as H.
    cbn [fst] in H. rewrite repeat_length, nth_repeat_0 in H.
    specialize (H ltac:(lia) (axis_in_triangle max_freq 0 ltac:(lia))). lra.
Qed.

End NonNegative.

(** The averaged spectrum: nonnegative, with a positive first entry. *)
Lemma averaged_positive (fft_list weight_list : list R) (n : nat) :
  (1 <= n)%nat ->
  List.length fft_list = (n + 1)%nat -> List.length weight_list = (n + 1)%nat ->
  (forall k : nat, (k < n)%nat -> 0 < nth k weight_list 0) ->
  Forall (Rle 0) fft_list -> 0 < nth 0 fft_list 0 ->
  exists (v : R) (t : list R),
    map (fun fw : R * R => fst fw / snd fw) (masked fft_list weight_list) = v :: t /\
    0 < v /\ Forall (Rle 0) t.
Proof.
  intros Hn Hf Hw Hpos Hnn H0.
  pose proof (masked_nth 0 fft_list weight_list n 0 Hf Hw Hpos ltac:(lia)) as E.
  pose proof (masked_length 0 fft_list weight_list n Hf Hw Hpos) as [Hlo _].
  assert (Hall : Forall (fun fw : R * R => 0 <= fst fw / snd fw)
                   (masked fft_list weight_list)).
  { apply Forall_forall. intros [f w] Hin. unfold masked in Hin.
    apply filter_In in Hin. destruct Hin as [Hin Hw0]. cbn [fst snd] in *.
    apply Rgtb_true in Hw0. apply in_combine_l in Hin.
    rewrite Forall_forall in Hnn. pose proof (Hnn f Hin).
    apply Rmult_le_pos; [assumption | left; apply Rinv_0_lt_compat; lra]. }
  destruct (masked fft_list weight_list) as [|[f w] m]; [simpl in Hlo; lia|].
  simpl in E. injection E as -> ->.
  exists (nth 0 fft_list 0 / nth 0 weight_list 0),
         (map (fun fw : R * R => fst fw / snd fw) m).
  split; [reflexivity|]. split.
  - apply Rmult_lt_0_compat; [exact H0|]. apply Rinv_0_lt_compat. apply Hpos. lia.
  - inversion Hall as [|? ? _ Hm]; subst. clear - Hm.
    induction Hm; simpl; constructor; auto.
Qed.

Lemma np_sum_div (l : list R) (c : R) :
  np_sum (map (fun v => v / c) l) = np_sum l / c.
Proof.
  induction l as [|v l IH]; simpl; [unfold Rdiv; ring|].
  rewrite IH. unfold Rdiv. ring.
Qed.

Lemma np_max_div (l : list R) :
  0 < np_max l -> np_max (map (fun v => v / np_max l) l) = 1.
Proof.
  intros HM.
  assert (Hne : l <> []) by (intros ->; simpl in HM; lra).
  destruct (NoiseFacts.np_max_spec l Hne) as [Hin Hall].
  assert (Hne' : map (fun v => v / np_max l) l <> []).
  { destruct l; [contradiction | discriminate]. }
  destruct (NoiseFacts.np_max_spec _ Hne') as [Hin' Hall'].
  assert (Hinv : 0 < / np_max l) by (apply Rinv_0_lt_compat; exact HM).
  apply Rle_antisym.
  - apply in_map_iff in Hin'. destruct Hin' as (v & <- & Hv).
    pose proof (Hall v Hv).
    apply Rmult_le_reg_r with (r := np_max l); [exact HM|].
    unfold Rdiv. rewrite Rmult_assoc, Rinv_l by lra. lra.
  - apply Hall'. apply in_map_iff. exists (np_max l). split; [|exact Hin].
    field. lra.
Qed.

Section Normalised.

Variable fft2_abs_shift : image -> nat -> nat -> nat -> R.

Lemma averaged_spectrum (fft_length : nat) (normalizer : list R -> R)
    (image_array : image) (pixel_size magnification : R) :
  (2 <= fft_length)%nat ->
  (forall row col : nat, 0 <= fft2_abs_shift image_array fft_length row col) ->
  0 < fft2_abs_shift image_array fft_length (fft_length / 2) (fft_length / 2) ->
  exists (v : R) (t : list R),
    0 < v /\ Forall (Rle 0) t /\
    fst (fft_array_output fft2_abs_shift fft_length normalizer
           image_array pixel_size magnification)
    = map (fun u => u / normalizer (v :: t)) (v :: t).
Proof.
  intros HL Hnn Hdc. unfold fft_array_output.
  set (Q := fold_quadrants _ _ _).
  assert (Hm : (1 <= fft_length / 2)%nat).
  { apply Nat.div_le_lower_bound; lia. }
  assert (HQ : forall a b : nat, 0 <= Q a b).
  { intros a b. unfold Q, fold_quadrants.
    pose proof (Hnn (fft_length / 2 + a)%nat (fft_length / 2 + b)%nat).
    pose proof (Hnn (fft_length / 2 + a)%nat (fft_length / 2 - b)%nat).
    pose proof (Hnn (fft_length / 2 - a)%nat (fft_length / 2 - b)%nat).
    pose proof (Hnn (fft_length / 2 - a)%nat (fft_length / 2 + b)%nat). lra. }
  assert (HQ0 : 0 < Q 0%nat 0%nat).
  { unfold Q, fold_quadrants. rewrite !Nat.add_0_r, !Nat.sub_0_r. lra. }
  destruct (bins_spec Q (fft_length / 2)) as (H1 & H2 & Hpos).
  destruct (bins_nonneg Q (fft_length / 2) HQ Hm) as [Hall H0].
  destruct (bins Q (fft_length / 2) (fft_length / 2 + 1)) as [fft_list weight_list].
  cbn [fst snd] in *.
  destruct (averaged_positive fft_list weight_list (fft_length / 2) Hm H1 H2 Hpos Hall
              ltac:(lra)) as (v & t & -> & Hv & Ht).
  exists v, t. split; [exact Hv|]. split; [exact Ht | reflexivity].
Qed.

(** What "normalised" means in the two implementations, for a spectrum of
    magnitudes whose zero-frequency term is positive: the list returned by
    [_modalNoiseFFT] sums to 1, and the list returned by [getModalNoiseFFT]
    has maximum 1 and entries in [0, 1]. *)
Theorem fft_spectrum_normalised (image_array : image) (pixel_size magnification : R) :
  image_array <> [] -> hd [] image_array <> [] ->
  (forall n row col : nat, 0 <= fft2_abs_shift image_array n row col) ->
  (forall n : nat, 0 < fft2_abs_shift image_array n (n / 2) (n / 2)) ->
  np_sum (fst (_modalNoiseFFT_array fft2_abs_shift image_array pixel_size magnification))
  = 1 /\
  np_max (fst (getModalNoiseFFT_array fft2_abs_shift image_array pixel_size magnification))
  = 1 /\
  forall u : R,
    In u (fst (getModalNoiseFFT_array fft2_abs_shift image_array pixel_size magnification)) ->
    0 <= u <= 1.
Proof.
  intros Hh Hw Hnn Hdc.
  unfold _modalNoiseFFT_array, getModalNoiseFFT_array.
  set (L := (8 * Nat.min (List.length image_array) (List.length (hd [] image_array)))%nat).
  assert (HL : (2 <= L)%nat).
  { unfold L. destruct image_array as [|r0 rows]; [contradiction|].
    simpl hd in *. destruct r0; [contradiction|]. simpl. lia. }
  destruct (averaged_spectrum 2500 np_sum image_array pixel_size magnification
              ltac:(lia) (Hnn 2500%nat) (Hdc 2500%nat)) as (v & t & Hv & Ht & ->).
  destruct (averaged_spectrum L np_max image_array pixel_size magnification
              HL (Hnn L) (Hdc L)) as (v' & t' & Hv' & Ht' & ->).
  assert (HS : 0 < np_sum (v :: t)).
  { simpl. assert (0 <= np_sum t).
    { apply Gini.np_sum_nonneg. rewrite Forall_forall in Ht. exact Ht. }
    lra. }
  assert (HM : 0 < np_max (v' :: t')).
  { destruct (NoiseFacts.np_max_spec (v' :: t') ltac:(discriminate)) as [_ Hall].
    pose proof (Hall v' (or_introl eq_refl)). lra. }
  split; [|split].
  - rewrite np_sum_div. field. lra.
  - apply np_max_div. exact HM.
  - intros u Hu. apply in_map_iff in Hu. destruct Hu as (w & <- & Hin).
    destruct (NoiseFacts.np_max_spec (v' :: t') ltac:(discriminate)) as [_ Hall].
    pose proof (Hall w Hin).
    assert (0 <= w).
    { destruct Hin as [<- | Hin]; [lra|].
      rewrite Forall_forall in Ht'. apply Ht'. exact Hin. }
    assert (Hinv : 0 < / np_max (v' :: t')) by (apply Rinv_0_lt_compat; exact HM).
    split.
    + apply Rmult_le_pos; lra.
    + apply Rmult_le_reg_r with (r := np_max (v' :: t')); [exact HM|].
      unfold Rdiv. rewrite Rmult_assoc, Rinv_l by lra. lra.
Qed.

End Normalised.

Lemma fft_spectrum_normalised_witness :
  np_sum (fst (_modalNoiseFFT_array flat_spectrum [[1]] 1 1)) = 1 /\
  np_max (fst (getModalNoiseFFT_array flat_spectrum [[1]] 1 1)) = 1.
Proof.
  assert (Hh : [[1]] <> ([] : image)) by discriminate.
  assert (Hw : hd [] [[1]] <> ([] : list R)) by discriminate.
  assert (Hnn : forall n row col : nat, 0 <= flat_spectrum [[1]] n row col)
    by (intros; unfold flat_spectrum; lra).
  assert (Hdc : forall n : nat, 0 < flat_spectrum [[1]] n (n / 2) (n / 2))
    by (intros; unfold flat_spectrum; lra).
  destruct (fft_spectrum_normalised flat_spectrum [[1]] 1 1 Hh Hw Hnn Hdc)
    as (Hs & Hm & _).
  split; assumption.
Defined.

(** *** The [output] argument *)

Inductive fft_result : Type :=
| SpectrumArrays (fft_list freq_list : list R)
| SpectrumParameter (gini : R)
| PyNone.

Section Output.

Variable fft2_abs_shift : image -> nat -> nat -> nat -> R.

(** [getIntensityArray(fft_array, fx0, fy0, max_freq)] of
    [NumpyArrayHandler]. *)
Variable getIntensityArray : (nat -> nat -> R) -> nat -> nat -> nat -> image.

(** [ModalNoise.getModalNoiseFFT] from the windowed image on, lines 198-248:
    the last branch builds a [ValueError] and does not raise it, so the
    method falls off its end and returns [None]. *)
Definition getModalNoiseFFT (image_array : image) (pixel_size magnification : R)
    (output : string) : result fft_result :=
  let height := List.length image_array in
  let width := List.length (hd [] image_array) in
  let fft_length := (8 * Nat.min height width)%nat in
  let fft_array := fft2_abs_shift image_array fft_length in
  let fx0 := (fft_length / 2)%nat in
  let fy0 := (fft_length / 2)%nat in
  let max_freq := (fft_length / 2)%nat in
  if (String.length output <? 3)%nat then Raise "ValueError: Incorrect output string"
  else if contains output "array" then
    let '(fft_list, freq_list) :=
      getModalNoiseFFT_array fft2_abs_shift image_array pixel_size magnification in
    Ok (SpectrumArrays fft_list freq_list)
  else if contains output "parameter" then
    Ok (SpectrumParameter
          (Gini.getGiniCoefficient (getIntensityArray fft_array fx0 fy0 max_freq)))
  else Ok PyNone.

(** [_modalNoiseFFT] of [FiberProperties/ModalNoise.py] from the windowed
    image on, lines 83-139: here the last branch raises. *)
Definition _modalNoiseFFT (image_array : image) (pixel_size magnification : R)
    (output : string) : result fft_result :=
  let fft_length := 2500%nat in
  let fft_array := fft2_abs_shift image_array fft_length in
  let fx0 := (fft_length / 2)%nat in
  let fy0 := (fft_length / 2)%nat in
  let max_freq := (fft_length / 2)%nat in
  if (String.length output <? 3)%nat then Raise "ValueError: Incorrect output string"
  else if contains output "array" then
    let '(fft_list, freq_list) :=
      _modalNoiseFFT_array fft2_abs_shift image_array pixel_size magnification in
    Ok (SpectrumArrays fft_list freq_list)
  else if contains output "parameter" then
    Ok (SpectrumParameter
          (Gini._gini_coefficient (getIntensityArray fft_array fx0 fy0 max_freq)))
  else Raise "ValueError: Incorrect output string".

(** An [output] string of more than nine characters, such as 'parameters',
    is in neither 'array' nor 'parameter': the function of
    [FiberProperties/ModalNoise.py] raises [ValueError], the method of class
    [ModalNoise] returns [None] without an error. *)
Theorem fft_unknown_output (image_array : image) (pixel_size magnification : R)
    (output : string) :
  (9 < String.length output)%nat ->
  getModalNoiseFFT image_array pixel_size magnification output = Ok PyNone /\
  _modalNoiseFFT image_array pixel_size magnification output
  = Raise "ValueError: Incorrect output string".
Proof.
  intros H. unfold getModalNoiseFFT, _modalNoiseFFT.
  destruct (Nat.ltb_spec (String.length output) 3) as [Hs | Hs]; [lia|].
  rewrite !Dispatch.contains_too_long by (simpl; lia).
  split; reflexivity.
Qed.

End Output.

Lemma fft_unknown_output_witness :
  getModalNoiseFFT flat_spectrum (fun _ _ _ _ => []) [[1]] 1 1 "parameters" = Ok PyNone.
Proof.
  apply (fft_unknown_output flat_spectrum (fun _ _ _ _ => []) [[1]] 1 1 "parameters").
  simpl. lia.
Defined.

End SpectrumFacts.

(** ** [ModalNoise.py]: the two fft implementations *)

Module SpectrumClaims.
Import Estimator FFT.

Section Implementations.

Variable fft2_abs_shift : image -> nat -> nat -> nat -> R.

(** The binned and averaged spectrum for a transform length, before it is
    normalised: the 'array' branch with a divisor of 1. *)
Definition averaged (fft_length : nat) (image_array : image) : list R :=
  fst (fft_array_output fft2_abs_shift fft_length (fun _ => 1) image_array 1 1).

Lemma map_div_1 (l : list R) : map (fun v => v / 1) l = l.
Proof.
  induction l as [|v l IH]; [reflexivity|].
  simpl. rewrite IH. f_equal. field.
Qed.

(** The spectrum of the 'array' branch is the averaged spectrum divided by
    the value of the normalizer on it. *)
Lemma fft_array_output_normalised (fft_length : nat) (normalizer : list R -> R)
    (image_array : image) (pixel_size magnification : R) :
  fst (fft_array_output fft2_abs_shift fft_length normalizer
         image_array pixel_size magnification)
  = map (fun v => v / normalizer (averaged fft_length image_array))
        (averaged fft_length image_array).
Proof.
  unfold averaged, fft_array_output.
  destruct (bins _ _ _) as [fft_list weight_list]. cbn [fst].
  rewrite map_div_1. reflexivity.
Qed.

(** Entry [k] of the frequencies, below half the transform length. *)
Lemma fft_array_output_frequency (fft_length : nat) (normalizer : list R -> R)
    (image_array : image) (pixel_size magnification : R) (k : nat) :
  (k < fft_length / 2)%nat ->
  nth k (snd (fft_array_output fft2_abs_shift fft_length normalizer
                image_array pixel_size magnification)) 0
  = INR k / (INR fft_length * pixel_size / magnification).
Proof.
  intros Hk. unfold fft_array_output.
  set (Q := fold_quadrants _ _ _).
  destruct (bins_spec Q (fft_length / 2)) as (H1 & H2 & Hpos).
  destruct (bins Q (fft_length / 2) (fft_length / 2 + 1)) as [fft_list weight_list].
  cbn [fst snd] in *.
  set (freq_list := map INR (seq 0 (fft_length / 2 + 1))).
  assert (Hf : List.length freq_list = (fft_length / 2 + 1)%nat).
  { unfold freq_list. rewrite length_map, length_seq. reflexivity. }
  pose proof (masked_length 0 freq_list weight_list (fft_length / 2) Hf H2 Hpos) as [Hlo _].
  assert (Hlen : (k < List.length (map fst (masked freq_list weight_list)))%nat).
  { rewrite length_map. lia. }
  set (c := INR fft_length * pixel_size / magnification).
  rewrite (nth_indep _ 0 ((fun v => v / c) 0)) by (rewrite length_map; exact Hlen).
  rewrite (map_nth (fun v => v / c)).
  rewrite (nth_indep _ 0 (fst (0, 0))) by exact Hlen.
  rewrite (map_nth fst).
  rewrite (SpectrumFacts.masked_nth 0 freq_list weight_list (fft_length / 2) k Hf H2 Hpos Hk).
  cbn [fst]. unfold freq_list.
  rewrite (nth_indep _ 0 (INR 0)) by (rewrite length_map, length_seq; lia).
  rewrite (map_nth INR), seq_nth by lia. reflexivity.
Qed.

End Implementations.

(** With a flat spectrum every entry of the averaged spectrum is 1. *)
Lemma averaged_flat (fft_length : nat) (image_array : image) :
  exists n : nat,
    (fft_length / 2 <= n)%nat /\
    averaged flat_spectrum fft_length image_array = repeat 1 n.
Proof.
  destruct (flat_outputs fft_length (fun _ => 1) image_array 1 1) as (n & Hn & E).
  exists n. split; [exact Hn|].
  unfold averaged. rewrite E. rewrite map_div_1. reflexivity.
Qed.

(** C9: the 'array' outputs of the two fft implementations differ for every
    non-empty windowed image, whatever the spectrum.  [_modalNoiseFFT] uses
    the transform length 2500 (its frequency step is
    1 / (2500 * pixel_size / magnification) and its spectrum has 1250 or 1251
    entries) and divides the averaged spectrum by its sum; [getModalNoiseFFT]
    uses the transform length 8 * min(height, width) (frequency step and
    number of entries accordingly) and divides by the maximum.  The two
    normalisations are not equivalent: for a flat spectrum every entry of
    the first output is at most 1/1250 and every entry of the second is 1. *)
Theorem fft_implementations_differ
    (fft2_abs_shift : image -> nat -> nat -> nat -> R)
    (image_array : image) (pixel_size magnification : R) :
  image_array <> [] ->
  hd [] image_array <> [] ->
  _modalNoiseFFT_array fft2_abs_shift image_array pixel_size magnification
  <> getModalNoiseFFT_array fft2_abs_shift image_array pixel_size magnification /\
  (nth 1 (snd (_modalNoiseFFT_array fft2_abs_shift image_array pixel_size magnification)) 0
   = INR 1 / (INR 2500 * pixel_size / magnification) /\
   nth 1 (snd (getModalNoiseFFT_array fft2_abs_shift image_array pixel_size magnification)) 0
   = INR 1 / (INR (8 * Nat.min (List.length image_array)
                                (List.length (hd [] image_array)))
              * pixel_size / magnification)) /\
  ((1250 <= List.length (fst (_modalNoiseFFT_array fft2_abs_shift image_array
                                pixel_size magnification)) <= 1251)%nat /\
   (4 * Nat.min (List.length image_array) (List.length (hd [] image_array))
    <= List.length (fst (getModalNoiseFFT_array fft2_abs_shift image_array
                           pixel_size magnification))
    <= 4 * Nat.min (List.length image_array) (List.length (hd [] image_array)) + 1)%nat) /\
  (fst (_modalNoiseFFT_array fft2_abs_shift image_array pixel_size magnification)
   = map (fun v => v / np_sum (averaged fft2_abs_shift 2500 image_array))
         (averaged fft2_abs_shift 2500 image_array) /\
   fst (getModalNoiseFFT_array fft2_abs_shift image_array pixel_size magnification)
   = map (fun v => v / np_max
                        (averaged fft2_abs_shift
                           (8 * Nat.min (List.length image_array)
                                        (List.length (hd [] image_array)))
                           image_array))
         (averaged fft2_abs_shift
            (8 * Nat.min (List.length image_array) (List.length (hd [] image_array)))
            image_array)) /\
  ((forall v : R,
      In v (fst (_modalNoiseFFT_array flat_spectrum image_array pixel_size magnification)) ->
      v <= 1 / 1250) /\
   (forall v : R,
      In v (fst (getModalNoiseFFT_array flat_spectrum image_array pixel_size magnification)) ->
      v = 1) /\
   fst (_modalNoiseFFT_array flat_spectrum image_array pixel_size magnification) <> [] /\
   fst (getModalNoiseFFT_array flat_spectrum image_array pixel_size magnification) <> []).
Proof.
  intros Hh Hw.
  set (m := Nat.min (List.length image_array) (List.length (hd [] image_array))).
  assert (Hm : (1 <= m)%nat).
  { unfold m. destruct image_array as [|r0 rows]; [contradiction|].
    simpl hd in *. destruct r0; [contradiction|]. simpl. lia. }
  assert (Hdiv : (8 * m / 2 = 4 * m)%nat).
  { replace (8 * m)%nat with (4 * m * 2)%nat by lia. apply Nat.div_mul. lia. }
  pose proof (fft_array_output_length fft2_abs_shift 2500 np_sum
                image_array pixel_size magnification) as A.
  pose proof (fft_array_output_length fft2_abs_shift (8 * m) np_max
                image_array pixel_size magnification) as B.
  change (2500 / 2)%nat with 1250%nat in A. rewrite Hdiv in B.
  unfold _modalNoiseFFT_array, getModalNoiseFFT_array. fold m.
  split; [|split; [|split; [|split]]].
  - intros E. rewrite E in A. lia.
  - split; apply fft_array_output_frequency.
    + change (2500 / 2)%nat with 1250%nat. lia.
    + rewrite Hdiv. lia.
  - split; [exact A | exact B].
  - split; apply fft_array_output_normalised.
  - rewrite !fft_array_output_normalised.
    destruct (averaged_flat 2500 image_array) as (n & Hn & ->).
    destruct (averaged_flat (8 * m) image_array) as (n' & Hn' & ->).
    change (2500 / 2)%nat with 1250%nat in Hn. rewrite Hdiv in Hn'.
    destruct n as [|n]; [lia|]. destruct n' as [|n']; [lia|].
    rewrite np_sum_ones, np_max_ones.
    assert (Hbig : 1250 <= INR (S n)).
    { replace 1250 with (INR 1250) by (simpl; lra). apply le_INR. lia. }
    split; [|split; [|split]].
    + intros v Hv. apply in_map_iff in Hv. destruct Hv as (u & <- & Hu).
      apply repeat_spec in Hu. subst u.
      unfold Rdiv. rewrite !Rmult_1_l.
      apply Rinv_le_contravar; lra.
    + intros v Hv. apply in_map_iff in Hv. destruct Hv as (u & <- & Hu).
      apply repeat_spec in Hu. subst u. field.
    + discriminate.
    + discriminate.
Qed.

Lemma fft_implementations_differ_witness :
  _modalNoiseFFT_array flat_spectrum [[1]] 1 1
  <> getModalNoiseFFT_array flat_spectrum [[1]] 1 1 /\
  (forall v : R, In v (fst (_modalNoiseFFT_array flat_spectrum [[1]] 1 1)) ->
     v <= 1 / 1250) /\
  (forall v : R, In v (fst (getModalNoiseFFT_array flat_spectrum [[1]] 1 1)) -> v = 1).
Proof.
  assert (Hh : [[1]] <> ([] : image)) by discriminate.
  assert (Hw : hd [] [[1]] <> ([] : list R)) by discriminate.
  destruct (fft_implementations_differ flat_spectrum [[1]] 1 1 Hh Hw)
    as (Hne & _ & _ & _ & Hsum & Hmax & _).
  split; [exact Hne|]. split; [exact Hsum | exact Hmax].
Defined.

End SpectrumClaims.

(** ** [base_image.py]: a sequence of arrays as image input *)

Module BaseImage.

(** [image / c] and [a + b] on arrays, element by element. *)
Definition div_image (img : image) (c : R) : image := map (map (fun v => v / c)) img.

Definition add_image (a b : image) : image :=
  map (fun rows => map (fun vs => fst vs + snd vs) (combine (fst rows) (snd rows)))
      (combine a b).

(** [convert_image_to_array], lines 342-347, for float arrays:
    [[
    list_len = float(len(image_input))
    image_input = np.array(image_input)
    image = image_input[0] / list_len
    for image in image_input[1:]:
        image += image / list_len
    ]]
    The loop variable is [image] itself: every pass rebinds the name to the
    next array and adds to that array. *)
Definition convert_image_to_array (image_input : list image) : image :=
  let list_len := INR (List.length image_input) in
  let image := div_image (nth 0 image_input []) list_len in
  fold_left (fun _ image => add_image image (div_image image list_len))
            (tl image_input) image.

Lemma add_div_row (row : list R) (c : R) :
  map (fun vs => fst vs + snd vs) (combine row (map (fun v => v / c) row))
  = map (fun v => v + v / c) row.
Proof. induction row as [|v row IH]; simpl; [reflexivity | rewrite IH; reflexivity]. Qed.

Lemma add_div_image (img : image) (c : R) :
  add_image img (div_image img c) = map (map (fun v => v + v / c)) img.
Proof.
  unfold add_image, div_image.
  induction img as [|row img IH]; simpl; [reflexivity|].
  rewrite add_div_row, IH. reflexivity.
Qed.

Lemma fold_left_rebind {A : Type} (f : A -> A) (l : list A) (a d : A) :
  l <> [] -> fold_left (fun (_ : A) (x : A) => f x) l a = f (last l d).
Proof.
  revert a. induction l as [|x l IH]; intros a Hl; [contradiction|].
  destruct l as [|y l]; [reflexivity|].
  change (fold_left (fun (_ : A) (x0 : A) => f x0) (x :: y :: l) a)
    with (fold_left (fun (_ : A) (x0 : A) => f x0) (y :: l) (f x)).
  rewrite IH by discriminate. reflexivity.
Qed.

(** For two or more arrays the result is the last array with every entry
    multiplied by [1 + 1/n]: the other arrays have no influence on it, and it
    is not their mean. *)
Theorem sequence_of_arrays_returns_scaled_last (first : image) (others : list image) :
  others <> [] ->
  convert_image_to_array (first :: others)
  = map (map (fun v => v + v / INR (List.length (first :: others)))) (last others []) /\
  forall first' : image,
    convert_image_to_array (first' :: others) = convert_image_to_array (first :: others).
Proof.
  intros Hne.
  assert (E : forall f : image,
            convert_image_to_array (f :: others)
            = map (map (fun v => v + v / INR (List.length (f :: others))))
                  (last others [])).
  { intros f. unfold convert_image_to_array. cbn [tl].
    rewrite (fold_left_rebind
               (fun image => add_image image
                               (div_image image (INR (List.length (f :: others)))))
               others _ [] Hne).
    apply add_div_image. }
  split; [apply E|]. intros first'. rewrite !E. reflexivity.
Qed.

(** The arrays [[1]] and [[3]] give [[3 + 3/2]], not their mean [[2]]. *)
Lemma sequence_of_arrays_returns_scaled_last_witness :
  convert_image_to_array [[[1]]; [[3]]] = [[3 + 3 / INR 2]] /\
  convert_image_to_array [[[1]]; [[3]]] <> [[2]].
Proof.
  assert (Hne : [[[3]]] <> ([] : list image)) by discriminate.
  destruct (sequence_of_arrays_returns_scaled_last [[1]] [[[3]]] Hne) as [E _].
  split; [exact E|]. intros H.
  pose proof (eq_trans (eq_sym E) H) as H'. simpl in H'. injection H' as H'. lra.
Defined.

End BaseImage.

(** ** [ImageAnalysis.setImageProperties] *)

Module ImageProperties.

(** The attributes [setImageProperties] assigns; [None] is Python's [None],
    also for an attribute that has not been assigned yet. *)
Record properties : Type := mkProperties {
  pixel_size : option R;
  bit_depth : option Z;
  exp_time : option R;
  date_time : option string;
  temp : option R;
  camera : option string;
  test : option string;
  magnification : option R
}.

(** The entries of [output_dict] that the method looks up: [None] for a
    missing key, [Some v] for a key with value [v], which may be Python's
    [None] itself. *)
Record output_dict : Type := mkOutputDict {
  dict_pixel_size : option (option R);
  dict_bit_depth : option (option Z);
  dict_exp_time : option (option R);
  dict_date_time : option (option string);
  dict_temp : option (option R);
  dict_camera : option (option string);
  dict_test : option (option string)
}.

(** [if key in output_dict: self.attr = output_dict[key]] *)
Definition assign {A : Type} (entry : option (option A)) (attr : option A) : option A :=
  match entry with
  | Some v => v
  | None => attr
  end.

(** [self.camera == name] *)
Definition camera_is (camera : option string) (name : string) : bool :=
  match camera with
  | Some c => (c =? name)%string
  | None => false
  end.

(** Lines 89-114. *)
Definition setImageProperties (dict : output_dict) (self : properties)
  : result properties :=
  let pixel_size := assign (dict_pixel_size dict) (pixel_size self) in
  let bit_depth := assign (dict_bit_depth dict) (bit_depth self) in
  let exp_time := assign (dict_exp_time dict) (exp_time self) in
  let date_time := assign (dict_date_time dict) (date_time self) in
  let temp := assign (dict_temp dict) (temp self) in
  let camera := assign (dict_camera dict) (camera self) in
  let test := assign (dict_test dict) (test self) in
  let magnification := None in
  let magnification :=
    if camera_is camera "nf" || camera_is camera "in" then Some 10 else magnification in
  let magnification :=
    if camera_is camera "ff" then Some 1 else magnification in
  if negb (Estimator.is_some pixel_size) then
    Raise "RuntimeError: Pixel Size needs to be set externally"
  else if negb (Estimator.is_some magnification) then
    Raise "RuntimeError: Magnification needs to be set externally"
  else
    Ok (mkProperties pixel_size bit_depth exp_time date_time temp camera test
          magnification).

Lemma camera_is_true (camera : option string) (name : string) :
  camera_is camera name = true <-> camera = Some name.
Proof.
  unfold camera_is. destruct camera as [c|].
  - rewrite String.eqb_eq. split; [intros -> | intros H; injection H as ->]; reflexivity.
  - split; discriminate.
Qed.

(** The method returns only for the cameras 'nf', 'in' and 'ff' and a known
    pixel size: the magnification is then 10 for 'nf' and 'in' and 1 for
    'ff', whatever it was before the call.  For every other camera, [None]
    included, it raises [RuntimeError]: the magnification it asks to be set
    externally is reset by the call itself. *)
Theorem setImageProperties_needs_known_camera (dict : output_dict) (self : properties) :
  (forall self' : properties,
     setImageProperties dict self = Ok self' ->
     Estimator.is_some (pixel_size self') = true /\
     ((camera self' = Some "nf"%string \/ camera self' = Some "in"%string) /\
      magnification self' = Some 10 \/
      camera self' = Some "ff"%string /\ magnification self' = Some 1)) /\
  (assign (dict_camera dict) (camera self) <> Some "nf"%string ->
   assign (dict_camera dict) (camera self) <> Some "in"%string ->
   assign (dict_camera dict) (camera self) <> Some "ff"%string ->
   exists e : string, setImageProperties dict self = Raise e) /\
  (forall m : option R,
     setImageProperties dict
       (mkProperties (pixel_size self) (bit_depth self) (exp_time self)
          (date_time self) (temp self) (camera self) (test self) m)
     = setImageProperties dict self).
Proof.
  split; [|split].
  - intros self'. unfold setImageProperties.
    set (c := assign (dict_camera dict) (camera self)).
    destruct (Estimator.is_some (assign (dict_pixel_size dict) (pixel_size self))) eqn:P;
      [|discriminate].
    cbn [negb].
    destruct (camera_is c "ff") eqn:F.
    + cbn [Estimator.is_some negb]. intros H. injection H as <-.
      cbn [pixel_size camera magnification]. split; [exact P|].
      right. split; [apply camera_is_true; exact F | reflexivity].
    + destruct (camera_is c "nf" || camera_is c "in") eqn:N.
      * cbn [Estimator.is_some negb]. intros H. injection H as <-.
        cbn [pixel_size camera magnification]. split; [exact P|].
        left. split; [|reflexivity].
        apply orb_true_iff in N. destruct N as [N | N];
          apply camera_is_true in N; auto.
      * cbn [Estimator.is_some negb]. discriminate.
  - intros Hnf Hin Hff. unfold setImageProperties.
    set (c := assign (dict_camera dict) (camera self)) in *.
    assert (N1 : camera_is c "nf" = false).
    { destruct (camera_is c "nf") eqn:E; [|reflexivity].
      apply camera_is_true in E. contradiction. }
    assert (N2 : camera_is c "in" = false).
    { destruct (camera_is c "in") eqn:E; [|reflexivity].
      apply camera_is_true in E. contradiction. }
    assert (N3 : camera_is c "ff" = false).
    { destruct (camera_is c "ff") eqn:E; [|reflexivity].
      apply camera_is_true in E. contradiction. }
    rewrite N1, N2, N3. cbn [orb Estimator.is_some negb].
    destruct (Estimator.is_some (assign (dict_pixel_size dict) (pixel_size self)));
      eexists; reflexivity.
  - intros m. reflexivity.
Qed.

(** An object built with no camera, from an input that carries none. *)
Lemma setImageProperties_needs_known_camera_witness :
  exists e : string,
    setImageProperties (mkOutputDict None None None None None None None)
      (mkProperties (Some 5) None None None None None None (Some 10))
    = Raise e.
Proof.
  apply (proj1 (proj2 (setImageProperties_needs_known_camera
                         (mkOutputDict None None None None None None None)
                         (mkProperties (Some 5) None None None None None None (Some 10)))));
    discriminate.
Defined.

End ImageProperties.
